(** * Resumable transfers of the S3 file manager

    A shallow embedding of [src/services/resumableService.ts] (the resumable
    transfer engine and its persisted progress store) and of the queue logic
    of [src/components/UploadQueue.tsx], with the properties of the design
    document stated over them.

    Conventions of the embedding:
    - JS numbers that hold byte counts, part numbers and time stamps are
      integers, modelled in [Z];
    - a [Blob]/[ArrayBuffer] is the list of its bytes;
    - [localStorage] restricted to the keys [resumable_upload_<k>] and
      [resumable_download_<k>] is a pair of finite maps indexed by [<k>];
      [JSON.parse (JSON.stringify r)] is [r];
    - an [async] function runs atomically between two [await]s; what the rest
      of the page does while it is suspended is given by an explicit
      environment ([Env]), one [Tick] per [await]. *)

From Stdlib Require Import ZArith List Bool Strings.Byte Ascii String.
From stdpp Require Import gmap strings pretty list list_numbers fin_maps sorting.

Open Scope Z_scope.

(** ** Bytes and numbers *)

Abbreviation Blob := (list byte).

Definition blob_size (b : Blob) : Z := Z.of_nat (length b).

(** [blob.slice(start, end)] for [0 <= start]: the bytes at offsets
    [start .. end-1], clamped to the blob. *)
Definition blob_slice (b : Blob) (start stop : Z) : Blob :=
  take (Z.to_nat (stop - start)) (drop (Z.to_nat start) b).

(** [Math.ceil(a / b)] on integers, for [0 < b]. *)
Definition ceil_div (a b : Z) : Z := - ((- a) / b).

Definition CHUNK_SIZE : Z := 5 * 1024 * 1024.
Definition RESUMABLE_THRESHOLD : Z := 10 * 1024 * 1024.

(** ** Strings: template literals and the regular expressions of [cancelUpload] *)

Definition is_digit (c : ascii) : bool :=
  match Ascii.is_nat c with Some _ => true | None => false end.

(** Splits the reversed string [r] into its leading digits and the rest. *)
Fixpoint span_digits (r : list ascii) : list ascii * list ascii :=
  match r with
  | c :: r' =>
      if is_digit c then let '(ds, rest) := span_digits r' in (c :: ds, rest)
      else ([], r)
  | [] => ([], [])
  end.

(** The prefix of [s] before a match of [/_\d+$/], if there is one. *)
Definition match_num_suffix (s : string) : option string :=
  match span_digits (rev (list_ascii_of_string s)) with
  | (_ :: _, c :: rest) =>
      if Ascii.eqb c "_" then Some (string_of_list_ascii (rev rest)) else None
  | _ => None
  end.

(** [s.replace(/_\d+$/, '')] *)
Definition strip_num_suffix (s : string) : string :=
  default s (match_num_suffix s).

(** [s.replace(/_\d+_\d+$/, '')] *)
Definition strip_two_num_suffixes (s : string) : string :=
  default s (match_num_suffix s ≫= match_num_suffix).

(** ** Data model *)

Record File := {
  file_name : string;
  file_size : Z;
  file_lastModified : Z;
  file_type : string;
  file_content : Blob;
}.

(** [file.slice(start, end)] *)
Definition file_slice (f : File) (start stop : Z) : Blob :=
  blob_slice (file_content f) start stop.

(** A file read from disk reports the size of its content (the placeholder
    files the queue builds for pending uploads do not). *)
Definition real_file (f : File) : Prop := file_size f = blob_size (file_content f).

Abbreviation UploadId := N.
Abbreviation ETag := string.

Record PartInfo := { etag : ETag; part_size : Z }.

Record ChunkProgress := {
  cp_uploadId : option UploadId;
  cp_parts : gmap Z PartInfo;
  cp_totalSize : Z;
  cp_uploadedSize : Z;
  cp_fileName : string;
  cp_key : string;
  cp_lastModified : Z;
}.

Record Chunk := { c_start : Z; c_end : Z; c_downloaded : bool }.

(** [chunks] has the keys [0 .. m-1]; it is the list of its values. *)
Record DownloadProgress := {
  dp_totalSize : Z;
  dp_downloadedSize : Z;
  dp_chunks : list Chunk;
  dp_fileName : string;
  dp_key : string;
  dp_lastModified : Z;
}.

(** ** The object store the service talks to

    The aws-sdk client is external to the repository; this is the store the
    engine is run against.  Every request is logged with its outcome. *)

Inductive S3Request :=
  | CreateMultipartUpload (key : string)
  | UploadPart (key : string) (partNumber : Z) (uploadId : UploadId) (body : Blob)
  | CompleteMultipartUpload (key : string) (uploadId : UploadId) (manifest : list (ETag * Z))
  | HeadObject (key : string)
  | GetObject (key : string) (first last : Z).

Record S3Object := { obj_body : Blob; obj_lastModified : Z }.

Record S3 := {
  s3_objects : gmap string S3Object;
  s3_sessions : gmap UploadId (gmap Z (ETag * Blob));
  s3_next_upload : UploadId;
  s3_now : Z;
  s3_log : list (S3Request * bool);
}.

Definition s3_logged (rq : S3Request) (ok : bool) (s : S3) : S3 :=
  {| s3_objects := s3_objects s; s3_sessions := s3_sessions s;
     s3_next_upload := s3_next_upload s; s3_now := s3_now s;
     s3_log := s3_log s ++ [(rq, ok)] |}.

(** ** The environment of an asynchronous call *)

Inductive Action :=
  | UiPause (fileKey : string)
  | UiResume (fileKey : string)
  | UiCancel (fileKey : string).

(** What happens while the engine is suspended at an [await]: the calls the
    page makes to the service, and whether the awaited request succeeds. *)
Record Tick := { during : list Action; net_ok : bool }.

Abbreviation Env := (list Tick).

Definition quiet : Tick := {| during := []; net_ok := true |}.

(** An exhausted environment is quiet: nothing interferes, requests succeed. *)
Definition next_tick (env : Env) : Tick * Env :=
  match env with
  | t :: env' => (t, env')
  | [] => (quiet, [])
  end.

Inductive Error :=
  | NotConfigured      (* 'S3 not configured' *)
  | TooSmall           (* 'File too small for resumable upload. Use regular upload instead.' *)
  | Cancelled          (* 'Upload cancelled' *)
  | S3Failure (rq : S3Request).  (* the rejection of an aws-sdk request *)

Inductive Result (A : Type) :=
  | Returned (a : A)
  | Threw (e : Error)
  | Pending.           (* the promise never settles *)
Arguments Returned {A} a.
Arguments Threw {A} e.
Arguments Pending {A}.

Section Service.

(** The tag the store computes for the body of a part. *)
Variable etag_of : Blob → ETag.

(** The floating-point test [(uploaded / total) * 100 >= 99.9]. *)
Variable percent_ge_99_9 : Z → Z → bool.

Definition s3_createMultipartUpload (key : string) (net : bool) (s : S3)
  : option UploadId * S3 :=
  if net then
    let id := s3_next_upload s in
    (Some id,
     {| s3_objects := s3_objects s;
        s3_sessions := <[id := ∅]> (s3_sessions s);
        s3_next_upload := N.succ id; s3_now := s3_now s;
        s3_log := s3_log s ++ [(CreateMultipartUpload key, true)] |})
  else (None, s3_logged (CreateMultipartUpload key) false s).

Definition s3_uploadPart (key : string) (partNumber : Z) (uploadId : UploadId)
    (body : Blob) (net : bool) (s : S3) : option ETag * S3 :=
  let rq := UploadPart key partNumber uploadId body in
  match (if net then s3_sessions s !! uploadId else None) with
  | Some sess =>
      (Some (etag_of body),
       {| s3_objects := s3_objects s;
          s3_sessions := <[uploadId := <[partNumber := (etag_of body, body)]> sess]> (s3_sessions s);
          s3_next_upload := s3_next_upload s; s3_now := s3_now s;
          s3_log := s3_log s ++ [(rq, true)] |})
  | None => (None, s3_logged rq false s)
  end.

(** The bodies named by a manifest, when every entry names an acknowledged
    part with its tag. *)
Fixpoint manifest_bodies (sess : gmap Z (ETag * Blob)) (manifest : list (ETag * Z))
  : option (list Blob) :=
  match manifest with
  | [] => Some []
  | (t, pn) :: rest =>
      match sess !! pn with
      | Some (t', body) =>
          if decide (t = t') then cons body <$> manifest_bodies sess rest else None
      | None => None
      end
  end.

Definition s3_completeMultipartUpload (key : string) (uploadId : UploadId)
    (manifest : list (ETag * Z)) (net : bool) (s : S3) : bool * S3 :=
  let rq := CompleteMultipartUpload key uploadId manifest in
  match (if net then s3_sessions s !! uploadId ≫= λ sess, manifest_bodies sess manifest
         else None) with
  | Some bodies =>
      (true,
       {| s3_objects :=
            <[key := {| obj_body := concat bodies; obj_lastModified := s3_now s |}]>
              (s3_objects s);
          s3_sessions := delete uploadId (s3_sessions s);
          s3_next_upload := s3_next_upload s; s3_now := Z.succ (s3_now s);
          s3_log := s3_log s ++ [(rq, true)] |})
  | None => (false, s3_logged rq false s)
  end.

Definition s3_headObject (key : string) (net : bool) (s : S3) : option (Z * Z) * S3 :=
  match (if net then s3_objects s !! key else None) with
  | Some o => (Some (blob_size (obj_body o), obj_lastModified o),
               s3_logged (HeadObject key) true s)
  | None => (None, s3_logged (HeadObject key) false s)
  end.

(** [Range: bytes=first-last], both ends inclusive. *)
Definition s3_getObject (key : string) (first last : Z) (net : bool) (s : S3)
  : option Blob * S3 :=
  let rq := GetObject key first last in
  match (if net then s3_objects s !! key else None) with
  | Some o =>
      if first <? blob_size (obj_body o)
      then (Some (blob_slice (obj_body o) first (last + 1)), s3_logged rq true s)
      else (None, s3_logged rq false s)
  | None => (None, s3_logged rq false s)
  end.

(** ** The service state *)

(** An [abortController] object together with the [isAborted] variable its
    [abort] closure captures. *)
Record Controller := { isPaused : bool; isAborted : bool }.

Record Service := {
  s3Service_configured : bool;          (* s3Service.isConfigured() *)
  svc_has_s3 : bool;                    (* this.s3 && this.config *)
  activeUploads : gmap string nat;      (* fileKey -> controller object *)
  controllers : gmap nat Controller;    (* the controller objects *)
  next_controller : nat;
  uploads : gmap string ChunkProgress;      (* resumable_upload_<k> *)
  downloads : gmap string DownloadProgress; (* resumable_download_<k> *)
  s3 : S3;
}.

Definition set_has_s3 (b : bool) (σ : Service) : Service :=
  {| s3Service_configured := s3Service_configured σ; svc_has_s3 := b;
     activeUploads := activeUploads σ; controllers := controllers σ;
     next_controller := next_controller σ; uploads := uploads σ;
     downloads := downloads σ; s3 := s3 σ |}.
Definition set_activeUploads (m : gmap string nat) (σ : Service) : Service :=
  {| s3Service_configured := s3Service_configured σ; svc_has_s3 := svc_has_s3 σ;
     activeUploads := m; controllers := controllers σ;
     next_controller := next_controller σ; uploads := uploads σ;
     downloads := downloads σ; s3 := s3 σ |}.
Definition set_controllers (m : gmap nat Controller) (σ : Service) : Service :=
  {| s3Service_configured := s3Service_configured σ; svc_has_s3 := svc_has_s3 σ;
     activeUploads := activeUploads σ; controllers := m;
     next_controller := next_controller σ; uploads := uploads σ;
     downloads := downloads σ; s3 := s3 σ |}.
Definition set_uploads (m : gmap string ChunkProgress) (σ : Service) : Service :=
  {| s3Service_configured := s3Service_configured σ; svc_has_s3 := svc_has_s3 σ;
     activeUploads := activeUploads σ; controllers := controllers σ;
     next_controller := next_controller σ; uploads := m;
     downloads := downloads σ; s3 := s3 σ |}.
Definition set_downloads (m : gmap string DownloadProgress) (σ : Service) : Service :=
  {| s3Service_configured := s3Service_configured σ; svc_has_s3 := svc_has_s3 σ;
     activeUploads := activeUploads σ; controllers := controllers σ;
     next_controller := next_controller σ; uploads := uploads σ;
     downloads := m; s3 := s3 σ |}.
Definition set_s3 (s : S3) (σ : Service) : Service :=
  {| s3Service_configured := s3Service_configured σ; svc_has_s3 := svc_has_s3 σ;
     activeUploads := activeUploads σ; controllers := controllers σ;
     next_controller := next_controller σ; uploads := uploads σ;
     downloads := downloads σ; s3 := s |}.

Definition checkS3Configuration (σ : Service) : Service :=
  if s3Service_configured σ then set_has_s3 true σ else σ.

Definition saveUploadProgress (key : string) (p : ChunkProgress) (σ : Service) : Service :=
  set_uploads (<[key := p]> (uploads σ)) σ.
Definition loadUploadProgress (key : string) (σ : Service) : option ChunkProgress :=
  uploads σ !! key.
Definition saveDownloadProgress (key : string) (p : DownloadProgress) (σ : Service) : Service :=
  set_downloads (<[key := p]> (downloads σ)) σ.
Definition loadDownloadProgress (key : string) (σ : Service) : option DownloadProgress :=
  downloads σ !! key.
Definition clearUploadProgress (key : string) (σ : Service) : Service :=
  set_uploads (delete key (uploads σ)) σ.
Definition clearDownloadProgress (key : string) (σ : Service) : Service :=
  set_downloads (delete key (downloads σ)) σ.

(** [getPendingUploads] and [getPendingDownloads]: the loop over the stored
    keys with the prefix of the kind, filling a new object; nothing is
    written to the store. *)
Definition getPendingUploads (σ : Service) : gmap string ChunkProgress :=
  foldl (λ uploads '(uploadKey, progress), <[uploadKey := progress]> uploads)
        ∅ (map_to_list (uploads σ)).
Definition getPendingDownloads (σ : Service) : gmap string DownloadProgress :=
  foldl (λ downloads '(downloadKey, progress), <[downloadKey := progress]> downloads)
        ∅ (map_to_list (downloads σ)).
Definition clearUploadFromStorage (fileKey : string) (σ : Service) : Service :=
  clearUploadProgress fileKey σ.

Definition clearCompletedUploads (σ : Service) : Service :=
  foldl (λ σ' '(uploadKey, progress),
           if percent_ge_99_9 (cp_uploadedSize progress) (cp_totalSize progress)
           then clearUploadProgress uploadKey σ' else σ')
        σ (map_to_list (getPendingUploads σ)).

(** *** Pause, resume, cancel *)

Definition pauseUpload (fileKey : string) (σ : Service) : Service :=
  match activeUploads σ !! fileKey with
  | Some h =>
      set_controllers
        (alter (λ c, {| isPaused := true; isAborted := isAborted c |}) h (controllers σ)) σ
  | None => σ
  end.

Definition resumeUpload (fileKey : string) (σ : Service) : Service :=
  match activeUploads σ !! fileKey with
  | Some h =>
      set_controllers
        (alter (λ c, {| isPaused := false; isAborted := isAborted c |}) h (controllers σ)) σ
  | None => σ
  end.

(** [abortController.abort()] of the controller [h] registered for [fileKey]. *)
Definition abort (h : nat) (fileKey : string) (σ : Service) : Service :=
  set_activeUploads (delete fileKey (activeUploads σ))
    (set_controllers
       (alter (λ c, {| isPaused := isPaused c; isAborted := true |}) h (controllers σ)) σ).

Definition cancelUpload (fileKey : string) (σ : Service) : Service :=
  let σ1 := match activeUploads σ !! fileKey with
            | Some h => abort h fileKey σ
            | None => σ
            end in
  let σ2 := clearUploadProgress fileKey σ1 in
  let keyVariations :=
    [fileKey; strip_num_suffix fileKey; strip_two_num_suffixes fileKey] in
  foldl (λ σ' key, clearUploadProgress key σ') σ2 keyVariations.

Definition isUploadPaused (fileKey : string) (σ : Service) : bool :=
  match activeUploads σ !! fileKey ≫= λ h, controllers σ !! h with
  | Some c => isPaused c
  | None => false
  end.
Definition isUploadActive (fileKey : string) (σ : Service) : bool :=
  bool_decide (is_Some (activeUploads σ !! fileKey)).

Definition run_action (a : Action) (σ : Service) : Service :=
  match a with
  | UiPause k => pauseUpload k σ
  | UiResume k => resumeUpload k σ
  | UiCancel k => cancelUpload k σ
  end.

Definition run_actions (acts : list Action) (σ : Service) : Service :=
  foldl (λ σ' a, run_action a σ') σ acts.

Definition ctl_paused (h : nat) (σ : Service) : bool :=
  match controllers σ !! h with Some c => isPaused c | None => false end.
Definition ctl_aborted (h : nat) (σ : Service) : bool :=
  match controllers σ !! h with Some c => isAborted c | None => false end.

(** ** resumableUpload *)

Definition upload_fileKey (key : string) (file : File) : string :=
  key +:+ "_" +:+ file_name file +:+ "_" +:+ pretty (file_size file)
      +:+ "_" +:+ pretty (file_lastModified file).

(** [while (abortController.isPaused && !isAborted) await sleep(1000)]: the
    state when the loop ends, with what is left of the environment, or with
    [None] when the environment ends with the upload still paused. *)
Fixpoint pause_wait (h : nat) (env : Env) (σ : Service) : Service * option Env :=
  if ctl_paused h σ && negb (ctl_aborted h σ) then
    match env with
    | t :: env' => pause_wait h env' (run_actions (during t) σ)
    | [] => (σ, None)
    end
  else (σ, Some env).

Definition add_part (partNumber : Z) (t : ETag) (sz : Z) (p : ChunkProgress)
  : ChunkProgress :=
  {| cp_uploadId := cp_uploadId p;
     cp_parts := <[partNumber := {| etag := t; part_size := sz |}]> (cp_parts p);
     cp_totalSize := cp_totalSize p;
     cp_uploadedSize := cp_uploadedSize p + sz;
     cp_fileName := cp_fileName p; cp_key := cp_key p;
     cp_lastModified := cp_lastModified p |}.

(** [progress.uploadId!]: a record without upload id sends [undefined]; the
    store is asked for session [0], which the model never allocates. *)
Definition uploadId_of (p : ChunkProgress) : UploadId := default 0%N (cp_uploadId p).

(** The completion manifest: the part numbers in increasing order with
    their tags. *)
Definition manifest_of (p : ChunkProgress) : list (ETag * Z) :=
  omap (λ pn, (λ i, (etag i, pn)) <$> cp_parts p !! pn)
       (merge_sort Z.le (map_to_list (cp_parts p)).*1).

Section upload.
Variables (file : File) (key fileKey : string) (h : nat).

(** The block [if (abortController.isPaused) { ... }] at the head of an
    iteration: the state to go on with, or the way the call ends there. *)
Definition wait_if_paused (progress : ChunkProgress) (env : Env) (σ : Service)
  : (Service * Env) + (Result unit * Service * Env) :=
  if ctl_paused h σ then
    match pause_wait h env (saveUploadProgress fileKey progress σ) with
    | (σ', Some env') =>
        if ctl_aborted h σ' then inr (Threw Cancelled, σ', env')
        else inl (σ', env')
    | (σ', None) => inr (Pending, σ', [])
    end
  else inl (σ, env).

(** The [for] loop over the part numbers; [todo] counts the iterations
    left.  The progress record is returned as the [catch] block sees it. *)
Fixpoint upload_parts (todo : nat) (partNumber : Z) (progress : ChunkProgress)
    (env : Env) (σ : Service) : Result unit * ChunkProgress * Service * Env :=
  match todo with
  | O => (Returned tt, progress, σ, env)
  | S todo' =>
      if ctl_aborted h σ then (Threw Cancelled, progress, σ, env) else
      match wait_if_paused progress env σ with
      | inr (r, σ', env') => (r, progress, σ', env')
      | inl (σ, env) =>
          match cp_parts progress !! partNumber with
          | Some _ => upload_parts todo' (partNumber + 1) progress env σ
          | None =>
              let start := (partNumber - 1) * CHUNK_SIZE in
              let stop := Z.min (start + CHUNK_SIZE) (file_size file) in
              let chunk := file_slice file start stop in
              let '(t, env) := next_tick env in
              let σ := run_actions (during t) σ in
              match s3_uploadPart key partNumber (uploadId_of progress) chunk
                      (net_ok t) (s3 σ) with
              | (Some tag, s) =>
                  let progress := add_part partNumber tag (blob_size chunk) progress in
                  let σ := saveUploadProgress fileKey progress (set_s3 s σ) in
                  upload_parts todo' (partNumber + 1) progress env σ
              | (None, s) =>
                  (Threw (S3Failure (UploadPart key partNumber (uploadId_of progress) chunk)),
                   progress, set_s3 s σ, env)
              end
          end
      end
  end.

(** The body of the [try] block. *)
Definition upload_try (progress : ChunkProgress) (env : Env) (σ : Service)
  : Result unit * ChunkProgress * Service * Env :=
  let totalChunks := ceil_div (file_size file) CHUNK_SIZE in
  match upload_parts (Z.to_nat totalChunks) 1 progress env σ with
  | (Returned _, progress, σ, env) =>
      let parts := manifest_of progress in
      let '(t, env) := next_tick env in
      let σ := run_actions (during t) σ in
      match s3_completeMultipartUpload key (uploadId_of progress) parts
              (net_ok t) (s3 σ) with
      | (true, s) =>
          let σ := clearUploadProgress fileKey (set_s3 s σ) in
          (Returned tt, progress,
           set_activeUploads (delete fileKey (activeUploads σ)) σ, env)
      | (false, s) =>
          (Threw (S3Failure (CompleteMultipartUpload key (uploadId_of progress) parts)),
           progress, set_s3 s σ, env)
      end
  | r => r
  end.

(** [try { ... } catch (error) { ... throw error }] *)
Definition upload_try_catch (progress : ChunkProgress) (env : Env) (σ : Service)
  : Result unit * Service * Env :=
  match upload_try progress env σ with
  | (Threw e, progress, σ, env) =>
      let σ := if ctl_aborted h σ then σ else saveUploadProgress fileKey progress σ in
      (Threw e, set_activeUploads (delete fileKey (activeUploads σ)) σ, env)
  | (r, _, σ, env) => (r, σ, env)
  end.
End upload.

Definition fresh_progress (file : File) (key : string) (id : UploadId) : ChunkProgress :=
  {| cp_uploadId := Some id; cp_parts := ∅; cp_totalSize := file_size file;
     cp_uploadedSize := 0; cp_fileName := file_name file; cp_key := key;
     cp_lastModified := file_lastModified file |}.

(** Registers a new controller object for [fileKey]. *)
Definition register_controller (fileKey : string) (σ : Service) : nat * Service :=
  let h := next_controller σ in
  (h,
   {| s3Service_configured := s3Service_configured σ; svc_has_s3 := svc_has_s3 σ;
      activeUploads := <[fileKey := h]> (activeUploads σ);
      controllers := <[h := {| isPaused := false; isAborted := false |}]> (controllers σ);
      next_controller := S h; uploads := uploads σ; downloads := downloads σ;
      s3 := s3 σ |}).

Definition resumableUpload (file : File) (key : string) (env : Env) (σ : Service)
  : Result unit * Service * Env :=
  let σ := checkS3Configuration σ in
  if negb (svc_has_s3 σ) then (Threw NotConfigured, σ, env) else
  if file_size file <? RESUMABLE_THRESHOLD then (Threw TooSmall, σ, env) else
  let fileKey := upload_fileKey key file in
  let progress := loadUploadProgress fileKey σ in
  let '(h, σ) := register_controller fileKey σ in
  let '(progress, σ) :=
    match progress with
    | Some p =>
        if negb (bool_decide (cp_totalSize p = file_size file))
           || negb (bool_decide (cp_fileName p = file_name file))
        then (None, clearUploadProgress fileKey σ)
        else (Some p, σ)
    | None => (None, σ)
    end in
  match progress with
  | Some p => upload_try_catch file key fileKey h p env σ
  | None =>
      let '(t, env) := next_tick env in
      let σ := run_actions (during t) σ in
      match s3_createMultipartUpload key (net_ok t) (s3 σ) with
      | (Some id, s) =>
          upload_try_catch file key fileKey h (fresh_progress file key id) env (set_s3 s σ)
      | (None, s) => (Threw (S3Failure (CreateMultipartUpload key)), set_s3 s σ, env)
      end
  end.

(** ** resumableDownload *)

Definition download_fileKey (key fileName : string) : string :=
  key +:+ "_" +:+ fileName.

(** The chunk table of a new download: chunk [i] is
    [{ start: i * CHUNK_SIZE, end: min(start + CHUNK_SIZE - 1, totalSize - 1) }]. *)
Definition chunk_at (totalSize i : Z) : Chunk :=
  let start := i * CHUNK_SIZE in
  {| c_start := start;
     c_end := Z.min (start + CHUNK_SIZE - 1) (totalSize - 1);
     c_downloaded := false |}.

Definition make_chunks (totalSize : Z) : list Chunk :=
  chunk_at totalSize <$> seqZ 0 (ceil_div totalSize CHUNK_SIZE).

Definition fresh_download (key fileName : string) (totalSize lastModified : Z)
  : DownloadProgress :=
  {| dp_totalSize := totalSize; dp_downloadedSize := 0;
     dp_chunks := make_chunks totalSize; dp_fileName := fileName; dp_key := key;
     dp_lastModified := lastModified |}.

Definition mark (c : Chunk) : Chunk :=
  {| c_start := c_start c; c_end := c_end c; c_downloaded := true |}.

(** [progress.chunks[index].downloaded = true;
     progress.downloadedSize += (chunkInfo.end - chunkInfo.start + 1)] *)
Definition mark_downloaded (index : nat) (chunkInfo : Chunk) (p : DownloadProgress)
  : DownloadProgress :=
  {| dp_totalSize := dp_totalSize p;
     dp_downloadedSize := dp_downloadedSize p + (c_end chunkInfo - c_start chunkInfo + 1);
     dp_chunks := alter mark index (dp_chunks p);
     dp_fileName := dp_fileName p; dp_key := dp_key p;
     dp_lastModified := dp_lastModified p |}.

Section download.
Variables (key fileKey : string).

(** The loop over [Object.entries(progress.chunks)]. *)
Fixpoint download_chunks (entries : list (nat * Chunk)) (progress : DownloadProgress)
    (downloadedChunks : gmap nat Blob) (env : Env) (σ : Service)
  : Result unit * DownloadProgress * gmap nat Blob * Service * Env :=
  match entries with
  | [] => (Returned tt, progress, downloadedChunks, σ, env)
  | (index, chunkInfo) :: entries' =>
      if c_downloaded chunkInfo
      then download_chunks entries' progress downloadedChunks env σ
      else
        let '(t, env) := next_tick env in
        let σ := run_actions (during t) σ in
        match s3_getObject key (c_start chunkInfo) (c_end chunkInfo) (net_ok t) (s3 σ) with
        | (Some body, s) =>
            let downloadedChunks := <[index := body]> downloadedChunks in
            let progress := mark_downloaded index chunkInfo progress in
            let σ := saveDownloadProgress fileKey progress (set_s3 s σ) in
            download_chunks entries' progress downloadedChunks env σ
        | (None, s) =>
            (Threw (S3Failure (GetObject key (c_start chunkInfo) (c_end chunkInfo))),
             progress, downloadedChunks, set_s3 s σ, env)
        end
  end.

(** The assembly loop [for (i = 0; i < Object.keys(progress.chunks).length; i++)],
    over [progress.chunks[i]] from index [i] on. *)
Fixpoint assemble (chunks : list Chunk) (i : nat) (downloadedChunks : gmap nat Blob)
    (allChunks : list Blob) (env : Env) (σ : Service)
  : Result (list Blob) * Service * Env :=
  match chunks with
  | [] => (Returned allChunks, σ, env)
  | chunkInfo :: chunks' =>
      match downloadedChunks !! i with
      | Some body =>
          assemble chunks' (S i) downloadedChunks (allChunks ++ [body]) env σ
      | None =>
          let '(t, env) := next_tick env in
          let σ := run_actions (during t) σ in
          match s3_getObject key (c_start chunkInfo) (c_end chunkInfo) (net_ok t) (s3 σ) with
          | (Some body, s) =>
              assemble chunks' (S i) downloadedChunks (allChunks ++ [body]) env (set_s3 s σ)
          | (None, s) =>
              (Threw (S3Failure (GetObject key (c_start chunkInfo) (c_end chunkInfo))),
               set_s3 s σ, env)
          end
      end
  end.
End download.

Definition resumableDownload (key fileName : string) (env : Env) (σ : Service)
  : Result Blob * Service * Env :=
  let σ := checkS3Configuration σ in
  if negb (svc_has_s3 σ) then (Threw NotConfigured, σ, env) else
  let fileKey := download_fileKey key fileName in
  let progress := loadDownloadProgress fileKey σ in
  let '(t, env) := next_tick env in
  let σ := run_actions (during t) σ in
  match s3_headObject key (net_ok t) (s3 σ) with
  | (None, s) => (Threw (S3Failure (HeadObject key)), set_s3 s σ, env)
  | (Some (totalSize, lastModified), s) =>
      let σ := set_s3 s σ in
      let '(progress, σ) :=
        match progress with
        | Some p =>
            if negb (bool_decide (dp_lastModified p = lastModified))
            then (None, clearDownloadProgress fileKey σ)
            else (Some p, σ)
        | None => (None, σ)
        end in
      let progress :=
        match progress with
        | Some p => p
        | None => fresh_download key fileName totalSize lastModified
        end in
      match download_chunks key fileKey (imap (λ i c, (i, c)) (dp_chunks progress))
              progress ∅ env σ with
      | (Returned _, progress, downloadedChunks, σ, env) =>
          match assemble key (dp_chunks progress) 0 downloadedChunks [] env σ with
          | (Returned allChunks, σ, env) =>
              (Returned (concat allChunks), clearDownloadProgress fileKey σ, env)
          | (Threw e, σ, env) => (Threw e, σ, env)
          | (Pending, σ, env) => (Pending, σ, env)
          end
      | (Threw e, _, _, σ, env) => (Threw e, σ, env)
      | (Pending, _, _, σ, env) => (Pending, σ, env)
      end
  end.

(** ** The upload queue ([UploadQueue.tsx])

    The state of the React component: the [queue] list, the [isProcessing]
    flag and [processingRef].  Handlers run atomically on the current state.
    An item's progress percentage and [addedAt] are display data and are left
    out.  [processQueue] is suspended while it awaits the transfer:
    [running] holds the item of the suspended call. *)

Inductive Status := Queued | Uploading | Paused | Completed | Errored | Resuming.

Global Instance Status_eq_dec : EqDecision Status.
Proof. solve_decision. Defined.

Record UploadQueueItem := {
  item_id : string;
  item_file : File;
  item_key : string;
  item_status : Status;
  item_error : option string;
  isResumable : bool;
}.

Record UploadQueue := {
  queue : list UploadQueueItem;
  isProcessing : bool;
  processingRef : bool;
  running : option UploadQueueItem;
  service : Service;
}.

Definition with_status (st : Status) (err : option string) (q : UploadQueueItem)
  : UploadQueueItem :=
  {| item_id := item_id q; item_file := item_file q; item_key := item_key q;
     item_status := st; item_error := err; isResumable := isResumable q |}.

(** [setQueue(prev => prev.map(q => q.id === id ? f q : q))] *)
Definition update_item (id : string) (f : UploadQueueItem → UploadQueueItem)
    (l : list UploadQueueItem) : list UploadQueueItem :=
  (λ q, if bool_decide (item_id q = id) then f q else q) <$> l.

Definition find_item (id : string) (l : list UploadQueueItem) : option UploadQueueItem :=
  find (λ q, bool_decide (item_id q = id)) l.

Definition set_queue (l : list UploadQueueItem) (u : UploadQueue) : UploadQueue :=
  {| queue := l; isProcessing := isProcessing u; processingRef := processingRef u;
     running := running u; service := service u |}.
Definition set_service (σ : Service) (u : UploadQueue) : UploadQueue :=
  {| queue := queue u; isProcessing := isProcessing u; processingRef := processingRef u;
     running := running u; service := σ |}.

(** [`${item.key}_${item.file.name}_${item.file.size}_${item.file.lastModified}`] *)
Definition item_fileKey (item : UploadQueueItem) : string :=
  upload_fileKey (item_key item) (item_file item).

(** [addFilesToQueue(files)]; the fresh ids are supplied with the files. *)
Definition addFilesToQueue (currentPath : string) (files : list (string * File))
    (u : UploadQueue) : UploadQueue :=
  let newItems :=
    omap (λ '(id, file),
      let key := currentPath +:+ file_name file in
      let existingInQueue :=
        find (λ q, bool_decide (item_key q = key)
                   && bool_decide (file_name (item_file q) = file_name file)
                   && bool_decide (file_size (item_file q) = file_size file)
                   && bool_decide (file_lastModified (item_file q) = file_lastModified file))
             (queue u) in
      match existingInQueue with
      | Some _ => None
      | None =>
          let existingProgress :=
            loadUploadProgress (upload_fileKey key file) (service u) in
          Some {| item_id := id; item_file := file; item_key := key;
                  item_status := match existingProgress with Some _ => Paused | None => Queued end;
                  item_error := None;
                  isResumable := bool_decide (RESUMABLE_THRESHOLD ≤ file_size file) |}
      end) files in
  match newItems with
  | [] => u
  | _ => set_queue (queue u ++ newItems) u
  end.

(** The stand-in [File] of a pending upload: [slice] yields an empty blob. *)
Definition placeholderFile (progress : ChunkProgress) : File :=
  {| file_name := cp_fileName progress; file_size := cp_totalSize progress;
     file_lastModified := cp_lastModified progress; file_type := "";
     file_content := [] |}.

(** One round of the [forEach] of [loadPendingUploads]. *)
Definition loadPending_step (inQueue : list UploadQueueItem)
    (acc : list UploadQueueItem * Service) (entry : string * ChunkProgress)
  : list UploadQueueItem * Service :=
  let '(queueItems, σ) := acc in
  let '(uploadKey, progress) := entry in
  let isAlreadyInQueue :=
    existsb (λ item, bool_decide (item_fileKey item = uploadKey)) inQueue in
  if isAlreadyInQueue then (queueItems, σ)
  else if percent_ge_99_9 (cp_uploadedSize progress) (cp_totalSize progress)
  then (queueItems, clearUploadFromStorage uploadKey σ)
  else if cp_totalSize progress <=? cp_uploadedSize progress
  then (queueItems, clearUploadFromStorage uploadKey σ)
  else
    (queueItems ++
       [{| item_id := "pending_" +:+ uploadKey; item_file := placeholderFile progress;
           item_key := uploadKey; item_status := Paused; item_error := None;
           isResumable := true |}],
     σ).

Definition loadPendingUploads (u : UploadQueue) : UploadQueue :=
  let pendingUploads := getPendingUploads (service u) in
  let '(queueItems, σ) :=
    foldl (loadPending_step (queue u)) ([], service u) (map_to_list pendingUploads) in
  match queueItems with
  | [] => set_service σ u
  | _ => set_queue queueItems (set_service σ u)
  end.

(** [processUploadItem] up to its first [await]: [None] when it returns
    at once, otherwise the queue with the item marked as uploading. *)
Definition processUploadItem_begin (item : UploadQueueItem) (u : UploadQueue)
  : option UploadQueue :=
  match find_item (item_id item) (queue u) with
  | None => None
  | Some currentItem =>
      if bool_decide (item_status currentItem = Completed)
         || bool_decide (item_status currentItem = Errored) then None
      else if isUploadActive (item_fileKey item) (service u) then None
      else Some (set_queue (update_item (item_id item) (with_status Uploading None) (queue u)) u)
  end.

(** [processQueue] up to the [await] of the transfer. *)
Definition processQueue (u : UploadQueue) : UploadQueue :=
  if processingRef u || isProcessing u then u else
  match filter (λ item, item_status item = Queued) (queue u) with
  | [] => u
  | nextItem :: _ =>
      match processUploadItem_begin nextItem u with
      | Some u' =>
          {| queue := queue u'; isProcessing := true; processingRef := true;
             running := Some nextItem; service := service u' |}
      | None => u
      end
  end.

(** The rest of [processQueue] once the transfer has settled: [None] when it
    succeeded, the message of the error it threw otherwise. *)
Definition processQueue_settled (outcome : option string) (u : UploadQueue)
  : UploadQueue :=
  match running u with
  | None => u
  | Some item =>
      let '(l, σ) :=
        match outcome with
        | None =>
            (update_item (item_id item) (λ q, with_status Completed (item_error q) q) (queue u),
             if isResumable item then clearUploadFromStorage (item_fileKey item) (service u)
             else service u)
        | Some message =>
            (if bool_decide (message = "Upload paused")
             then update_item (item_id item) (λ q, with_status Paused (item_error q) q) (queue u)
             else update_item (item_id item) (with_status Errored (Some message)) (queue u),
             service u)
        end in
      {| queue := l; isProcessing := false; processingRef := false;
         running := None; service := σ |}
  end.

(** The timer that drops a completed item after three seconds. *)
Definition removeCompletedItem (id : string) (u : UploadQueue) : UploadQueue :=
  set_queue (filter (λ q, item_id q ≠ id) (queue u)) u.

Definition queue_pauseUpload (id : string) (u : UploadQueue) : UploadQueue :=
  let σ :=
    match find_item id (queue u) with
    | Some item =>
        if isResumable item then pauseUpload (item_fileKey item) (service u)
        else service u
    | None => service u
    end in
  set_queue (update_item id (λ q, with_status Paused (item_error q) q) (queue u))
            (set_service σ u).

Definition queue_resumeUpload (id : string) (u : UploadQueue) : UploadQueue :=
  let item := find_item id (queue u) in
  let σ :=
    match item with
    | Some item =>
        if isResumable item then resumeUpload (item_fileKey item) (service u)
        else service u
    | None => service u
    end in
  let newStatus :=
    match item with
    | Some item => if isResumable item then Uploading else Queued
    | None => Queued
    end in
  set_queue (update_item id (λ q, with_status newStatus (item_error q) q) (queue u))
            (set_service σ u).

Definition retryUpload (id : string) (u : UploadQueue) : UploadQueue :=
  set_queue (update_item id (with_status Queued None) (queue u)) u.

Definition clearCompleted (u : UploadQueue) : UploadQueue :=
  set_queue (filter (λ q, item_status q ≠ Completed) (queue u)) u.

(** What the user and the timers do to the mounted component. *)
Inductive QueueEvent :=
  | EvAddFiles (currentPath : string) (files : list (string * File))
  | EvProcessQueue
  | EvSettled (outcome : option string)
  | EvRemoveCompleted (id : string)
  | EvPause (id : string)
  | EvResume (id : string)
  | EvRetry (id : string)
  | EvClearCompleted.

Definition queue_step (u : UploadQueue) (ev : QueueEvent) : UploadQueue :=
  match ev with
  | EvAddFiles currentPath files => addFilesToQueue currentPath files u
  | EvProcessQueue => processQueue u
  | EvSettled outcome => processQueue_settled outcome u
  | EvRemoveCompleted id => removeCompletedItem id u
  | EvPause id => queue_pauseUpload id u
  | EvResume id => queue_resumeUpload id u
  | EvRetry id => retryUpload id u
  | EvClearCompleted => clearCompleted u
  end.

(** The component as mounted on a service: the mount effect runs
    [clearCompletedUploads] and [loadPendingUploads]. *)
Definition mount (σ : Service) : UploadQueue :=
  loadPendingUploads
    {| queue := []; isProcessing := false; processingRef := false; running := None;
       service := clearCompletedUploads σ |}.

Definition uploading_count (u : UploadQueue) : nat :=
  length (filter (λ q, item_status q = Uploading) (queue u)).

End Service.

(** ** Vocabulary of the properties *)

(** The chunk ranges [chunks] tile [[pos, total)]: each starts where the
    previous one ended, none is empty. *)
Fixpoint tiles (pos total : Z) (chunks : list Chunk) : Prop :=
  match chunks with
  | [] => pos = total
  | c :: chunks' =>
      c_start c = pos ∧ c_start c ≤ c_end c ∧ c_end c < total ∧
      tiles (c_end c + 1) total chunks'
  end.

(** The sum of the range lengths of the completed chunks. *)
Fixpoint completed_bytes (chunks : list Chunk) : Z :=
  match chunks with
  | [] => 0
  | c :: chunks' =>
      (if c_downloaded c then c_end c - c_start c + 1 else 0) + completed_bytes chunks'
  end.

(** The invariant of a download record. *)
Definition download_invariant (p : DownloadProgress) : Prop :=
  tiles 0 (dp_totalSize p) (dp_chunks p) ∧
  dp_downloadedSize p = completed_bytes (dp_chunks p).

Definition chunk_range (c : Chunk) : Z * Z := (c_start c, c_end c).

(** The bytes a range request for the chunk [c] of [body] returns. *)
Definition chunk_bytes (body : Blob) (c : Chunk) : Blob :=
  blob_slice body (c_start c) (c_end c + 1).

(** Every buffer held in memory is the one of its chunk index. *)
Definition buffers_of (body : Blob) (chunks : list Chunk) (buffers : gmap nat Blob) : Prop :=
  ∀ i b, buffers !! i = Some b →
         ∃ c, chunks !! i = Some c ∧ b = chunk_bytes body c.

Definition all_ok (env : Env) : Prop := Forall (λ t, net_ok t = true) env.

(** The record [p] lists exactly the parts the store holds for its session. *)
Definition tracks (p : ChunkProgress) (s : S3) : Prop :=
  ∃ sess, s3_sessions s !! uploadId_of p = Some sess ∧
    ∀ pn, cp_parts p !! pn =
          (λ '(t, body), {| etag := t; part_size := blob_size body |}) <$> sess !! pn.

(** The part numbers of the part uploads in a request log. *)
Definition part_requests (log : list (S3Request * bool)) : list Z :=
  omap (λ e, match e.1 with UploadPart _ pn _ _ => Some pn | _ => None end) log.

(** The requests a call issued: the log of [s'] after the log of [s]. *)
Definition requests_since (s s' : S3) : list (S3Request * bool) :=
  drop (length (s3_log s)) (s3_log s').

Definition is_part_or_completion (rq : S3Request) : Prop :=
  match rq with
  | UploadPart _ _ _ _ | CompleteMultipartUpload _ _ _ => True
  | _ => False
  end.

(** The character [c] does not occur in [s]. *)
Fixpoint free_of (c : ascii) (s : string) : Prop :=
  match s with
  | EmptyString => True
  | String c' s' => c' ≠ c ∧ free_of c s'
  end.

(** Every request of the log was acknowledged. *)
Definition acknowledged (log : list (S3Request * bool)) : Prop :=
  Forall (λ e, e.2 = true) log.

(** The requests [new] of a call that ended with [r]: when the call threw
    the failure of a request, that request is the last one and the only one
    that was not acknowledged; otherwise every request was acknowledged. *)
Definition failure_is_last (r : Result unit) (new : list (S3Request * bool)) : Prop :=
  match r with
  | Threw (S3Failure rq) => ∃ acked, new = acked ++ [(rq, false)] ∧ acknowledged acked
  | _ => acknowledged new
  end.

(** The bytes of part [partNumber] of [file]. *)
Definition part_bytes (file : File) (partNumber : Z) : Blob :=
  let start := (partNumber - 1) * CHUNK_SIZE in
  file_slice file start (Z.min (start + CHUNK_SIZE) (file_size file)).

(** The record [p] and its session hold exactly the parts [1 .. b-1], each
    with the bytes of [file]. *)
Definition parts_below (etag_of : Blob → ETag) (file : File) (b : Z)
    (p : ChunkProgress) (s : S3) : Prop :=
  ∃ sess, s3_sessions s !! uploadId_of p = Some sess ∧
    ∀ q, sess !! q =
           (if decide (1 ≤ q < b)
            then Some (etag_of (part_bytes file q), part_bytes file q) else None) ∧
         cp_parts p !! q =
           (if decide (1 ≤ q < b)
            then Some {| etag := etag_of (part_bytes file q);
                         part_size := blob_size (part_bytes file q) |}
            else None).

(** The controller [h] is neither paused nor aborted. *)
Definition idle (h : nat) (σ : Service) : Prop :=
  ctl_paused h σ = false ∧ ctl_aborted h σ = false.

(** The acknowledged uploads of the parts [b .. b+len-1]. *)
Definition part_uploads (etag_of : Blob → ETag) (file : File) (key : string)
    (id : UploadId) (b len : Z) : list (S3Request * bool) :=
  (λ q, (UploadPart key q id (part_bytes file q), true)) <$> seqZ b len.

(** The awaited request fails; nothing else happens. *)
Definition failing : Tick := {| during := []; net_ok := false |}.

Definition object_body (key : string) (s : S3) : option Blob :=
  obj_body <$> s3_objects s !! key.

(** ** Sample inputs *)

Definition sample_etag (body : Blob) : ETag := pretty (blob_size body).

(** [(uploaded / total) * 100 >= 99.9] on exact quotients. *)
Definition sample_percent (uploaded total : Z) : bool :=
  (0 <? total) && (999 * total <=? 1000 * uploaded).

Definition empty_s3 : S3 :=
  {| s3_objects := ∅; s3_sessions := ∅; s3_next_upload := 1%N; s3_now := 0;
     s3_log := [] |}.

Definition fresh_service : Service :=
  {| s3Service_configured := true; svc_has_s3 := false; activeUploads := ∅;
     controllers := ∅; next_controller := 0; uploads := ∅; downloads := ∅;
     s3 := empty_s3 |}.

(** A 12 MiB file of zero bytes, and a later version of it. *)
Definition sample_file : File :=
  {| file_name := "video.bin"; file_size := 12582912;
     file_lastModified := 1700000000000; file_type := "";
     file_content := replicate (Z.to_nat 12582912) x00 |}.

Definition sample_file_touched : File :=
  {| file_name := "video.bin"; file_size := 12582912;
     file_lastModified := 1700000360000; file_type := "";
     file_content := replicate (Z.to_nat 12582912) x01 |}.

Definition small_file : File :=
  {| file_name := "notes.txt"; file_size := 3; file_lastModified := 1700000000000;
     file_type := "text/plain"; file_content := [x61; x62; x63] |}.

Definition sample_key : string := "docs/video.bin".

Definition sample_fileKey : string := "docs/video.bin_video.bin_12582912_1700000000000".

(** The record an upload of [sample_file] leaves behind after its first part. *)
Definition sample_progress : ChunkProgress :=
  {| cp_uploadId := Some 1%N;
     cp_parts := {[ 1 := {| etag := "5242880"; part_size := 5242880 |} ]};
     cp_totalSize := 12582912; cp_uploadedSize := 5242880;
     cp_fileName := "video.bin"; cp_key := sample_key;
     cp_lastModified := 1700000000000 |}.

(** A record whose upload has all its bytes but was never cleared. *)
Definition complete_progress : ChunkProgress :=
  {| cp_uploadId := Some 1%N;
     cp_parts := ∅;
     cp_totalSize := 12582912; cp_uploadedSize := 12582912;
     cp_fileName := "video.bin"; cp_key := sample_key;
     cp_lastModified := 1700000000000 |}.

Definition interrupted_service : Service :=
  {| s3Service_configured := true; svc_has_s3 := true; activeUploads := ∅;
     controllers := ∅; next_controller := 0;
     uploads := {[ sample_fileKey := sample_progress ]}; downloads := ∅;
     s3 := {| s3_objects := ∅;
              s3_sessions := {[ 1%N := {[ 1 := ("5242880", replicate (Z.to_nat 5242880) x00) ]} ]};
              s3_next_upload := 2%N; s3_now := 0; s3_log := [] |} |}.

Definition stale_service : Service :=
  {| s3Service_configured := true; svc_has_s3 := true; activeUploads := ∅;
     controllers := ∅; next_controller := 0;
     uploads := {[ sample_fileKey := complete_progress ]}; downloads := ∅;
     s3 := empty_s3 |}.

Definition sample_object : S3Object :=
  {| obj_body := replicate (Z.to_nat 12582912) x00; obj_lastModified := 1700000000000 |}.

(** The record a download of [sample_object] leaves behind after its first
    chunk. *)
Definition sample_download : DownloadProgress :=
  {| dp_totalSize := 12582912; dp_downloadedSize := 5242880;
     dp_chunks :=
       [ {| c_start := 0; c_end := 5242879; c_downloaded := true |};
         {| c_start := 5242880; c_end := 10485759; c_downloaded := false |};
         {| c_start := 10485760; c_end := 12582911; c_downloaded := false |} ];
     dp_fileName := "video.bin"; dp_key := sample_key;
     dp_lastModified := 1700000000000 |}.

Definition download_service : Service :=
  {| s3Service_configured := true; svc_has_s3 := true; activeUploads := ∅;
     controllers := ∅; next_controller := 0; uploads := ∅;
     downloads := {[ "docs/video.bin_video.bin" := sample_download ]};
     s3 := {| s3_objects := {[ sample_key := sample_object ]}; s3_sessions := ∅;
              s3_next_upload := 1%N; s3_now := 0; s3_log := [] |} |}.

Definition empty_queue (σ : Service) : UploadQueue :=
  {| queue := []; isProcessing := false; processingRef := false; running := None;
     service := σ |}.

(** ** The rest of the service ([resumableService.ts]) *)

(** [clearAllUploadProgress] and [clearAllUploads]: the stored keys with the
    upload prefix are collected first, then removed one by one. *)
Definition clearAllUploadProgress (σ : Service) : Service :=
  let keysToRemove := (map_to_list (uploads σ)).*1 in
  foldl (λ σ' key, set_uploads (delete key (uploads σ')) σ') σ keysToRemove.

Definition clearAllUploads (σ : Service) : Service :=
  let keysToRemove := (map_to_list (uploads σ)).*1 in
  foldl (λ σ' key, set_uploads (delete key (uploads σ')) σ') σ keysToRemove.

(** [abortMultipartUpload] of the store: the session and its parts are
    discarded.  The request log is the one of the transfers; this request is
    not entered in it. *)
Definition s3_abortMultipartUpload (uploadId : UploadId) (net : bool) (s : S3)
  : bool * S3 :=
  match (if net then s3_sessions s !! uploadId else None) with
  | Some _ =>
      (true,
       {| s3_objects := s3_objects s; s3_sessions := delete uploadId (s3_sessions s);
          s3_next_upload := s3_next_upload s; s3_now := s3_now s;
          s3_log := s3_log s |})
  | None => (false, s)
  end.

(** The truth value of an optional number argument: [undefined] and [0]
    are falsy. *)
Definition truthy (n : option Z) : bool :=
  match n with
  | Some z => negb (z =? 0)
  | None => false
  end.

(** The key [abortUpload] looks the progress up under. *)
Definition abort_fileKey (key fileName : string) (fileSize lastModified : option Z)
  : string :=
  if truthy fileSize && truthy lastModified
  then key +:+ "_" +:+ fileName +:+ "_" +:+ pretty (default 0 fileSize)
           +:+ "_" +:+ pretty (default 0 lastModified)
  else key +:+ "_" +:+ fileName.

(** [abortUpload]: the failure of the abort request is caught and logged;
    the stored progress is removed in either case. *)
Definition abortUpload (key fileName : string) (fileSize lastModified : option Z)
    (env : Env) (σ : Service) : Result unit * Service * Env :=
  let σ := checkS3Configuration σ in
  if negb (svc_has_s3 σ) then (Threw NotConfigured, σ, env) else
  let fileKey := abort_fileKey key fileName fileSize lastModified in
  let progress := loadUploadProgress fileKey σ in
  let '(σ, env) :=
    match progress ≫= cp_uploadId with
    | Some uploadId =>
        let '(t, env) := next_tick env in
        let σ := run_actions (during t) σ in
        (set_s3 (s3_abortMultipartUpload uploadId (net_ok t) (s3 σ)).2 σ, env)
    | None => (σ, env)
    end in
  (Returned tt, clearUploadProgress fileKey σ, env).

(** ** The rest of the upload queue ([UploadQueue.tsx]) *)

(** The [alternativeKeys.forEach(key => localStorage.removeItem(...))] of
    [removeFromQueue] and [clearAll]. *)
Definition removeAlternativeKeys (item : UploadQueueItem) (σ : Service) : Service :=
  let alternativeKeys :=
    [item_fileKey item;
     item_key item +:+ "_" +:+ file_name (item_file item);
     item_key item] in
  foldl (λ σ' key, set_uploads (delete key (uploads σ')) σ') σ alternativeKeys.

(** [abortUpload(item.key, item.file.name, item.file.size, item.file.lastModified)]
    inside a [try]: what it throws is caught. *)
Definition abortUpload_of (item : UploadQueueItem) (env : Env) (σ : Service)
  : Service * Env :=
  let '(_, σ, env) :=
    abortUpload (item_key item) (file_name (item_file item))
      (Some (file_size (item_file item))) (Some (file_lastModified (item_file item)))
      env σ in
  (σ, env).

Definition removeFromQueue (id : string) (env : Env) (u : UploadQueue)
  : UploadQueue * Env :=
  let '(σ, env) :=
    match find_item id (queue u) with
    | Some item =>
        let fileKey := item_fileKey item in
        let '(σ, env) :=
          if isResumable item then
            let σ := cancelUpload fileKey (service u) in
            if bool_decide (item_status item = Uploading)
            then abortUpload_of item env σ
            else (σ, env)
          else (service u, env) in
        (removeAlternativeKeys item σ, env)
    | None => (service u, env)
    end in
  (set_queue (filter (λ q, item_id q ≠ id) (queue u)) (set_service σ u), env).

(** [clearAll]: the loop over the items of the queue, then [setQueue([])]. *)
Definition clearAll_step (acc : Service * Env) (item : UploadQueueItem) : Service * Env :=
  let '(σ, env) := acc in
  if isResumable item && negb (bool_decide (item_status item = Completed)) then
    let σ := cancelUpload (item_fileKey item) σ in
    let '(r, σ, env) :=
      abortUpload (item_key item) (file_name (item_file item))
        (Some (file_size (item_file item))) (Some (file_lastModified (item_file item)))
        env σ in
    match r with
    | Returned _ => (removeAlternativeKeys item σ, env)
    | _ => (σ, env)
    end
  else (σ, env).

Definition clearAll (env : Env) (u : UploadQueue) : UploadQueue * Env :=
  let '(σ, env) := foldl clearAll_step (service u, env) (queue u) in
  (set_queue [] (set_service σ u), env).

Record QueueStats := {
  total : nat; completed : nat; uploading : nat; queued : nat; paused : nat;
  errors : nat;
}.

Definition count_status (st : Status) (l : list UploadQueueItem) : nat :=
  length (filter (λ q, item_status q = st) l).

Definition getQueueStats (u : UploadQueue) : QueueStats :=
  {| total := length (queue u);
     completed := count_status Completed (queue u);
     uploading := count_status Uploading (queue u);
     queued := count_status Queued (queue u);
     paused := count_status Paused (queue u);
     errors := count_status Errored (queue u) |}.

(** ** The upload panel ([FileUpload], in [UploadQueue.tsx]) *)

(** The [isResumable] flag [handleFiles] gives a file:
    [existingProgress ? true : file.size > 10 * 1024 * 1024]. *)
Definition fileUpload_isResumable (existingProgress : option ChunkProgress)
    (file : File) : bool :=
  match existingProgress with
  | Some _ => true
  | None => 10 * 1024 * 1024 <? file_size file
  end.

(** [FileUpload.cancelUpload] up to its state updates: for a resumable file
    [abortUpload(key, fileName)] is awaited inside a [try]. *)
Definition fileUpload_cancelUpload (currentPath fileName : string) (resumable : bool)
    (env : Env) (σ : Service) : Service * Env :=
  if resumable then
    let key := currentPath +:+ fileName in
    let '(_, σ, env) := abortUpload key fileName None None env σ in
    (σ, env)
  else (σ, env).

(** ** The download manager ([ResumableDownloadManager.tsx])

    The state of the component: the pending downloads it lists, the keys of
    the active ones. *)
Record DownloadManager := {
  pendingDownloads : gmap string DownloadProgress;
  activeDownloads : gset string;
  dm_service : Service;
}.

(** The mount effect: [setPendingDownloads(resumableService.getPendingDownloads())]. *)
Definition dm_mount (σ : Service) : DownloadManager :=
  {| pendingDownloads := getPendingDownloads σ; activeDownloads := ∅; dm_service := σ |}.

Definition cancelDownload (key : string) (d : DownloadManager) : DownloadManager :=
  let σ :=
    match pendingDownloads d !! key with
    | Some download =>
        set_downloads
          (delete (dp_key download +:+ "_" +:+ dp_fileName download)
                  (downloads (dm_service d)))
          (dm_service d)
    | None => dm_service d
    end in
  {| pendingDownloads := delete key (pendingDownloads d);
     activeDownloads := activeDownloads d; dm_service := σ |}.

(** ** More sample inputs *)

(** A record of an earlier version of [sample_object]. *)
Definition stale_download : DownloadProgress :=
  {| dp_totalSize := 7340032; dp_downloadedSize := 5242880;
     dp_chunks :=
       [ {| c_start := 0; c_end := 5242879; c_downloaded := true |};
         {| c_start := 5242880; c_end := 7340031; c_downloaded := false |} ];
     dp_fileName := "video.bin"; dp_key := sample_key;
     dp_lastModified := 1690000000000 |}.

Definition stale_download_service : Service :=
  {| s3Service_configured := true; svc_has_s3 := true; activeUploads := ∅;
     controllers := ∅; next_controller := 0; uploads := ∅;
     downloads := {[ "docs/video.bin_video.bin" := stale_download ]};
     s3 := {| s3_objects := {[ sample_key := sample_object ]}; s3_sessions := ∅;
              s3_next_upload := 1%N; s3_now := 0; s3_log := [] |} |}.

(** The queue while the upload of the record [sample_progress] is running:
    the item holds the stand-in file the queue builds for a stored record. *)
Definition uploading_item : UploadQueueItem :=
  {| item_id := "a"; item_file := placeholderFile sample_progress;
     item_key := sample_key; item_status := Uploading; item_error := None;
     isResumable := true |}.

Definition uploading_queue : UploadQueue :=
  {| queue := [uploading_item]; isProcessing := true; processingRef := true;
     running := Some uploading_item; service := interrupted_service |}.

(** The errors the transfer loops raise themselves. *)
Definition loop_error (e : Error) : Prop :=
  match e with
  | Cancelled | S3Failure _ => True
  | NotConfigured | TooSmall => False
  end.

(** The page calls [cancelUpload] / [pauseUpload] / [resumeUpload] for
    [fileKey] while the awaited request is under way; the request succeeds. *)
Definition cancelling (fileKey : string) : Tick :=
  {| during := [UiCancel fileKey]; net_ok := true |}.
Definition pausing (fileKey : string) : Tick :=
  {| during := [UiPause fileKey]; net_ok := true |}.
Definition resuming (fileKey : string) : Tick :=
  {| during := [UiResume fileKey]; net_ok := true |}.

(** The byte ranges of the range requests in a request log. *)
Definition range_requests (log : list (S3Request * bool)) : list (Z * Z) :=
  omap (λ e, match e.1 with GetObject _ first last => Some (first, last) | _ => None end)
       log.

(** The acknowledged range request for the chunk [c]. *)
Definition chunk_request (key : string) (c : Chunk) : S3Request * bool :=
  (GetObject key (c_start c) (c_end c), true).

(** The chunks from index [i] on for which no buffer is held. *)
Fixpoint unbuffered (buffers : gmap nat Blob) (i : nat) (chunks : list Chunk)
  : list Chunk :=
  match chunks with
  | [] => []
  | c :: chunks' =>
      match buffers !! i with
      | Some _ => unbuffered buffers (S i) chunks'
      | None => c :: unbuffered buffers (S i) chunks'
      end
  end.

(** The string [s] is a non-empty sequence of decimal digits. *)
Definition numeral (s : string) : Prop :=
  s ≠ "" ∧ Forall (λ c, is_digit c = true) (list_ascii_of_string s).

(** The files of the items have the sizes and time stamps the File API
    gives: none is negative. *)
Definition plain_item (item : UploadQueueItem) : Prop :=
  0 ≤ file_size (item_file item) ∧ 0 ≤ file_lastModified (item_file item).

(** The items with the id [id] are resumable and shown as paused or as
    uploading, and none of them is the item being processed. *)
Definition parked (id : string) (u : UploadQueue) : Prop :=
  (∀ q, q ∈ queue u → item_id q = id →
        isResumable q = true ∧ (item_status q = Paused ∨ item_status q = Uploading)) ∧
  (∀ item, running u = Some item → item_id item ≠ id).

(** The event retries the items with the id [id], or adds one. *)
Definition requeues (id : string) (ev : QueueEvent) : Prop :=
  match ev with
  | EvRetry id' => id' = id
  | EvAddFiles _ files => id ∈ files.*1
  | _ => False
  end.

(** Every download record lies under the key made of its own [key] and
    [fileName] fields. *)
Definition keyed (σ : Service) : Prop :=
  ∀ k p, downloads σ !! k = Some p → k = download_fileKey (dp_key p) (dp_fileName p).

(** The item [loadPendingUploads] pushes for a stored record. *)
Definition pending_item (uploadKey : string) (progress : ChunkProgress) : UploadQueueItem :=
  {| item_id := "pending_" +:+ uploadKey; item_file := placeholderFile progress;
     item_key := uploadKey; item_status := Paused; item_error := None;
     isResumable := true |}.

(** No item is shown as resuming. *)
Definition none_resuming (u : UploadQueue) : Prop :=
  Forall (λ q, item_status q ≠ Resuming) (queue u).

(** ** Basic facts *)

Section Facts.
Variable etag_of : Blob → ETag.
Variable percent_ge_99_9 : Z → Z → bool.

Lemma RESUMABLE_THRESHOLD_val : RESUMABLE_THRESHOLD = 10485760.
Proof. reflexivity. Qed.

Lemma CHUNK_SIZE_val : CHUNK_SIZE = 5242880.
Proof. reflexivity. Qed.

(** *** The control calls touch neither the object store nor the client flag *)

Lemma s3_pauseUpload k σ : s3 (pauseUpload k σ) = s3 σ.
Proof. unfold pauseUpload. by destruct (activeUploads σ !! k). Qed.

Lemma s3_resumeUpload k σ : s3 (resumeUpload k σ) = s3 σ.
Proof. unfold resumeUpload. by destruct (activeUploads σ !! k). Qed.

Lemma s3_cancelUpload k σ : s3 (cancelUpload k σ) = s3 σ.
Proof. unfold cancelUpload, abort. by destruct (activeUploads σ !! k). Qed.

Lemma s3_run_action a σ : s3 (run_action a σ) = s3 σ.
Proof.
  destruct a; simpl;
    [apply s3_pauseUpload | apply s3_resumeUpload | apply s3_cancelUpload].
Qed.

Lemma s3_run_actions acts σ : s3 (run_actions acts σ) = s3 σ.
Proof.
  revert σ. induction acts as [|a acts IH]; intros σ; [done|].
  unfold run_actions in *. simpl. rewrite IH. apply s3_run_action.
Qed.

End Facts.

(** ** Pause, resume and cancel without an active upload *)

Lemma uploads_clearUploadProgress k k' σ :
  uploads (clearUploadProgress k σ) !! k' =
  if decide (k = k') then None else uploads σ !! k'.
Proof. unfold clearUploadProgress. simpl. apply lookup_delete. Qed.

Lemma clearUploadProgress_same k σ : uploads (clearUploadProgress k σ) !! k = None.
Proof. rewrite uploads_clearUploadProgress. by case_decide. Qed.

Lemma cancelUpload_uploads fileKey σ :
  uploads (cancelUpload fileKey σ) =
  delete (strip_two_num_suffixes fileKey)
    (delete (strip_num_suffix fileKey) (delete fileKey (uploads σ))).
Proof.
  unfold cancelUpload, abort. simpl.
  destruct (activeUploads σ !! fileKey); simpl; by rewrite delete_delete_eq.
Qed.

Lemma string_app_assoc (a b c : string) : (a +:+ b) +:+ c = a +:+ b +:+ c.
Proof.
  induction a as [|x a IH]; [done|].
  change (String x ((a +:+ b) +:+ c) = String x (a +:+ b +:+ c)). by rewrite IH.
Qed.

Lemma list_ascii_app (a b : string) :
  list_ascii_of_string (a +:+ b) = list_ascii_of_string a ++ list_ascii_of_string b.
Proof.
  induction a as [|x a IH]; [done|].
  change (x :: list_ascii_of_string (a +:+ b)
          = x :: (list_ascii_of_string a ++ list_ascii_of_string b)).
  by rewrite IH.
Qed.

Lemma span_digits_app (ds rest : list ascii) :
  Forall (λ c, is_digit c = true) ds →
  span_digits (ds ++ "_"%char :: rest) = (ds, "_"%char :: rest).
Proof.
  induction ds as [|d ds IH]; intros Hds; [done|].
  apply Forall_cons in Hds as [Hd Hds]. simpl. rewrite Hd. by rewrite IH.
Qed.

Lemma match_num_suffix_app (s d : string) :
  numeral d → match_num_suffix (s +:+ "_" +:+ d) = Some s.
Proof.
  intros [Hne Hd]. unfold match_num_suffix.
  rewrite !list_ascii_app, !rev_app_distr. simpl. rewrite <-app_assoc. simpl.
  rewrite span_digits_app by by apply Forall_rev.
  destruct (rev (list_ascii_of_string d)) as [|c l] eqn:Hrev.
  - exfalso. apply Hne. apply (f_equal (@rev ascii)) in Hrev.
    rewrite rev_involutive in Hrev. simpl in Hrev.
    rewrite <-(string_of_list_ascii_of_string d), Hrev. done.
  - simpl. by rewrite rev_involutive, string_of_list_ascii_of_string.
Qed.

Lemma span_digits_spec (r : list ascii) :
  ∀ ds rest, span_digits r = (ds, rest) →
    r = ds ++ rest ∧ Forall (λ c, is_digit c = true) ds.
Proof.
  induction r as [|c r IH]; intros ds rest; simpl.
  { intros [= <- <-]. by split. }
  destruct (is_digit c) eqn:Hc.
  - destruct (span_digits r) as [ds' rest'] eqn:Hr. intros [= <- <-].
    destruct (IH ds' rest' eq_refl) as [-> Hds]. split; [done|]. by constructor.
  - intros [= <- <-]. by split.
Qed.

(** A match of [/_\d+$/] takes the string apart into the prefix, the
    underscore and a numeral. *)
Lemma match_num_suffix_Some (k s : string) :
  match_num_suffix k = Some s → ∃ d, numeral d ∧ k = s +:+ "_" +:+ d.
Proof.
  unfold match_num_suffix.
  destruct (span_digits (rev (list_ascii_of_string k))) as [ds rest] eqn:Hspan.
  apply span_digits_spec in Hspan as [Hrev Hds].
  destruct ds as [|d0 ds]; [done|]. destruct rest as [|c rest]; [done|].
  destruct (Ascii.eqb c "_") eqn:Hc; [|done]. apply Ascii.eqb_eq in Hc as ->.
  intros [= <-].
  exists (string_of_list_ascii (rev (d0 :: ds))). split; [split|].
  - intros Hnil. apply (f_equal list_ascii_of_string) in Hnil.
    rewrite list_ascii_of_string_of_list_ascii in Hnil. simpl in Hnil.
    by destruct (rev ds).
  - rewrite list_ascii_of_string_of_list_ascii. by apply Forall_rev.
  - apply (f_equal (@rev ascii)) in Hrev. rewrite rev_involutive in Hrev.
    rewrite <-(string_of_list_ascii_of_string k), Hrev.
    rewrite rev_app_distr. simpl rev at 1. rewrite <-!app_assoc. simpl.
    rewrite <-(list_ascii_of_string_of_list_ascii (rev rest)) at 1.
    rewrite <-(list_ascii_of_string_of_list_ascii (rev (d0 :: ds))) at 1.
    change ("_"%char :: list_ascii_of_string ?x) with (list_ascii_of_string ("_" +:+ x)).
    by rewrite <-list_ascii_app, string_of_list_ascii_of_string.
Qed.

Lemma strip_num_suffix_app (s d : string) :
  numeral d → strip_num_suffix (s +:+ "_" +:+ d) = s.
Proof. intros Hd. unfold strip_num_suffix. by rewrite match_num_suffix_app. Qed.

Lemma strip_two_num_suffixes_app (s d1 d2 : string) :
  numeral d1 → numeral d2 →
  strip_two_num_suffixes (s +:+ "_" +:+ d1 +:+ "_" +:+ d2) = s.
Proof.
  intros Hd1 Hd2. unfold strip_two_num_suffixes.
  rewrite <-(string_app_assoc "_" d1), <-(string_app_assoc s).
  rewrite match_num_suffix_app by done. simpl.
  by rewrite match_num_suffix_app.
Qed.

Lemma strip_num_suffix_cases (k : string) :
  strip_num_suffix k = k ∨ ∃ d, numeral d ∧ k = strip_num_suffix k +:+ "_" +:+ d.
Proof.
  unfold strip_num_suffix. destruct (match_num_suffix k) as [s|] eqn:Hm; [|by left].
  right. simpl. by apply match_num_suffix_Some.
Qed.

Lemma strip_two_num_suffixes_cases (k : string) :
  strip_two_num_suffixes k = k ∨
  ∃ d1 d2, numeral d1 ∧ numeral d2 ∧
           k = strip_two_num_suffixes k +:+ "_" +:+ d1 +:+ "_" +:+ d2.
Proof.
  unfold strip_two_num_suffixes.
  destruct (match_num_suffix k) as [s1|] eqn:Hm1; [|by left]. simpl.
  destruct (match_num_suffix s1) as [s0|] eqn:Hm0; [|by left]. simpl. right.
  apply match_num_suffix_Some in Hm1 as (d2 & Hd2 & ->).
  apply match_num_suffix_Some in Hm0 as (d1 & Hd1 & ->).
  exists d1, d2. split; [done|]. split; [done|].
  by rewrite !string_app_assoc.
Qed.

(** C10: without an active upload handle for the key, [pauseUpload] and
    [resumeUpload] leave the whole service state (handles and persisted
    records) as it is.  [cancelUpload] removes the persisted upload record
    of the key and of its two suffix-stripped variants whether or not an
    upload is active, and touches no other record.  The variants are what
    the two regular expressions leave: of a key that ends in an underscore
    and a numeral, the key without them; of a key that ends in two such
    groups, the key without both; a record under any other key stays. *)
Theorem control_calls_without_active_upload (σ : Service) (fileKey : string) :
  (activeUploads σ !! fileKey = None →
     pauseUpload fileKey σ = σ ∧ resumeUpload fileKey σ = σ) ∧
  uploads (cancelUpload fileKey σ) !! fileKey = None ∧
  uploads (cancelUpload fileKey σ) !! strip_num_suffix fileKey = None ∧
  uploads (cancelUpload fileKey σ) !! strip_two_num_suffixes fileKey = None ∧
  (∀ k, k ≠ fileKey → k ≠ strip_num_suffix fileKey →
        k ≠ strip_two_num_suffixes fileKey →
        uploads (cancelUpload fileKey σ) !! k = uploads σ !! k) ∧
  (∀ s d, numeral d → fileKey = s +:+ "_" +:+ d →
          strip_num_suffix fileKey = s ∧
          uploads (cancelUpload fileKey σ) !! s = None) ∧
  (∀ s d1 d2, numeral d1 → numeral d2 →
              fileKey = s +:+ "_" +:+ d1 +:+ "_" +:+ d2 →
              strip_two_num_suffixes fileKey = s ∧
              uploads (cancelUpload fileKey σ) !! s = None) ∧
  (∀ k, k ≠ fileKey →
        (∀ d, numeral d → fileKey ≠ k +:+ "_" +:+ d) →
        (∀ d1 d2, numeral d1 → numeral d2 →
                  fileKey ≠ k +:+ "_" +:+ d1 +:+ "_" +:+ d2) →
        uploads (cancelUpload fileKey σ) !! k = uploads σ !! k).
Proof.
  split.
  { intros Hnone. unfold pauseUpload, resumeUpload. by rewrite Hnone. }
  rewrite cancelUpload_uploads.
  assert (H0 : delete (strip_two_num_suffixes fileKey)
                 (delete (strip_num_suffix fileKey) (delete fileKey (uploads σ)))
               !! fileKey = None).
  { rewrite !lookup_delete. repeat case_decide; done. }
  assert (H1 : delete (strip_two_num_suffixes fileKey)
                 (delete (strip_num_suffix fileKey) (delete fileKey (uploads σ)))
               !! strip_num_suffix fileKey = None).
  { rewrite !lookup_delete. repeat case_decide; done. }
  assert (H2 : delete (strip_two_num_suffixes fileKey)
                 (delete (strip_num_suffix fileKey) (delete fileKey (uploads σ)))
               !! strip_two_num_suffixes fileKey = None).
  { rewrite lookup_delete. by case_decide. }
  do 4 (split; [first [done | by intros k ???; rewrite !lookup_delete_ne]|]).
  split; [|split].
  - intros s d Hd ->. rewrite strip_num_suffix_app in H1 |- * by done. done.
  - intros s d1 d2 Hd1 Hd2 ->.
    rewrite strip_two_num_suffixes_app in H2 |- * by done. done.
  - intros k Hk Hone Htwo. rewrite !lookup_delete_ne; [done..| |].
    + destruct (strip_num_suffix_cases fileKey) as [->|(d & Hd & Heq)]; [done|].
      intros <-. by apply (Hone d).
    + destruct (strip_two_num_suffixes_cases fileKey)
        as [->|(d1 & d2 & Hd1 & Hd2 & Heq)]; [done|].
      intros <-. by apply (Htwo d1 d2).
Qed.

(** ** The size threshold *)

Section Threshold.
Variable etag_of : Blob → ETag.

Lemma upload_parts_not_TooSmall file key fileKey h todo :
  ∀ pn progress env σ,
    (upload_parts etag_of file key fileKey h todo pn progress env σ).1.1.1 ≠ Threw TooSmall.
Proof.
  induction todo as [|todo IH]; intros pn progress env σ; simpl; [done|].
  destruct (ctl_aborted h σ); [done|].
  destruct (wait_if_paused _ _ _ _ _) as [[σ' env']|[[r σ'] env']] eqn:Hwait.
  - destruct (cp_parts progress !! pn); [apply IH|].
    destruct (next_tick env') as [t env''].
    destruct (s3_uploadPart _ _ _ _ _ _ _) as [[tag|] s]; [apply IH|done].
  - simpl. unfold wait_if_paused in Hwait.
    destruct (ctl_paused h σ); [|done].
    destruct (pause_wait _ _ _) as [σ1 [env1|]]; [|by injection Hwait as <- _ _].
    destruct (ctl_aborted h σ1); [|done]. by injection Hwait as <- _ _.
Qed.

Lemma upload_try_catch_not_TooSmall file key fileKey h progress env σ :
  (upload_try_catch etag_of file key fileKey h progress env σ).1.1 ≠ Threw TooSmall.
Proof.
  unfold upload_try_catch, upload_try.
  pose proof (upload_parts_not_TooSmall file key fileKey h
                (Z.to_nat (ceil_div (file_size file) CHUNK_SIZE)) 1 progress env σ) as Hp.
  destruct (upload_parts _ _ _ _ _ _ _ _ _ _) as [[[r p] σ'] env'].
  simpl in Hp. destruct r as [[]|e|]; simpl; try done.
  destruct (next_tick env') as [t env''].
  destruct (s3_completeMultipartUpload _ _ _ _ _) as [[] s]; done.
Qed.

(** C6: [resumableUpload] rejects every file below 10 MiB - with the "too
    small" error once the client is configured - and never raises that error
    for a file of 10 MiB or more; one byte below the threshold is rejected,
    the threshold itself is accepted. *)
Theorem resumable_threshold_boundary (file : File) (key : string) (env : Env)
    (σ : Service) :
  s3Service_configured σ = true →
  RESUMABLE_THRESHOLD = 10 * 1024 * 1024 ∧
  (file_size file < RESUMABLE_THRESHOLD →
     resumableUpload etag_of file key env σ
     = (Threw TooSmall, checkS3Configuration σ, env)) ∧
  (RESUMABLE_THRESHOLD ≤ file_size file →
     (resumableUpload etag_of file key env σ).1.1 ≠ Threw TooSmall) ∧
  (file_size file = RESUMABLE_THRESHOLD - 1 →
     (resumableUpload etag_of file key env σ).1.1 = Threw TooSmall) ∧
  (file_size file = RESUMABLE_THRESHOLD →
     (resumableUpload etag_of file key env σ).1.1 ≠ Threw TooSmall).
Proof.
  intros Hcfg.
  assert (Hsmall : file_size file < RESUMABLE_THRESHOLD →
     resumableUpload etag_of file key env σ
     = (Threw TooSmall, checkS3Configuration σ, env)).
  { intros Hlt. unfold resumableUpload, checkS3Configuration. rewrite Hcfg. simpl.
    by rewrite (proj2 (Z.ltb_lt _ _) Hlt). }
  assert (Hbig : RESUMABLE_THRESHOLD ≤ file_size file →
     (resumableUpload etag_of file key env σ).1.1 ≠ Threw TooSmall).
  { intros Hge. unfold resumableUpload, checkS3Configuration. rewrite Hcfg. simpl.
    rewrite (proj2 (Z.ltb_ge _ _) Hge).
    destruct (loadUploadProgress _ _) as [p|]; simpl.
    - destruct (negb _ || negb _); simpl.
      + destruct (next_tick env) as [t env'].
        destruct (s3_createMultipartUpload _ _ _) as [[id|] s];
          [apply upload_try_catch_not_TooSmall|done].
      + apply upload_try_catch_not_TooSmall.
    - destruct (next_tick env) as [t env'].
      destruct (s3_createMultipartUpload _ _ _) as [[id|] s];
        [apply upload_try_catch_not_TooSmall|done]. }
  repeat split; auto.
  - intros Heq. rewrite Hsmall by lia. done.
  - intros Heq. apply Hbig. lia.
Qed.

End Threshold.

(** ** Readers of the progress store *)

Lemma foldl_insert_lookup {A} (l : list (string * A)) :
  ∀ (acc : gmap string A) k,
    NoDup l.*1 →
    foldl (λ m '(i, x), <[i := x]> m) acc l !! k
    = (list_to_map l : gmap string A) !! k ∪ acc !! k.
Proof.
  induction l as [|[i x] l IH]; intros acc k Hnd.
  - simpl. rewrite lookup_empty. by destruct (acc !! k).
  - rewrite fmap_cons in Hnd. apply NoDup_cons in Hnd as [Hi Hnd].
    cbn [foldl list_to_map foldr]. rewrite IH by done. simpl.
    rewrite !lookup_insert. case_decide as Hk; [|done]. subst k.
    simpl in Hi. rewrite (not_elem_of_list_to_map_1 l i Hi).
    by destruct (acc !! i).
Qed.

Lemma getPendingUploads_eq σ : getPendingUploads σ = uploads σ.
Proof.
  apply map_eq. intros k. unfold getPendingUploads.
  rewrite foldl_insert_lookup by apply NoDup_fst_map_to_list.
  rewrite list_to_map_to_list, lookup_empty. by destruct (uploads σ !! k).
Qed.

Lemma getPendingDownloads_eq σ : getPendingDownloads σ = downloads σ.
Proof.
  apply map_eq. intros k. unfold getPendingDownloads.
  rewrite foldl_insert_lookup by apply NoDup_fst_map_to_list.
  rewrite list_to_map_to_list, lookup_empty. by destruct (downloads σ !! k).
Qed.

Section Readers.
Variable percent_ge_99_9 : Z → Z → bool.

Lemma loadPending_step_only_deletes inQ acc e k p :
  uploads (loadPending_step percent_ge_99_9 inQ acc e).2 !! k = Some p →
  uploads acc.2 !! k = Some p.
Proof.
  destruct acc as [items σ], e as [uploadKey progress]. simpl.
  repeat case_match; simpl; try done;
    unfold clearUploadFromStorage, clearUploadProgress; simpl;
    rewrite lookup_delete; by case_decide.
Qed.

Lemma loadPending_fold_only_deletes inQ l acc k p :
  uploads (foldl (loadPending_step percent_ge_99_9 inQ) acc l).2 !! k = Some p →
  uploads acc.2 !! k = Some p.
Proof.
  revert acc. induction l as [|e l IH]; intros acc; simpl; [done|].
  intros H. apply IH in H. by apply loadPending_step_only_deletes in H.
Qed.

Lemma loadPending_fold_keeps_gone inQ l acc k :
  uploads acc.2 !! k = None →
  uploads (foldl (loadPending_step percent_ge_99_9 inQ) acc l).2 !! k = None.
Proof.
  intros Hnone.
  destruct (uploads (foldl _ acc l).2 !! k) as [p|] eqn:E; [|done].
  apply loadPending_fold_only_deletes in E. congruence.
Qed.

Lemma loadPending_step_purges inQ acc k p :
  cp_totalSize p ≤ cp_uploadedSize p →
  Forall (λ item, item_fileKey item ≠ k) inQ →
  uploads (loadPending_step percent_ge_99_9 inQ acc (k, p)).2 !! k = None.
Proof.
  intros Hfull HinQ. destruct acc as [items σ]. simpl.
  destruct (existsb _ inQ) eqn:Hex.
  { apply existsb_exists in Hex as (item & Hin & Heq).
    apply bool_decide_eq_true in Heq.
    rewrite Forall_forall in HinQ. apply list_elem_of_In in Hin.
    by destruct (HinQ item Hin). }
  destruct (percent_ge_99_9 _ _); simpl.
  { apply clearUploadProgress_same. }
  rewrite (proj2 (Z.leb_le _ _) Hfull). simpl. apply clearUploadProgress_same.
Qed.

Lemma loadPending_fold_purges inQ l acc k p :
  (k, p) ∈ l →
  cp_totalSize p ≤ cp_uploadedSize p →
  Forall (λ item, item_fileKey item ≠ k) inQ →
  uploads (foldl (loadPending_step percent_ge_99_9 inQ) acc l).2 !! k = None.
Proof.
  intros Hin Hfull HinQ. revert acc.
  induction l as [|e l IH]; intros acc; [by apply elem_of_nil in Hin|].
  simpl. apply elem_of_cons in Hin as [<-|Hin]; [|by apply IH].
  apply loadPending_fold_keeps_gone. by apply loadPending_step_purges.
Qed.

Lemma loadPendingUploads_service u :
  service (loadPendingUploads percent_ge_99_9 u) =
  (foldl (loadPending_step percent_ge_99_9 (queue u)) ([], service u)
         (map_to_list (getPendingUploads (service u)))).2.
Proof.
  unfold loadPendingUploads.
  destruct (foldl _ _ _) as [items σ]. by destruct items.
Qed.

Lemma clearCompletedUploads_only_deletes σ k p :
  uploads (clearCompletedUploads percent_ge_99_9 σ) !! k = Some p →
  uploads σ !! k = Some p.
Proof.
  unfold clearCompletedUploads.
  generalize (map_to_list (getPendingUploads σ)). intros l. revert σ.
  induction l as [|[uk pr] l IH]; intros σ; simpl; [done|].
  intros H. apply IH in H. destruct (percent_ge_99_9 _ _); [|done].
  rewrite uploads_clearUploadProgress in H. by case_decide.
Qed.

(** C4, as the code has it: [getPendingUploads] and [getPendingDownloads]
    only read - they return every stored record, the logically complete ones
    too, and the store is what it was.  The reader that purges is the upload
    queue's [loadPendingUploads]: it removes every stored upload record with
    [uploadedSize >= totalSize] that no queue item stands for, so that once
    the queue has mounted no logically complete upload record is left. *)
Theorem readers_and_complete_records :
  (∀ σ k, getPendingUploads σ !! k = uploads σ !! k ∧
          getPendingDownloads σ !! k = downloads σ !! k) ∧
  (∀ u k p,
     uploads (service u) !! k = Some p →
     cp_totalSize p ≤ cp_uploadedSize p →
     Forall (λ item, item_fileKey item ≠ k) (queue u) →
     uploads (service (loadPendingUploads percent_ge_99_9 u)) !! k = None) ∧
  (∀ σ k p,
     uploads (service (mount percent_ge_99_9 σ)) !! k = Some p →
     cp_uploadedSize p < cp_totalSize p ∧ uploads σ !! k = Some p).
Proof.
  split; [intros σ k; by rewrite getPendingUploads_eq, getPendingDownloads_eq|]. split.
  - intros u k p Hk Hfull HinQ. rewrite loadPendingUploads_service.
    eapply loadPending_fold_purges; [|done..].
    rewrite getPendingUploads_eq. by apply elem_of_map_to_list.
  - intros σ k p. unfold mount. rewrite loadPendingUploads_service. simpl.
    intros H. pose proof H as H'.
    apply loadPending_fold_only_deletes in H'. simpl in H'.
    split; [|by apply clearCompletedUploads_only_deletes in H'].
    destruct (decide (cp_uploadedSize p < cp_totalSize p)) as [|Hfull]; [done|].
    rewrite (loadPending_fold_purges [] _ _ k p) in H; [done| |lia|constructor].
    rewrite getPendingUploads_eq. by apply elem_of_map_to_list.
Qed.

End Readers.

(** C4 as stated fails: [getPendingUploads] hands out a record whose
    [uploadedSize] has reached its [totalSize], and the store it read still
    holds that record. *)
Lemma getPendingUploads_keeps_complete_record :
  getPendingUploads stale_service !! sample_fileKey = Some complete_progress ∧
  cp_totalSize complete_progress ≤ cp_uploadedSize complete_progress ∧
  uploads stale_service !! sample_fileKey = Some complete_progress.
Proof.
  rewrite getPendingUploads_eq. split; [|split]; [reflexivity| |reflexivity].
  vm_compute. discriminate.
Qed.

(** On [stale_service] the mounting queue removes the complete record and
    shows no item for it. *)
Lemma mount_purges_complete_record :
  uploads (service (mount sample_percent stale_service)) !! sample_fileKey = None ∧
  queue (mount sample_percent stale_service) = [].
Proof. vm_compute. done. Qed.

(** ** The upload queue *)

(** [processQueue] starts nothing while a transfer it started is running. *)
Lemma processQueue_guard u :
  processingRef u = true ∨ isProcessing u = true → processQueue u = u.
Proof. unfold processQueue. intros [-> | ->]; by rewrite ?orb_true_r. Qed.

(** A queue whose only transfers were started by [processQueue] never has two
    items uploading: starting one sets both processing flags. *)
Lemma processQueue_sets_flags u :
  processQueue u ≠ u →
  processingRef (processQueue u) = true ∧ isProcessing (processQueue u) = true.
Proof.
  unfold processQueue. destruct (processingRef u || isProcessing u); [done|].
  destruct (filter _ (queue u)) as [|nextItem rest]; [done|].
  by destruct (processUploadItem_begin nextItem u).
Qed.

(** C2 on the code: a file with persisted progress enters the queue paused;
    [processQueue] starts the next queued item; [resumeUpload] on the paused
    item then marks it as uploading as well, without looking at the
    processing flags.  Two items are uploading. *)
Theorem resumeUpload_second_uploading_item :
  let u := foldl queue_step (empty_queue interrupted_service)
             [EvAddFiles "docs/" [("a", sample_file); ("b", small_file)];
              EvProcessQueue;
              EvResume "a"] in
  (λ q, (item_id q, item_status q)) <$> queue u = [("a", Uploading); ("b", Uploading)] ∧
  uploading_count u = 2%nat ∧
  processingRef u = true.
Proof. vm_compute. done. Qed.

(** ** Chunk tables *)

Lemma ceil_div_CHUNK_SIZE a :
  (ceil_div a CHUNK_SIZE - 1) * CHUNK_SIZE < a ≤ ceil_div a CHUNK_SIZE * CHUNK_SIZE.
Proof.
  unfold ceil_div. change CHUNK_SIZE with 5242880.
  pose proof (Z.div_mod (- a) 5242880 ltac:(done)).
  pose proof (Z.mod_pos_bound (- a) 5242880 ltac:(done)). lia.
Qed.

Lemma ceil_div_CHUNK_SIZE_nonneg a : 0 ≤ a → 0 ≤ ceil_div a CHUNK_SIZE.
Proof. pose proof (ceil_div_CHUNK_SIZE a). change CHUNK_SIZE with 5242880 in *. lia. Qed.

Lemma make_chunks_eq totalSize :
  make_chunks totalSize = chunk_at totalSize <$> seqZ 0 (ceil_div totalSize CHUNK_SIZE).
Proof. reflexivity. Qed.

Lemma make_chunks_lookup totalSize (i : nat) c :
  make_chunks totalSize !! i = Some c ↔
  c = chunk_at totalSize (Z.of_nat i) ∧ Z.of_nat i < ceil_div totalSize CHUNK_SIZE.
Proof.
  rewrite make_chunks_eq, list_lookup_fmap, fmap_Some.
  setoid_rewrite lookup_seqZ. split.
  - intros (j & [-> ?] & ->). split; [f_equal; lia|done].
  - intros [-> ?]. exists (Z.of_nat i). split; [split; [lia|done]|done].
Qed.

Lemma tiles_chunk_at totalSize (m : nat) :
  ∀ j, 0 ≤ j → j + Z.of_nat m = ceil_div totalSize CHUNK_SIZE →
       tiles (Z.min (j * CHUNK_SIZE) totalSize) totalSize
             (chunk_at totalSize <$> seqZ j (Z.of_nat m)).
Proof.
  pose proof (ceil_div_CHUNK_SIZE totalSize) as Hceil.
  induction m as [|m IH]; intros j Hj Hsum.
  - rewrite seqZ_nil by lia. simpl. change CHUNK_SIZE with 5242880 in *. lia.
  - rewrite seqZ_cons by lia.
    replace (Z.pred (Z.of_nat (S m))) with (Z.of_nat m) by lia.
    rewrite fmap_cons. simpl.
    specialize (IH (Z.succ j) ltac:(lia) ltac:(lia)).
    change CHUNK_SIZE with 5242880 in *.
    replace (Z.min (j * 5242880 + 5242880 - 1) (totalSize - 1) + 1)
      with (Z.min (Z.succ j * 5242880) totalSize) by lia.
    repeat split; [lia..|done].
Qed.

Lemma tiles_make_chunks totalSize :
  0 ≤ totalSize → tiles 0 totalSize (make_chunks totalSize).
Proof.
  intros Hnn. rewrite make_chunks_eq.
  pose proof (ceil_div_CHUNK_SIZE_nonneg totalSize Hnn) as Hn.
  pose proof (tiles_chunk_at totalSize (Z.to_nat (ceil_div totalSize CHUNK_SIZE)) 0) as H.
  rewrite Z2Nat.id in H by done.
  replace (Z.min (0 * CHUNK_SIZE) totalSize) with 0 in H by lia.
  apply H; lia.
Qed.

Lemma completed_bytes_make_chunks totalSize :
  completed_bytes (make_chunks totalSize) = 0.
Proof.
  rewrite make_chunks_eq. generalize (seqZ 0 (ceil_div totalSize CHUNK_SIZE)).
  intros l. induction l as [|i l IH]; [done|]. rewrite fmap_cons. simpl. lia.
Qed.

Lemma tiles_alter_mark pos total (chunks : list Chunk) (i : nat) :
  tiles pos total (alter mark i chunks) ↔ tiles pos total chunks.
Proof.
  revert pos i. induction chunks as [|c chunks IH]; intros pos i; [done|].
  destruct i as [|i]; [done|].
  change (alter mark (S i) (c :: chunks)) with (c :: alter mark i chunks).
  cbn [tiles]. by rewrite IH.
Qed.

Lemma completed_bytes_alter_mark (chunks : list Chunk) (i : nat) c :
  chunks !! i = Some c → c_downloaded c = false →
  completed_bytes (alter mark i chunks) = completed_bytes chunks + (c_end c - c_start c + 1).
Proof.
  revert i. induction chunks as [|c' chunks IH]; intros i Hi Hc; [done|].
  destruct i as [|i].
  - injection Hi as ->. simpl. rewrite Hc. lia.
  - change (alter mark (S i) (c' :: chunks)) with (c' :: alter mark i chunks).
    cbn [completed_bytes]. rewrite (IH i Hi Hc). lia.
Qed.

Lemma ranges_alter_mark (chunks : list Chunk) (i : nat) :
  chunk_range <$> alter mark i chunks = chunk_range <$> chunks.
Proof.
  revert i. induction chunks as [|c chunks IH]; intros i; [done|].
  destruct i as [|i]; [done|].
  change (alter mark (S i) (c :: chunks)) with (c :: alter mark i chunks).
  rewrite !fmap_cons. by rewrite IH.
Qed.

Lemma download_invariant_fresh key fileName totalSize lastModified :
  0 ≤ totalSize →
  download_invariant (fresh_download key fileName totalSize lastModified).
Proof.
  intros Hnn. split; simpl; [by apply tiles_make_chunks|].
  by rewrite completed_bytes_make_chunks.
Qed.

Lemma download_invariant_mark p i c :
  download_invariant p → dp_chunks p !! i = Some c → c_downloaded c = false →
  download_invariant (mark_downloaded i c p).
Proof.
  intros [Ht Hs] Hi Hc. split; simpl.
  - by apply tiles_alter_mark.
  - rewrite (completed_bytes_alter_mark _ _ _ Hi Hc). lia.
Qed.

(** ** The download loops *)

Lemma downloads_run_actions acts σ : downloads (run_actions acts σ) = downloads σ.
Proof.
  revert σ. induction acts as [|a acts IH]; intros σ; [done|].
  unfold run_actions in *. simpl. rewrite IH.
  destruct a; simpl.
  - unfold pauseUpload. by destruct (activeUploads σ !! fileKey).
  - unfold resumeUpload. by destruct (activeUploads σ !! fileKey).
  - unfold cancelUpload, abort. by destruct (activeUploads σ !! fileKey).
Qed.

Lemma next_tick_all_ok env t env' :
  all_ok env → next_tick env = (t, env') → net_ok t = true ∧ all_ok env'.
Proof.
  unfold all_ok. destruct env as [|t0 env0]; simpl; intros Hok [= <- <-].
  - by split.
  - by inversion Hok.
Qed.

Lemma s3_getObject_spec key first last net s obj :
  s3_objects s !! key = Some obj →
  ∃ s', s3_objects s' = s3_objects s ∧
        s3_getObject key first last net s =
        (if net && (first <? blob_size (obj_body obj))
         then Some (blob_slice (obj_body obj) first (last + 1)) else None, s').
Proof.
  intros Hobj. unfold s3_getObject. destruct net; simpl; rewrite ?Hobj.
  - destruct (first <? _); eexists; (split; [|reflexivity]); reflexivity.
  - eexists; (split; [|reflexivity]); reflexivity.
Qed.

Lemma entries_of_chunks (chunks : list Chunk) :
  Forall (λ e, chunks !! e.1 = Some e.2) (imap (λ i c, (i, c)) chunks) ∧
  NoDup (imap (λ i c, (i, c)) chunks).*1.
Proof.
  split.
  - apply Forall_forall. intros e He.
    apply elem_of_lookup_imap_1 in He as (i & c & -> & Hi). done.
  - rewrite fmap_imap.
    rewrite (imap_ext _ (λ j _, id j)) by done.
    rewrite (imap_seq_0 chunks id), list_fmap_id. apply NoDup_seq.
Qed.

Lemma entries_after_mark (chunks : list Chunk) (index : nat) (es : list (nat * Chunk)) :
  Forall (λ e, chunks !! e.1 = Some e.2) es → index ∉ es.*1 →
  Forall (λ e, alter mark index chunks !! e.1 = Some e.2) es.
Proof.
  rewrite !Forall_forall. intros Hes Hfresh [j c'] Hin. simpl.
  rewrite list_lookup_alter_ne; [by apply (Hes _ Hin)|].
  intros ->. apply Hfresh. apply list_elem_of_fmap. by exists (j, c').
Qed.

Section DownloadLoops.
Variables (key fileKey : string) (obj : S3Object).

Lemma download_chunks_store es :
  ∀ progress dl env σ r p' dl' σ' env',
    download_invariant progress →
    Forall (λ e, dp_chunks progress !! e.1 = Some e.2) es → NoDup es.*1 →
    (∀ p, downloads σ !! fileKey = Some p → download_invariant p) →
    download_chunks key fileKey es progress dl env σ = (r, p', dl', σ', env') →
    ∀ p, downloads σ' !! fileKey = Some p → download_invariant p.
Proof.
  induction es as [|[index c] es IH];
    intros progress dl env σ r p' dl' σ' env' Hinv Hes Hnd Hstore Hrun.
  { simpl in Hrun. by injection Hrun as <- <- <- <- <-. }
  simpl in Hrun. apply Forall_cons in Hes as [Hc Hes]. simpl in Hc.
  rewrite fmap_cons in Hnd. apply NoDup_cons in Hnd as [Hfresh Hnd].
  destruct (c_downloaded c) eqn:Hdone; [by eapply IH|].
  destruct (next_tick env) as [t env1].
  destruct (s3_getObject _ _ _ _ _) as [[body|] s].
  - eapply IH; [| | |  |exact Hrun]; [|  |done| ].
    + by apply download_invariant_mark.
    + by apply entries_after_mark.
    + intros p. simpl. rewrite lookup_insert_eq. intros [= <-].
      by apply download_invariant_mark.
  - injection Hrun as <- <- <- <- <-. simpl.
    by rewrite downloads_run_actions.
Qed.

Lemma download_chunks_content es :
  ∀ progress dl env σ r p' dl' σ' env',
    s3_objects (s3 σ) !! key = Some obj →
    Forall (λ e, dp_chunks progress !! e.1 = Some e.2) es → NoDup es.*1 →
    buffers_of (obj_body obj) (dp_chunks progress) dl →
    download_chunks key fileKey es progress dl env σ = (r, p', dl', σ', env') →
    s3_objects (s3 σ') !! key = Some obj ∧
    chunk_range <$> dp_chunks p' = chunk_range <$> dp_chunks progress ∧
    buffers_of (obj_body obj) (dp_chunks p') dl' ∧
    r ≠ Pending ∧
    (all_ok env → Forall (λ e, c_start e.2 < blob_size (obj_body obj)) es →
     r = Returned tt ∧ all_ok env').
Proof.
  induction es as [|[index c] es IH];
    intros progress dl env σ r p' dl' σ' env' Hobj Hes Hnd Hdl Hrun.
  { simpl in Hrun. by injection Hrun as <- <- <- <- <-. }
  simpl in Hrun. apply Forall_cons in Hes as [Hc Hes]. simpl in Hc.
  rewrite fmap_cons in Hnd. apply NoDup_cons in Hnd as [Hfresh Hnd].
  destruct (c_downloaded c) eqn:Hdone.
  { destruct (IH _ _ _ _ _ _ _ _ _ Hobj Hes Hnd Hdl Hrun) as (?&?&?&?&Hok).
    do 4 (split; [done|]). intros Henv Hrange.
    apply Forall_cons in Hrange as [_ Hrange]. by apply Hok. }
  destruct (next_tick env) as [t env1] eqn:Htick.
  destruct (s3_getObject_spec key (c_start c) (c_end c) (net_ok t)
              (s3 (run_actions (during t) σ)) obj) as (s' & Hobjs & Hget).
  { by rewrite s3_run_actions. }
  rewrite Hget in Hrun. clear Hget.
  destruct (net_ok t && (c_start c <? blob_size (obj_body obj))) eqn:Hsucc.
  - eapply IH in Hrun as (?&Hr&?&?&Hok); simpl.
    + rewrite Hr. simpl. rewrite ranges_alter_mark.
      do 4 (split; [done|]). intros Henv Hrange.
      apply Forall_cons in Hrange as [_ Hrange].
      destruct (next_tick_all_ok _ _ _ Henv Htick). by apply Hok.
    + by rewrite Hobjs, s3_run_actions.
    + by apply entries_after_mark.
    + done.
    + intros i b. simpl. rewrite lookup_insert. case_decide as Hi.
      * intros [= <-]. subst i. exists (mark c). split; [|done].
        by rewrite list_lookup_alter_eq, Hc.
      * intros Hb. destruct (Hdl i b Hb) as (c' & Hc' & ->).
        rewrite list_lookup_alter_ne by done. by exists c'.
  - injection Hrun as <- <- <- <- <-. simpl. rewrite Hobjs, s3_run_actions.
    do 4 (split; [done|]). intros Henv Hrange.
    apply Forall_cons in Hrange as [Hlt _]. simpl in Hlt.
    destruct (next_tick_all_ok _ _ _ Henv Htick) as [Hnet _].
    rewrite Hnet, (proj2 (Z.ltb_lt _ _) Hlt) in Hsucc. done.
Qed.

Lemma assemble_store chunks :
  ∀ i dl allChunks env σ r σ' env',
    assemble key chunks i dl allChunks env σ = (r, σ', env') →
    downloads σ' = downloads σ.
Proof.
  induction chunks as [|c chunks IH]; intros i dl allChunks env σ r σ' env' Hrun;
    simpl in Hrun.
  { by injection Hrun as <- <- <-. }
  destruct (dl !! i); [by eapply IH|].
  destruct (next_tick env) as [t env1].
  destruct (s3_getObject _ _ _ _ _) as [[body|] s].
  - apply IH in Hrun. rewrite Hrun. simpl. apply downloads_run_actions.
  - injection Hrun as <- <- <-. simpl. apply downloads_run_actions.
Qed.

Lemma assemble_content all_chunks chunks :
  ∀ i dl allChunks env σ r σ' env',
    s3_objects (s3 σ) !! key = Some obj →
    buffers_of (obj_body obj) all_chunks dl →
    chunks = drop i all_chunks →
    assemble key chunks i dl allChunks env σ = (r, σ', env') →
    r ≠ Pending ∧
    (∀ result, r = Returned result →
               result = allChunks ++ (chunk_bytes (obj_body obj) <$> chunks)) ∧
    (all_ok env → Forall (λ c, c_start c < blob_size (obj_body obj)) chunks →
     ∃ result, r = Returned result).
Proof.
  induction chunks as [|c chunks IH];
    intros i dl allChunks env σ r σ' env' Hobj Hdl Hdrop Hrun; simpl in Hrun.
  { injection Hrun as <- <- <-. repeat split; [done| |by eauto].
    intros result [= <-]. by rewrite app_nil_r. }
  assert (Hi : all_chunks !! i = Some c).
  { rewrite <-(Nat.add_0_r i), <-lookup_drop, <-Hdrop. done. }
  assert (Hrest : chunks = drop (S i) all_chunks).
  { rewrite <-(Nat.add_1_r i), <-drop_drop, <-Hdrop. done. }
  destruct (dl !! i) as [b|] eqn:Hb.
  { destruct (Hdl i b Hb) as (c' & Hc' & ->). rewrite Hi in Hc'. injection Hc' as <-.
    destruct (IH _ _ _ _ _ _ _ _ Hobj Hdl Hrest Hrun) as (? & Hres & Hok).
    repeat split; [done| |].
    - intros result Hr. rewrite (Hres _ Hr), fmap_cons, <-app_assoc. done.
    - intros Henv Hrange. apply Forall_cons in Hrange as [_ Hrange]. by apply Hok. }
  destruct (next_tick env) as [t env1] eqn:Htick.
  destruct (s3_getObject_spec key (c_start c) (c_end c) (net_ok t)
              (s3 (run_actions (during t) σ)) obj) as (s' & Hobjs & Hget).
  { by rewrite s3_run_actions. }
  rewrite Hget in Hrun. clear Hget.
  destruct (net_ok t && (c_start c <? blob_size (obj_body obj))) eqn:Hsucc.
  - eapply IH in Hrun as (? & Hres & Hok); [| |done..].
    2:{ simpl. by rewrite Hobjs, s3_run_actions. }
    repeat split; [done| |].
    + intros result Hr. rewrite (Hres _ Hr), fmap_cons, <-app_assoc. done.
    + intros Henv Hrange. apply Forall_cons in Hrange as [_ Hrange].
      destruct (next_tick_all_ok _ _ _ Henv Htick). by apply Hok.
  - injection Hrun as <- <- <-. repeat split; [done|done|].
    intros Henv Hrange. apply Forall_cons in Hrange as [Hlt _].
    destruct (next_tick_all_ok _ _ _ Henv Htick) as [Hnet _].
    rewrite Hnet, (proj2 (Z.ltb_lt _ _) Hlt) in Hsucc. done.
Qed.

End DownloadLoops.

(** ** Reassembly *)

Lemma tiles_ranges pos total (chunks chunks' : list Chunk) :
  chunk_range <$> chunks = chunk_range <$> chunks' →
  tiles pos total chunks → tiles pos total chunks'.
Proof.
  revert pos chunks'. induction chunks as [|c chunks IH]; intros pos [|c' chunks'] Heq;
    try done.
  rewrite !fmap_cons in Heq. injection Heq as Hs He Hrest. simpl.
  rewrite Hs, He. intros (?&?&?&?). eauto.
Qed.

Lemma chunk_bytes_ranges body (chunks chunks' : list Chunk) :
  chunk_range <$> chunks = chunk_range <$> chunks' →
  chunk_bytes body <$> chunks = chunk_bytes body <$> chunks'.
Proof.
  intros Heq.
  change (chunk_bytes body) with ((λ r, blob_slice body r.1 (r.2 + 1)) ∘ chunk_range).
  by rewrite !list_fmap_compose, Heq.
Qed.

Lemma tiles_starts pos total chunks :
  tiles pos total chunks → Forall (λ c, c_start c < total) chunks.
Proof.
  revert pos. induction chunks as [|c chunks IH]; intros pos; simpl; [constructor|].
  intros (?&?&?&Hrest). constructor; [lia|]. by eapply IH.
Qed.

Lemma concat_tiles body chunks :
  ∀ pos, 0 ≤ pos → tiles pos (blob_size body) chunks →
         concat (chunk_bytes body <$> chunks) = drop (Z.to_nat pos) body.
Proof.
  unfold blob_size.
  induction chunks as [|c chunks IH]; intros pos Hpos.
  - simpl. intros ->. rewrite Nat2Z.id. by rewrite drop_all.
  - rewrite fmap_cons. cbn [concat tiles]. intros (Hs & Hle & Hlt & Hrest).
    rewrite (IH (c_end c + 1)) by (done || lia).
    unfold chunk_bytes, blob_slice. rewrite Hs.
    replace (Z.to_nat (c_end c + 1)) with (Z.to_nat pos + Z.to_nat (c_end c + 1 - pos))%nat
      by lia.
    rewrite <-drop_drop. apply take_drop.
Qed.

Section Download.
Variables (key fileName : string) (obj : S3Object).

Lemma resumableDownload_spec env σ r σ' env' :
  s3Service_configured σ = true →
  s3_objects (s3 σ) !! key = Some obj →
  (∀ p, downloads σ !! download_fileKey key fileName = Some p →
        dp_lastModified p = obj_lastModified obj →
        tiles 0 (blob_size (obj_body obj)) (dp_chunks p)) →
  resumableDownload key fileName env σ = (r, σ', env') →
  r ≠ Pending ∧
  (∀ b, r = Returned b → b = obj_body obj) ∧
  (all_ok env → r = Returned (obj_body obj)).
Proof.
  intros Hcfg Hobj Hstored. unfold resumableDownload, checkS3Configuration.
  rewrite Hcfg. simpl. unfold loadDownloadProgress. simpl.
  destruct (next_tick env) as [t env1] eqn:Htick. unfold s3_headObject.
  rewrite s3_run_actions.
  destruct (net_ok t) eqn:Hnet; simpl; rewrite ?Hobj; simpl.
  2:{ intros [= <- <- <-]. split; [done|]. split; [done|].
      intros Henv. destruct (next_tick_all_ok _ _ _ Henv Htick). congruence. }
  set (fk := download_fileKey key fileName) in *.
  set (σ1 := set_s3 _ _).
  assert (Hobj1 : s3_objects (s3 σ1) !! key = Some obj).
  { subst σ1. done. }
  assert (Hpick : ∃ progress σ2,
    (let '(progress, σ) :=
        match downloads σ !! fk with
        | Some p =>
            if negb (bool_decide (dp_lastModified p = obj_lastModified obj))
            then (None, clearDownloadProgress fk σ1) else (Some p, σ1)
        | None => (None, σ1)
        end in
      (match progress with
       | Some p => p
       | None => fresh_download key fileName (blob_size (obj_body obj)) (obj_lastModified obj)
       end, σ)) = (progress, σ2) ∧
    tiles 0 (blob_size (obj_body obj)) (dp_chunks progress) ∧
    s3_objects (s3 σ2) !! key = Some obj).
  { destruct (downloads σ !! fk) as [p|] eqn:Hp.
    - destruct (bool_decide (dp_lastModified p = obj_lastModified obj)) eqn:Hlm; simpl.
      + apply bool_decide_eq_true in Hlm.
        exists p, σ1. split; [done|]. split; [by apply Hstored|done].
      + eexists _, _. split; [done|]. split; [|done].
        apply tiles_make_chunks. unfold blob_size. lia.
    - eexists _, _. split; [done|]. split; [|done].
      apply tiles_make_chunks. unfold blob_size. lia. }
  destruct Hpick as (progress & σ2 & Hpick & Htiles & Hobj2).
  destruct (match downloads σ !! fk with Some _ => _ | None => _ end) as [po σ2'].
  injection Hpick as Hprog ->. rewrite Hprog. clear Hprog po.
  destruct (entries_of_chunks (dp_chunks progress)) as [Hes Hnd].
  destruct (download_chunks _ _ _ _ _ _ _) as [[[[r1 p1] dl1] σ3] env2] eqn:Hloop.
  eapply (download_chunks_content key fk obj) in Hloop
    as (Hobj3 & Hranges & Hdl & Hnp & Hok); [|done..|].
  2:{ intros i b. by rewrite lookup_empty. }
  assert (Hstarts : Forall (λ e : nat * Chunk, c_start e.2 < blob_size (obj_body obj))
                      (imap (λ i c, (i, c)) (dp_chunks progress))).
  { apply Forall_forall. intros e He.
    apply elem_of_lookup_imap_1 in He as (i & c & -> & Hi). simpl.
    pose proof (tiles_starts _ _ _ Htiles) as Hall. rewrite Forall_forall in Hall.
    apply Hall. by eapply list_elem_of_lookup_2. }
  destruct r1 as [[]|e|]; [|intros [= <- <- <-]..].
  - destruct (assemble _ _ _ _ _ _ _) as [[r2 σ4] env3] eqn:Hasm.
    eapply (assemble_content key obj (dp_chunks p1)) in Hasm
      as (Hnp2 & Hres & Hok2); [|done..].
    assert (Hwhole : ∀ result, r2 = Returned result → concat result = obj_body obj).
    { intros result Hr. rewrite (Hres _ Hr). simpl.
      rewrite (chunk_bytes_ranges _ _ _ Hranges).
      by rewrite (concat_tiles _ _ 0) by done. }
    destruct r2 as [result|e|]; intros [= <- <- <-].
    + pose proof (Hwhole _ eq_refl) as Hw. rewrite Hw.
      split; [done|]. split; [|done]. by intros b [= <-].
    + split; [done|]. split; [done|]. intros Henv.
      destruct (next_tick_all_ok _ _ _ Henv Htick) as [_ Henv1].
      destruct (Hok Henv1 Hstarts) as [_ Henv2].
      destruct Hok2 as [result Hr]; [done| |done].
      eapply Forall_impl; [apply (tiles_starts 0 (blob_size (obj_body obj)))|done].
      by eapply tiles_ranges.
    + done.
  - split; [done|]. split; [done|]. intros Henv.
    destruct (next_tick_all_ok _ _ _ Henv Htick) as [_ Henv1].
    by destruct (Hok Henv1 Hstarts).
  - done.
Qed.

(** C7: the bytes [resumableDownload] returns - the chunks [0 .. m-1] in
    order, each fetched in this call or fetched again because an earlier call
    had completed it - are the bytes of the object: whenever the call
    returns, it returns the object's body, and when no request fails it does
    return. *)
Theorem download_reassembly (env : Env) (σ : Service) :
  s3Service_configured σ = true →
  s3_objects (s3 σ) !! key = Some obj →
  (∀ p, downloads σ !! download_fileKey key fileName = Some p →
        dp_lastModified p = obj_lastModified obj →
        tiles 0 (blob_size (obj_body obj)) (dp_chunks p)) →
  (∀ b, (resumableDownload key fileName env σ).1.1 = Returned b → b = obj_body obj) ∧
  (all_ok env →
   (resumableDownload key fileName env σ).1.1 = Returned (obj_body obj)) ∧
  concat (chunk_bytes (obj_body obj) <$> make_chunks (blob_size (obj_body obj)))
  = obj_body obj.
Proof.
  intros Hcfg Hobj Hstored.
  destruct (resumableDownload key fileName env σ) as [[r σ'] env'] eqn:Hrun.
  destruct (resumableDownload_spec _ _ _ _ _ Hcfg Hobj Hstored Hrun) as (_ & Hret & Hok).
  simpl. split; [done|]. split; [done|].
  rewrite (concat_tiles _ _ 0); [done|done|].
  apply tiles_make_chunks. unfold blob_size. lia.
Qed.

End Download.

(** ** The invariant of download records *)

Lemma resumableDownload_store key fileName env σ :
  (∀ p, downloads σ !! download_fileKey key fileName = Some p → download_invariant p) →
  ∀ p, downloads (resumableDownload key fileName env σ).1.2
         !! download_fileKey key fileName = Some p →
       download_invariant p.
Proof.
  intros Hstore. unfold resumableDownload, checkS3Configuration.
  set (fk := download_fileKey key fileName) in *.
  assert (Hcfg : ∀ p, downloads (if s3Service_configured σ then set_has_s3 true σ else σ)
                        !! fk = Some p → download_invariant p).
  { by destruct (s3Service_configured σ). }
  unfold loadDownloadProgress.
  assert (Hload : downloads (if s3Service_configured σ then set_has_s3 true σ else σ)
                  = downloads σ) by by destruct (s3Service_configured σ).
  rewrite Hload.
  generalize dependent (if s3Service_configured σ then set_has_s3 true σ else σ).
  intros σ0 Hσ0 Hload.
  destruct (negb (svc_has_s3 σ0)); [done|].
  destruct (next_tick env) as [t env1].
  destruct (s3_headObject _ _ _) as [o s] eqn:Hhead.
  destruct o as [[totalSize lastModified]|]; simpl.
  2:{ by rewrite downloads_run_actions. }
  assert (Hsize : 0 ≤ totalSize).
  { unfold s3_headObject in Hhead.
    destruct (if net_ok t then _ else None); [|done].
    injection Hhead as <- _ _. unfold blob_size. lia. }
  set (σ1 := set_s3 s (run_actions (during t) σ0)).
  assert (Hσ1 : ∀ p, downloads σ1 !! fk = Some p → download_invariant p).
  { subst σ1. simpl. by rewrite downloads_run_actions. }
  assert (Hpick : ∃ progress σ2,
    (let '(progress, σ) :=
        match downloads σ !! fk with
        | Some p =>
            if negb (bool_decide (dp_lastModified p = lastModified))
            then (None, clearDownloadProgress fk σ1) else (Some p, σ1)
        | None => (None, σ1)
        end in
      (match progress with
       | Some p => p
       | None => fresh_download key fileName totalSize lastModified
       end, σ)) = (progress, σ2) ∧
    download_invariant progress ∧
    (∀ p, downloads σ2 !! fk = Some p → download_invariant p)).
  { destruct (downloads σ !! fk) as [p|] eqn:Hp.
    - destruct (bool_decide (dp_lastModified p = lastModified)); simpl.
      + exists p, σ1. split; [done|]. split; [by apply Hstore|done].
      + eexists _, _. split; [done|].
        split; [by apply download_invariant_fresh|].
        intros p'. simpl. by rewrite lookup_delete_eq.
    - eexists _, _. split; [done|]. split; [by apply download_invariant_fresh|done]. }
  destruct Hpick as (progress & σ2 & Hpick & Hinv & Hσ2).
  destruct (match downloads σ !! fk with Some _ => _ | None => _ end) as [po σ2'].
  injection Hpick as Hprog ->. rewrite Hprog. clear Hprog po.
  destruct (entries_of_chunks (dp_chunks progress)) as [Hes Hnd].
  destruct (download_chunks _ _ _ _ _ _ _) as [[[[r1 p1] dl1] σ3] env2] eqn:Hloop.
  pose proof (download_chunks_store _ _ _ _ _ _ _ _ _ _ _ _ Hinv Hes Hnd Hσ2 Hloop) as Hσ3.
  destruct r1 as [[]|e|]; [|done..].
  destruct (assemble _ _ _ _ _ _ _) as [[r2 σ4] env3] eqn:Hasm.
  apply assemble_store in Hasm.
  destruct r2; simpl; rewrite ?Hasm; [|done..].
  intros p. by rewrite lookup_delete_eq.
Qed.

(** C9: a record created by [resumableDownload] has chunk ranges that tile
    [[0, totalSize)] - chunk [i] is [[i * 5 MiB, min ((i+1) * 5 MiB,
    totalSize) - 1]], the last one possibly shorter - with [downloadedSize]
    the sum of the completed range lengths; the update persisted after each
    chunk keeps both, so every record the call leaves in the store has them;
    a 12 MiB object is cut into [0-5242879], [5242880-10485759] and
    [10485760-12582911]. *)
Theorem download_record_invariant :
  (∀ totalSize, 0 ≤ totalSize →
     tiles 0 totalSize (make_chunks totalSize) ∧
     length (make_chunks totalSize) = Z.to_nat (ceil_div totalSize (5 * 1024 * 1024)) ∧
     ∀ (i : nat) c, make_chunks totalSize !! i = Some c →
       c_start c = Z.of_nat i * (5 * 1024 * 1024) ∧
       c_end c = Z.min ((Z.of_nat i + 1) * (5 * 1024 * 1024)) totalSize - 1 ∧
       c_downloaded c = false) ∧
  (∀ key fileName totalSize lastModified, 0 ≤ totalSize →
     download_invariant (fresh_download key fileName totalSize lastModified)) ∧
  (∀ p (i : nat) c,
     download_invariant p → dp_chunks p !! i = Some c → c_downloaded c = false →
     download_invariant (mark_downloaded i c p)) ∧
  (∀ key fileName env σ,
     (∀ p, downloads σ !! download_fileKey key fileName = Some p → download_invariant p) →
     ∀ p, downloads (resumableDownload key fileName env σ).1.2
            !! download_fileKey key fileName = Some p →
          download_invariant p) ∧
  chunk_range <$> make_chunks (12 * 1024 * 1024)
  = [(0, 5242879); (5242880, 10485759); (10485760, 12582911)].
Proof.
  split; [|split; [|split; [|split]]].
  - intros totalSize Hnn. split; [by apply tiles_make_chunks|]. split.
    + rewrite make_chunks_eq, length_fmap, length_seqZ. done.
    + intros i c [-> Hi]%make_chunks_lookup. simpl.
      change CHUNK_SIZE with 5242880. lia.
  - intros. by apply download_invariant_fresh.
  - intros. by apply download_invariant_mark.
  - intros key fileName env σ. apply resumableDownload_store.
  - vm_compute. reflexivity.
Qed.

(** ** The upload loop: what a failure leaves behind *)

Lemma pause_wait_s3 h env :
  ∀ σ σ' oenv, pause_wait h env σ = (σ', oenv) → s3 σ' = s3 σ.
Proof.
  induction env as [|t env IH]; intros σ σ' oenv; simpl.
  - destruct (_ && _); by intros [= <- <-].
  - destruct (_ && _); [|by intros [= <- <-]].
    intros H. apply IH in H. by rewrite H, s3_run_actions.
Qed.

Lemma failure_is_last_elem_of r new rq :
  failure_is_last r new →
  ((rq, false) ∈ new ↔ r = Threw (S3Failure rq)) ∧
  ((rq, false) ∈ new → ∃ acked, new = acked ++ [(rq, false)] ∧ acknowledged acked).
Proof.
  intros Hshape.
  assert (Hno : ∀ l, acknowledged l → (rq, false) ∉ l).
  { intros l Hl Hin. unfold acknowledged in Hl.
    eapply Forall_forall in Hl; [|exact Hin]. done. }
  assert (Hin : (rq, false) ∈ new → r = Threw (S3Failure rq)).
  { intros Hin. destruct r as [[]|[| | |rq0]|]; try (by destruct (Hno new)).
    destruct Hshape as (acked & -> & Hack).
    apply elem_of_app in Hin as [Hin|Hin%list_elem_of_singleton];
      [by destruct (Hno acked)|]. by injection Hin as ->. }
  split; [split; [done|]|].
  - intros ->. destruct Hshape as (acked & -> & _).
    apply elem_of_app. right. by apply list_elem_of_singleton.
  - intros Hr%Hin. by subst r.
Qed.

Section UploadLoop.
Variable etag_of : Blob → ETag.
Variables (file : File) (key fileKey : string) (h : nat).

Lemma wait_if_paused_inl progress env σ σ' env' :
  wait_if_paused fileKey h progress env σ = inl (σ', env') →
  s3 σ' = s3 σ ∧ (ctl_aborted h σ = false → ctl_aborted h σ' = false).
Proof.
  unfold wait_if_paused. destruct (ctl_paused h σ); [|by intros [= <- <-]].
  destruct (pause_wait _ _ _) as [σ1 [env1|]] eqn:Hw; [|done].
  destruct (ctl_aborted h σ1) eqn:Hab; [done|]. intros [= <- <-].
  split; [|done]. by apply pause_wait_s3 in Hw.
Qed.

Lemma wait_if_paused_inr progress env σ r σ' env' :
  wait_if_paused fileKey h progress env σ = inr (r, σ', env') →
  s3 σ' = s3 σ ∧ (r = Pending ∨ (r = Threw Cancelled ∧ ctl_aborted h σ' = true)).
Proof.
  unfold wait_if_paused. destruct (ctl_paused h σ); [|done].
  destruct (pause_wait _ _ _) as [σ1 [env1|]] eqn:Hw.
  - destruct (ctl_aborted h σ1) eqn:Hab; [|done]. intros [= <- <- <-].
    split; [by apply pause_wait_s3 in Hw|]. by right.
  - intros [= <- <- <-]. split; [by apply pause_wait_s3 in Hw|]. by left.
Qed.

Lemma tracks_add_part p s sess pn body :
  tracks p s → s3_sessions s !! uploadId_of p = Some sess →
  tracks (add_part pn (etag_of body) (blob_size body) p)
    {| s3_objects := s3_objects s;
       s3_sessions := <[uploadId_of p := <[pn := (etag_of body, body)]> sess]> (s3_sessions s);
       s3_next_upload := s3_next_upload s; s3_now := s3_now s;
       s3_log := s3_log s ++ [(UploadPart key pn (uploadId_of p) body, true)] |}.
Proof.
  intros (sess' & Hsess & Hparts) Hs. rewrite Hsess in Hs. injection Hs as ->.
  exists (<[pn := (etag_of body, body)]> sess). simpl. split.
  - unfold uploadId_of. simpl. apply lookup_insert_eq.
  - intros q. rewrite !lookup_insert. case_decide; [done|]. apply Hparts.
Qed.

Lemma tracks_logged p s rq ok : tracks p s → tracks p (s3_logged rq ok s).
Proof. intros (sess & ? & ?). by exists sess. Qed.

Lemma upload_parts_tracks todo :
  ∀ pn progress env σ r p' σ' env',
    tracks progress (s3 σ) →
    upload_parts etag_of file key fileKey h todo pn progress env σ = (r, p', σ', env') →
    tracks p' (s3 σ') ∧
    (r = Threw Cancelled → ctl_aborted h σ' = true) ∧
    ∃ new, s3_log (s3 σ') = s3_log (s3 σ) ++ new ∧
      match r with
      | Threw (S3Failure rq) =>
          ∃ acked, new = acked ++ [(rq, false)] ∧ acknowledged acked ∧
                   is_part_or_completion rq
      | _ => acknowledged new
      end.
Proof.
  induction todo as [|todo IH]; intros pn progress env σ r p' σ' env' Htr; simpl.
  { intros [= <- <- <- <-]. split; [done|]. split; [done|].
    exists []. rewrite app_nil_r. split; [done|constructor]. }
  destruct (ctl_aborted h σ) eqn:Hab.
  { intros [= <- <- <- <-]. split; [done|]. split; [done|].
    exists []. rewrite app_nil_r. split; [done|constructor]. }
  destruct (wait_if_paused _ _ _ _ _) as [[σ1 env1]|[[r1 σ1] env1]] eqn:Hwait.
  2:{ apply wait_if_paused_inr in Hwait as [Hs3 Hr]. intros [= <- <- <- <-].
      rewrite Hs3. split; [done|]. split; [by destruct Hr as [->|[_ ?]]|].
      exists []. rewrite app_nil_r. split; [done|].
      destruct Hr as [->|[-> _]]; constructor. }
  apply wait_if_paused_inl in Hwait as [Hs3 _].
  destruct (cp_parts progress !! pn).
  { intros Hrun. eapply IH in Hrun; [|by rewrite Hs3]. by rewrite Hs3 in Hrun. }
  destruct (next_tick env1) as [t env2].
  unfold s3_uploadPart. rewrite s3_run_actions, Hs3.
  destruct (if net_ok t then s3_sessions (s3 σ) !! uploadId_of progress else None)
    as [sess|] eqn:Hsess.
  - intros Hrun. eapply IH in Hrun as (Htr' & Hcan & new & Hlog & Hnew).
    2:{ simpl. apply tracks_add_part; [done|]. by destruct (net_ok t). }
    split; [done|]. split; [done|]. simpl in Hlog. rewrite <-app_assoc in Hlog.
    eexists. split; [exact Hlog|].
    destruct r as [|[| | |rq]|]; try (by constructor).
    destruct Hnew as (acked & -> & Hack & Hrq).
    eexists (_ :: acked). split; [done|]. split; [by constructor|done].
  - intros [= <- <- <- <-]. simpl. split; [by apply tracks_logged|]. split; [done|].
    eexists. split; [done|]. exists []. split; [done|]. split; [constructor|done].
Qed.

Lemma upload_try_tracks progress env σ r p' σ' env' :
  tracks progress (s3 σ) →
  upload_try etag_of file key fileKey h progress env σ = (r, p', σ', env') →
  (∀ e, r = Threw e → tracks p' (s3 σ')) ∧
  (r = Threw Cancelled → ctl_aborted h σ' = true) ∧
  ∃ new, s3_log (s3 σ') = s3_log (s3 σ) ++ new ∧
    match r with
    | Threw (S3Failure rq) =>
        ∃ acked, new = acked ++ [(rq, false)] ∧ acknowledged acked ∧
                 is_part_or_completion rq
    | _ => acknowledged new
    end.
Proof.
  intros Htr. unfold upload_try.
  destruct (upload_parts _ _ _ _ _ _ _ _ _ _) as [[[r1 p1] σ1] env1] eqn:Hloop.
  apply upload_parts_tracks in Hloop as (Htr1 & Hcan & new & Hlog & Hnew); [|done].
  destruct r1 as [[]|e|].
  - destruct (next_tick env1) as [t env2].
    unfold s3_completeMultipartUpload. rewrite s3_run_actions.
    destruct (if net_ok t then _ else None) as [bodies|].
    + intros [= <- <- <- <-]. split; [done|]. split; [done|]. simpl.
      eexists. rewrite Hlog, <-app_assoc. split; [done|].
      apply Forall_app. split; [done|]. by repeat constructor.
    + intros [= <- <- <- <-]. simpl. split; [intros; by apply tracks_logged|].
      split; [done|]. eexists. rewrite Hlog, <-app_assoc. split; [done|].
      eexists. split; [done|]. split; done.
  - intros [= <- <- <- <-]. split; [done|]. split; [done|]. eauto.
  - intros [= <- <- <- <-]. split; [done|]. split; [done|]. eauto.
Qed.

Lemma upload_parts_log todo :
  ∀ pn progress env σ r p' σ' env',
    upload_parts etag_of file key fileKey h todo pn progress env σ = (r, p', σ', env') →
    ∃ new, s3_log (s3 σ') = s3_log (s3 σ) ++ new ∧ failure_is_last r new.
Proof.
  induction todo as [|todo IH]; intros pn progress env σ r p' σ' env'; simpl.
  { intros [= <- <- <- <-]. exists []. rewrite app_nil_r. split; [done|constructor]. }
  destruct (ctl_aborted h σ) eqn:Hab.
  { intros [= <- <- <- <-]. exists []. rewrite app_nil_r. split; [done|constructor]. }
  destruct (wait_if_paused _ _ _ _ _) as [[σ1 env1]|[[r1 σ1] env1]] eqn:Hwait.
  2:{ apply wait_if_paused_inr in Hwait as [Hs3 Hr]. intros [= <- <- <- <-].
      rewrite Hs3. exists []. rewrite app_nil_r. split; [done|].
      destruct Hr as [->|[-> _]]; constructor. }
  apply wait_if_paused_inl in Hwait as [Hs3 _].
  destruct (cp_parts progress !! pn).
  { intros Hrun. apply IH in Hrun. by rewrite Hs3 in Hrun. }
  destruct (next_tick env1) as [t env2].
  unfold s3_uploadPart. rewrite s3_run_actions, Hs3.
  destruct (if net_ok t then s3_sessions (s3 σ) !! uploadId_of progress else None)
    as [sess|] eqn:Hsess.
  - intros Hrun. apply IH in Hrun as (new & Hlog & Hnew).
    simpl in Hlog. rewrite <-app_assoc in Hlog.
    eexists. split; [exact Hlog|].
    destruct r as [[]|[| | |rq]|]; try (by constructor).
    destruct Hnew as (acked & -> & Hack).
    exists (((UploadPart key pn (uploadId_of progress)
                (file_slice file ((pn - 1) * CHUNK_SIZE)
                   (Z.min ((pn - 1) * CHUNK_SIZE + CHUNK_SIZE) (file_size file))), true))
              :: acked).
    split; [done|]. by constructor.
  - intros [= <- <- <- <-]. simpl.
    eexists. split; [done|]. exists []. split; [done|constructor].
Qed.

Lemma upload_try_log progress env σ r p' σ' env' :
  upload_try etag_of file key fileKey h progress env σ = (r, p', σ', env') →
  ∃ new, s3_log (s3 σ') = s3_log (s3 σ) ++ new ∧ failure_is_last r new.
Proof.
  unfold upload_try.
  destruct (upload_parts _ _ _ _ _ _ _ _ _ _) as [[[r1 p1] σ1] env1] eqn:Hloop.
  apply upload_parts_log in Hloop as (new & Hlog & Hnew).
  destruct r1 as [[]|e|].
  - destruct (next_tick env1) as [t env2].
    unfold s3_completeMultipartUpload. rewrite s3_run_actions.
    destruct (if net_ok t then _ else None) as [bodies|].
    + intros [= <- <- <- <-]. simpl.
      eexists. rewrite Hlog, <-app_assoc. split; [done|].
      apply Forall_app. split; [done|]. by repeat constructor.
    + intros [= <- <- <- <-]. simpl.
      eexists. rewrite Hlog, <-app_assoc. split; [done|]. by exists new.
  - intros [= <- <- <- <-]. eauto.
  - intros [= <- <- <- <-]. eauto.
Qed.

(** The [catch] block: whatever was thrown is thrown on, the handle of the
    upload is released, and unless the upload was cancelled the record is
    saved as the loop left it. *)
Lemma upload_try_catch_outcome progress env σ r σ' env' :
  upload_try_catch etag_of file key fileKey h progress env σ = (r, σ', env') →
  (∃ new, s3_log (s3 σ') = s3_log (s3 σ) ++ new ∧ failure_is_last r new) ∧
  (∀ e, r = Threw e →
     activeUploads σ' !! fileKey = None ∧
     (ctl_aborted h σ' = false →
      ∃ p, uploads σ' !! fileKey = Some p ∧
           (tracks progress (s3 σ) → tracks p (s3 σ')))).
Proof.
  unfold upload_try_catch.
  destruct (upload_try _ _ _ _ _ _ _ _) as [[[r1 p1] σ1] env1] eqn:Htry.
  pose proof (upload_try_log _ _ _ _ _ _ _ Htry) as Hlog.
  destruct r1 as [[]|e|].
  - intros [= <- <- <-]. by split.
  - intros [= <- <- <-]. split.
    { by destruct (ctl_aborted h σ1). }
    intros e' [= <-]. split.
    { destruct (ctl_aborted h σ1); apply lookup_delete_eq. }
    destruct (ctl_aborted h σ1) eqn:E; intros Hab.
    { unfold ctl_aborted in *. simpl in Hab. congruence. }
    exists p1. simpl. split; [apply lookup_insert_eq|].
    intros Htr. by eapply (upload_try_tracks _ _ _ _ _ _ _ Htr Htry).
  - intros [= <- <- <-]. by split.
Qed.

End UploadLoop.

Section UploadErrors.
Variable etag_of : Blob → ETag.



Lemma resumableUpload_outcome (file : File) (key : string) (env : Env) (σ : Service)
    (r : Result unit) (σ' : Service) (env' : Env) :
  resumableUpload etag_of file key env σ = (r, σ', env') →
  failure_is_last r (requests_since (s3 σ) (s3 σ')) ∧
  (∀ rq, r = Threw (S3Failure rq) → is_part_or_completion rq →
     activeUploads σ' !! upload_fileKey key file = None ∧
     (ctl_aborted (next_controller σ) σ' = false →
      ∃ p, uploads σ' !! upload_fileKey key file = Some p ∧
           ((∀ p0, uploads σ !! upload_fileKey key file = Some p0 → tracks p0 (s3 σ)) →
            tracks p (s3 σ')))).
Proof.
  unfold resumableUpload, requests_since.
  set (fk := upload_fileKey key file).
  assert (Hs3 : s3 (checkS3Configuration σ) = s3 σ)
    by (unfold checkS3Configuration; by destruct (s3Service_configured σ)).
  assert (Hup : uploads (checkS3Configuration σ) = uploads σ)
    by (unfold checkS3Configuration; by destruct (s3Service_configured σ)).
  assert (Hnc : next_controller (checkS3Configuration σ) = next_controller σ)
    by (unfold checkS3Configuration; by destruct (s3Service_configured σ)).
  destruct (negb (svc_has_s3 (checkS3Configuration σ))).
  { intros [= <- <- <-]. rewrite Hs3, drop_ge by done. split; [constructor|done]. }
  destruct (file_size file <? RESUMABLE_THRESHOLD).
  { intros [= <- <- <-]. rewrite Hs3, drop_ge by done. split; [constructor|done]. }
  unfold loadUploadProgress. rewrite Hup. simpl. rewrite Hnc.
  set (h := next_controller σ).
  assert (Hfinish : ∀ progress env0 σ0 pre,
    s3_log (s3 σ0) = s3_log (s3 σ) ++ pre → acknowledged pre →
    upload_try_catch etag_of file key fk h progress env0 σ0 = (r, σ', env') →
    failure_is_last r (drop (length (s3_log (s3 σ))) (s3_log (s3 σ'))) ∧
    (∀ rq, r = Threw (S3Failure rq) → is_part_or_completion rq →
       activeUploads σ' !! fk = None ∧
       (ctl_aborted h σ' = false →
        ∃ p, uploads σ' !! fk = Some p ∧ (tracks progress (s3 σ0) → tracks p (s3 σ'))))).
  { intros progress env0 σ0 pre Hlog0 Hpre Htc.
    apply upload_try_catch_outcome in Htc as ((new & Hlog & Hnew) & Hthrew).
    rewrite Hlog, Hlog0, <-app_assoc, drop_app_length. split.
    - destruct r as [[]|[| | |rq]|]; try (by apply Forall_app).
      destruct Hnew as (acked & -> & Hack). exists (pre ++ acked).
      rewrite app_assoc. split; [done|]. by apply Forall_app.
    - intros rq -> _. by apply (Hthrew (S3Failure rq)). }
  destruct (uploads σ !! fk) as [p|] eqn:Hp.
  - destruct (negb (bool_decide (cp_totalSize p = file_size file))
              || negb (bool_decide (cp_fileName p = file_name file))).
    + destruct (next_tick env) as [t env1].
      unfold s3_createMultipartUpload. rewrite s3_run_actions.
      simpl. rewrite Hs3.
      destruct (net_ok t).
      * intros Hrun.
        apply (Hfinish _ _ _ [(CreateMultipartUpload key, true)]) in Hrun
          as [Hshape Hrest]; [|done|by repeat constructor].
        split; [done|]. intros rq Hr Hrq. destruct (Hrest rq Hr Hrq) as [Hact Hsaved].
        split; [done|]. intros Hab. destruct (Hsaved Hab) as (p1 & Hp1 & Htr).
        exists p1. split; [done|]. intros _. apply Htr.
        eexists. simpl. split; [apply lookup_insert_eq|]. intros pn.
        by rewrite !lookup_empty.
      * intros [= <- <- <-]. simpl. rewrite drop_app_length.
        split; [|by intros rq [= <-] []].
        exists []. split; [done|constructor].
    + intros Hrun.
      apply (Hfinish _ _ _ []) in Hrun as [Hshape Hrest];
        [| by (simpl; rewrite Hs3, app_nil_r) | constructor].
      split; [done|]. intros rq Hr Hrq. destruct (Hrest rq Hr Hrq) as [Hact Hsaved].
      split; [done|]. intros Hab. destruct (Hsaved Hab) as (p1 & Hp1 & Htr).
      exists p1. split; [done|]. intros Hstored. apply Htr. simpl. rewrite Hs3.
      by apply Hstored.
  - destruct (next_tick env) as [t env1].
    unfold s3_createMultipartUpload. rewrite s3_run_actions.
    simpl. rewrite Hs3.
    destruct (net_ok t).
    + intros Hrun.
      apply (Hfinish _ _ _ [(CreateMultipartUpload key, true)]) in Hrun
        as [Hshape Hrest]; [|done|by repeat constructor].
      split; [done|]. intros rq Hr Hrq. destruct (Hrest rq Hr Hrq) as [Hact Hsaved].
      split; [done|]. intros Hab. destruct (Hsaved Hab) as (p1 & Hp1 & Htr).
      exists p1. split; [done|]. intros _. apply Htr.
      eexists. simpl. split; [apply lookup_insert_eq|]. intros pn.
      by rewrite !lookup_empty.
    + intros [= <- <- <-]. simpl. rewrite drop_app_length.
        split; [|by intros rq [= <-] []].
      exists []. split; [done|constructor].
Qed.

(** C8: a part upload or completion request of [resumableUpload] fails
    exactly when the call throws that failure to its caller.  The failed
    request is then the last one the call issued - nothing is retried, and
    every other request of the call was acknowledged - and the handle of
    the upload is released.  Unless the upload was cancelled, the record is
    in the store afterwards, and it lists exactly the parts the store holds
    for the session. *)
Theorem upload_failure_persists (file : File) (key : string) (env : Env)
    (σ : Service) :
  let run := resumableUpload etag_of file key env σ in
  let sent := requests_since (s3 σ) (s3 run.1.2) in
  (∀ rq, (rq, false) ∈ sent ↔ run.1.1 = Threw (S3Failure rq)) ∧
  (∀ rq, (rq, false) ∈ sent →
     ∃ acked, sent = acked ++ [(rq, false)] ∧ acknowledged acked) ∧
  (∀ rq, (rq, false) ∈ sent → is_part_or_completion rq →
     activeUploads run.1.2 !! upload_fileKey key file = None ∧
     (ctl_aborted (next_controller σ) run.1.2 = false →
      ∃ p, uploads run.1.2 !! upload_fileKey key file = Some p ∧
           ((∀ p0, uploads σ !! upload_fileKey key file = Some p0 → tracks p0 (s3 σ)) →
            tracks p (s3 run.1.2)))).
Proof.
  intros run sent. subst run sent.
  destruct (resumableUpload etag_of file key env σ) as [[r σ'] env'] eqn:Hrun.
  cbn [fst snd].
  apply resumableUpload_outcome in Hrun as [Hshape Hrest].
  split; [|split].
  - intros rq. by destruct (failure_is_last_elem_of r _ rq Hshape).
  - intros rq. by destruct (failure_is_last_elem_of r _ rq Hshape).
  - intros rq Hin Hrq. apply (Hrest rq); [|done].
    by apply (failure_is_last_elem_of r _ rq Hshape).
Qed.


End UploadErrors.


(** ** The upload loop when nobody interferes *)

Section QuietUpload.
Variable etag_of : Blob → ETag.
Variables (file : File) (key fileKey : string) (h : nat).

Lemma upload_parts_idle_S todo pn progress env σ :
  idle h σ →
  upload_parts etag_of file key fileKey h (S todo) pn progress env σ =
  match cp_parts progress !! pn with
  | Some _ => upload_parts etag_of file key fileKey h todo (pn + 1) progress env σ
  | None =>
      let '(t, env) := next_tick env in
      let σ := run_actions (during t) σ in
      match s3_uploadPart etag_of key pn (uploadId_of progress) (part_bytes file pn)
              (net_ok t) (s3 σ) with
      | (Some tag, s) =>
          let progress := add_part pn tag (blob_size (part_bytes file pn)) progress in
          upload_parts etag_of file key fileKey h todo (pn + 1) progress env
            (saveUploadProgress fileKey progress (set_s3 s σ))
      | (None, s) =>
          (Threw (S3Failure (UploadPart key pn (uploadId_of progress) (part_bytes file pn))),
           progress, set_s3 s σ, env)
      end
  end.
Proof.
  intros [Hp Ha]. simpl. rewrite Ha. unfold wait_if_paused. rewrite Hp. reflexivity.
Qed.

Lemma parts_below_uploadPart b p s :
  1 ≤ b → parts_below etag_of file b p s →
  ∃ s', s3_uploadPart etag_of key b (uploadId_of p) (part_bytes file b) true s
        = (Some (etag_of (part_bytes file b)), s') ∧
        parts_below etag_of file (b + 1)
          (add_part b (etag_of (part_bytes file b)) (blob_size (part_bytes file b)) p) s' ∧
        s3_log s' = s3_log s ++ [(UploadPart key b (uploadId_of p) (part_bytes file b), true)] ∧
        s3_objects s' = s3_objects s.
Proof.
  intros Hb1 (sess & Hsess & Hparts). unfold s3_uploadPart. rewrite Hsess.
  eexists. split; [done|]. split; [|done].
  exists (<[b := (etag_of (part_bytes file b), part_bytes file b)]> sess). simpl. split.
  - unfold uploadId_of. simpl. apply lookup_insert_eq.
  - intros q. rewrite !lookup_insert. destruct (Hparts q) as [-> ->].
    destruct (decide (b = q)) as [->|]; repeat case_decide; try done; lia.
Qed.

Lemma parts_below_present b p s q :
  parts_below etag_of file b p s → is_Some (cp_parts p !! q) ↔ 1 ≤ q < b.
Proof.
  intros (sess & _ & Hparts). destruct (Hparts q) as [_ ->].
  case_decide; split; done.
Qed.

(** With a quiet environment the loop uploads exactly the missing parts. *)
Lemma upload_parts_quiet todo :
  ∀ pn b progress σ,
    idle h σ → 1 ≤ pn ≤ b → parts_below etag_of file b progress (s3 σ) →
    ∃ p' σ',
      upload_parts etag_of file key fileKey h todo pn progress [] σ
      = (Returned tt, p', σ', []) ∧
      parts_below etag_of file (Z.max b (pn + Z.of_nat todo)) p' (s3 σ') ∧
      uploadId_of p' = uploadId_of progress ∧
      s3_log (s3 σ') = s3_log (s3 σ) ++
        part_uploads etag_of file key (uploadId_of progress) b (pn + Z.of_nat todo - b) ∧
      idle h σ' ∧ activeUploads σ' = activeUploads σ ∧
      s3_objects (s3 σ') = s3_objects (s3 σ) ∧
      (∀ k, k ≠ fileKey → uploads σ' !! k = uploads σ !! k).
Proof.
  unfold part_uploads.
  induction todo as [|todo IH]; intros pn b progress σ Hidle Hpn Hbelow.
  { exists progress, σ. simpl. rewrite Z.max_l by lia. rewrite seqZ_nil by lia.
    rewrite app_nil_r. done. }
  rewrite upload_parts_idle_S by done.
  destruct (cp_parts progress !! pn) as [info|] eqn:Hpart.
  - assert (pn < b) by (apply (parts_below_present b progress (s3 σ) pn); eauto).
    destruct (IH (pn + 1) b progress σ) as (p' & σ' & Hrun & Hb & Hid & Hlog & Hrest);
      [done|lia|done|].
    exists p', σ'. split; [done|].
    replace (pn + 1 + Z.of_nat todo) with (pn + Z.of_nat (S todo)) in * by lia. done.
  - assert (pn = b) as ->.
    { destruct (decide (pn < b)); [|lia].
      assert (is_Some (cp_parts progress !! pn)) as [? ?]
        by (apply (parts_below_present b progress (s3 σ) pn); [done|lia]).
      congruence. }
    simpl.
    destruct (parts_below_uploadPart b progress (s3 σ) ltac:(lia) Hbelow)
      as (s' & -> & Hb' & Hlog' & Hobj').
    set (p1 := add_part b _ _ progress).
    destruct (IH (b + 1) (b + 1) p1 (saveUploadProgress fileKey p1 (set_s3 s' σ)))
      as (p' & σ' & Hrun & Hb & Hid & Hlog & Hidle' & Hact & Hobj & Hframe);
      [done|lia|done|].
    exists p', σ'. split; [done|].
    replace (Z.max (b + 1) (b + 1 + Z.of_nat todo)) with (Z.max b (b + Z.of_nat (S todo)))
      in Hb by lia.
    split; [done|]. split; [done|]. split.
    { rewrite Hlog. simpl. rewrite Hlog', <-app_assoc. f_equal.
      rewrite (seqZ_cons b) by lia. rewrite fmap_cons. simpl. f_equal.
      f_equal. f_equal; lia. }
    split; [done|]. split; [done|]. split.
    { by rewrite Hobj. }
    intros k Hk. rewrite Hframe by done. simpl. by rewrite lookup_insert_ne.
Qed.

(** A failing request stops the loop at the first missing part it cannot
    upload. *)
Lemma upload_parts_failing todo :
  ∀ pn b progress σ (j : nat) rest,
    idle h σ → 1 ≤ pn ≤ b → parts_below etag_of file b progress (s3 σ) →
    b + Z.of_nat j < pn + Z.of_nat todo →
    ∃ p' σ',
      upload_parts etag_of file key fileKey h todo pn progress
        (replicate j quiet ++ failing :: rest) σ
      = (Threw (S3Failure (UploadPart key (b + Z.of_nat j) (uploadId_of progress)
                             (part_bytes file (b + Z.of_nat j)))),
         p', σ', rest) ∧
      parts_below etag_of file (b + Z.of_nat j) p' (s3 σ') ∧
      uploadId_of p' = uploadId_of progress ∧
      cp_totalSize p' = cp_totalSize progress ∧
      cp_fileName p' = cp_fileName progress ∧
      s3_log (s3 σ') = s3_log (s3 σ) ++
        part_uploads etag_of file key (uploadId_of progress) b (Z.of_nat j) ++
        [(UploadPart key (b + Z.of_nat j) (uploadId_of progress)
            (part_bytes file (b + Z.of_nat j)), false)] ∧
      idle h σ' ∧ activeUploads σ' = activeUploads σ ∧
      s3Service_configured σ' = s3Service_configured σ ∧
      svc_has_s3 σ' = svc_has_s3 σ ∧
      (∀ k, k ≠ fileKey → uploads σ' !! k = uploads σ !! k).
Proof.
  unfold part_uploads.
  induction todo as [|todo IH]; intros pn b progress σ j rest Hidle Hpn Hbelow Hj; [lia|].
  rewrite upload_parts_idle_S by done.
  destruct (cp_parts progress !! pn) as [info|] eqn:Hpart.
  - assert (pn < b) by (apply (parts_below_present b progress (s3 σ) pn); eauto).
    apply IH; [done|lia|done|lia].
  - assert (pn = b) as ->.
    { destruct (decide (pn < b)); [|lia].
      assert (is_Some (cp_parts progress !! pn)) as [? ?]
        by (apply (parts_below_present b progress (s3 σ) pn); [done|lia]).
      congruence. }
    destruct j as [|j]; simpl.
    + exists progress, (set_s3 (s3_logged (UploadPart key b (uploadId_of progress)
                                              (part_bytes file b)) false (s3 σ)) σ).
      unfold s3_uploadPart. simpl. rewrite Z.add_0_r.
      split; [done|]. split; [|done].
      destruct Hbelow as (sess & ? & ?). by exists sess.
    + destruct (parts_below_uploadPart b progress (s3 σ) ltac:(lia) Hbelow)
        as (s' & -> & Hb' & Hlog' & Hobj').
      set (p1 := add_part b _ _ progress).
      destruct (IH (b + 1) (b + 1) p1 (saveUploadProgress fileKey p1 (set_s3 s' σ)) j rest)
        as (p' & σ' & Hrun & Hb & Hid & Hts & Hfn & Hlog & Hidle' & Hact & Hc1 & Hc2 & Hframe);
        [done|lia|done|lia|].
      replace (b + 1 + Z.of_nat j) with (b + Z.of_nat (S j)) in * by lia.
      exists p', σ'. split; [done|]. split; [done|]. do 3 (split; [done|]). split.
      { rewrite Hlog. simpl. rewrite Hlog', <-!app_assoc. f_equal.
        rewrite (seqZ_cons b) by lia. rewrite fmap_cons. simpl. f_equal.
        f_equal. f_equal. f_equal; lia. }
      do 4 (split; [done|]).
      intros k Hk. rewrite Hframe by done. simpl. by rewrite lookup_insert_ne.
Qed.

(** *** The completion manifest *)

Lemma StronglySorted_seqZ (len : nat) :
  ∀ m, StronglySorted Z.le (seqZ m (Z.of_nat len)).
Proof.
  induction len as [|len IH]; intros m.
  - rewrite seqZ_nil by lia. constructor.
  - rewrite seqZ_cons by lia. replace (Z.pred (Z.of_nat (S len))) with (Z.of_nat len) by lia.
    constructor; [apply IH|]. apply Forall_forall. intros x Hx%elem_of_seqZ. lia.
Qed.

Lemma sorted_part_numbers {A} (m : gmap Z A) n :
  0 ≤ n → (∀ q, is_Some (m !! q) ↔ 1 ≤ q < n + 1) →
  merge_sort Z.le (map_to_list m).*1 = seqZ 1 n.
Proof.
  intros Hn Hdom. apply (StronglySorted_unique Z.le).
  - apply (StronglySorted_merge_sort Z.le).
  - rewrite <-(Z2Nat.id n) by done. apply StronglySorted_seqZ.
  - rewrite merge_sort_Permutation. apply NoDup_Permutation.
    + apply NoDup_fst_map_to_list.
    + apply NoDup_seqZ.
    + intros q. rewrite elem_of_seqZ, (Z.add_comm 1 n), <-Hdom, list_elem_of_fmap. split.
      * intros ([q' x] & -> & Hin%elem_of_map_to_list). by exists x.
      * intros [x Hx]. exists (q, x). split; [done|]. by apply elem_of_map_to_list.
Qed.

Lemma manifest_of_parts_below n p s :
  0 ≤ n → parts_below etag_of file (n + 1) p s →
  manifest_of p = (λ q, (etag_of (part_bytes file q), q)) <$> seqZ 1 n.
Proof.
  intros Hn Hbelow. unfold manifest_of.
  rewrite (sorted_part_numbers _ n Hn).
  2:{ intros q. by apply (parts_below_present (n + 1) p s). }
  destruct Hbelow as (sess & _ & Hparts).
  assert (Hall : ∀ q, q ∈ seqZ 1 n → 1 ≤ q < n + 1) by (intros q Hq%elem_of_seqZ; lia).
  induction (seqZ 1 n) as [|q l IH]; [done|].
  simpl. destruct (Hparts q) as [_ ->].
  rewrite decide_True by (apply Hall; left). simpl. f_equal.
  apply IH. intros q' Hq'. apply Hall. by right.
Qed.

Lemma manifest_bodies_parts_below n p s sess :
  parts_below etag_of file (n + 1) p s →
  s3_sessions s !! uploadId_of p = Some sess →
  manifest_bodies sess ((λ q, (etag_of (part_bytes file q), q)) <$> seqZ 1 n)
  = Some (part_bytes file <$> seqZ 1 n).
Proof.
  intros (sess' & Hs & Hparts) Hsess. rewrite Hs in Hsess. injection Hsess as ->.
  assert (Hall : ∀ q, q ∈ seqZ 1 n → 1 ≤ q < n + 1) by (intros q Hq%elem_of_seqZ; lia).
  induction (seqZ 1 n) as [|q l IH]; [done|].
  rewrite !fmap_cons. cbn [manifest_bodies]. destruct (Hparts q) as [-> _].
  rewrite decide_True by (apply Hall; left).
  rewrite decide_True by done. rewrite IH; [done|].
  intros q' Hq'. apply Hall. by right.
Qed.

Lemma part_bytes_chunk q :
  part_bytes file q = chunk_bytes (file_content file) (chunk_at (file_size file) (q - 1)).
Proof.
  unfold part_bytes, chunk_bytes, chunk_at, file_slice. simpl. f_equal. lia.
Qed.

Lemma concat_part_bytes :
  real_file file →
  concat (part_bytes file <$> seqZ 1 (ceil_div (file_size file) CHUNK_SIZE))
  = file_content file.
Proof.
  intros Hreal.
  replace (part_bytes file <$> seqZ 1 (ceil_div (file_size file) CHUNK_SIZE))
    with (chunk_bytes (file_content file) <$> make_chunks (file_size file)).
  - rewrite (concat_tiles _ _ 0); [done|done|]. rewrite <-Hreal.
    apply tiles_make_chunks. rewrite Hreal. unfold blob_size. lia.
  - rewrite make_chunks_eq, <-list_fmap_compose.
    rewrite <-(fmap_add_seqZ 1 0), <-list_fmap_compose.
    apply list_fmap_ext. intros i q _. simpl. rewrite part_bytes_chunk.
    do 2 f_equal. lia.
Qed.

Lemma upload_try_catch_quiet progress σ b :
  real_file file → idle h σ →
  1 ≤ b ≤ ceil_div (file_size file) CHUNK_SIZE + 1 →
  parts_below etag_of file b progress (s3 σ) →
  ∃ σ',
    upload_try_catch etag_of file key fileKey h progress [] σ = (Returned tt, σ', []) ∧
    object_body key (s3 σ') = Some (file_content file) ∧
    s3_log (s3 σ') = s3_log (s3 σ) ++
      part_uploads etag_of file key (uploadId_of progress) b
        (ceil_div (file_size file) CHUNK_SIZE + 1 - b) ++
      [(CompleteMultipartUpload key (uploadId_of progress)
          ((λ q, (etag_of (part_bytes file q), q))
             <$> seqZ 1 (ceil_div (file_size file) CHUNK_SIZE)), true)] ∧
    uploads σ' !! fileKey = None ∧
    activeUploads σ' !! fileKey = None ∧
    (∀ k, k ≠ fileKey → uploads σ' !! k = uploads σ !! k).
Proof.
  set (n := ceil_div (file_size file) CHUNK_SIZE).
  intros Hreal Hidle Hb Hbelow. unfold upload_try_catch, upload_try. fold n.
  destruct (upload_parts_quiet (Z.to_nat n) 1 b progress σ Hidle ltac:(lia) Hbelow)
    as (p' & σ1 & -> & Hb' & Hid & Hlog & Hidle1 & Hact & Hobj & Hframe).
  rewrite Z2Nat.id in Hb', Hlog by lia.
  replace (Z.max b (1 + n)) with (n + 1) in Hb' by lia.
  replace (1 + n - b) with (n + 1 - b) in Hlog by lia.
  simpl. rewrite (manifest_of_parts_below n p' (s3 σ1)) by (done || lia).
  unfold s3_completeMultipartUpload.
  destruct Hb' as (sess & Hsess & Hparts).
  rewrite Hsess. simpl.
  rewrite (manifest_bodies_parts_below n p' (s3 σ1) sess); [|by exists sess|done].
  eexists. split; [done|]. simpl. split.
  { unfold object_body. simpl. rewrite lookup_insert_eq. simpl. unfold n.
    by rewrite concat_part_bytes. }
  split. { by rewrite Hlog, Hid, <-app_assoc. }
  split; [apply lookup_delete_eq|]. split; [apply lookup_delete_eq|].
  intros k Hk. rewrite lookup_delete_ne by done. by apply Hframe.
Qed.

Lemma upload_try_catch_failing progress σ b (j : nat) rest :
  idle h σ → 1 ≤ b → parts_below etag_of file b progress (s3 σ) →
  b + Z.of_nat j < ceil_div (file_size file) CHUNK_SIZE + 1 →
  ∃ p' σ',
    upload_try_catch etag_of file key fileKey h progress
      (replicate j quiet ++ failing :: rest) σ
    = (Threw (S3Failure (UploadPart key (b + Z.of_nat j) (uploadId_of progress)
                           (part_bytes file (b + Z.of_nat j)))),
       σ', rest) ∧
    uploads σ' !! fileKey = Some p' ∧
    parts_below etag_of file (b + Z.of_nat j) p' (s3 σ') ∧
    cp_totalSize p' = cp_totalSize progress ∧
    cp_fileName p' = cp_fileName progress ∧
    s3_log (s3 σ') = s3_log (s3 σ) ++
      part_uploads etag_of file key (uploadId_of progress) b (Z.of_nat j) ++
      [(UploadPart key (b + Z.of_nat j) (uploadId_of progress)
          (part_bytes file (b + Z.of_nat j)), false)] ∧
    s3Service_configured σ' = s3Service_configured σ ∧
    idle h σ' ∧
    (∀ k, k ≠ fileKey → uploads σ' !! k = uploads σ !! k).
Proof.
  set (n := ceil_div (file_size file) CHUNK_SIZE).
  intros Hidle Hb Hbelow Hj. unfold upload_try_catch, upload_try. fold n.
  destruct (upload_parts_failing (Z.to_nat n) 1 b progress σ j rest Hidle
              ltac:(lia) Hbelow ltac:(lia))
    as (p' & σ1 & -> & Hb' & Hid & Hts & Hfn & Hlog & [Hp1 Ha1] & Hact & Hc1 & Hc2 & Hframe).
  rewrite Ha1. eexists p', _. split; [done|]. simpl.
  split; [apply lookup_insert_eq|]. do 5 (split; [done|]). split; [by split|].
  intros k Hk. rewrite lookup_insert_ne by done. by apply Hframe.
Qed.

End QuietUpload.

(** ** Identities *)

Lemma pretty_N_go_free x :
  ∀ s, free_of "_" s → free_of "_" (pretty_N_go x s).
Proof.
  induction (N.lt_wf_0 x) as [x _ IH]. intros s Hs.
  destruct (decide (0 < x)%N) as [Hx|Hx].
  - rewrite pretty_N_go_step by done. apply IH; [by apply N.div_lt|].
    split; [|done]. unfold pretty_N_char. by repeat case_match.
  - replace x with 0%N by lia. by rewrite pretty_N_go_0.
Qed.

Lemma pretty_Z_free (z : Z) : free_of "_" (pretty z).
Proof.
  destruct z as [|x|x]; unfold pretty, pretty_Z.
  - by split.
  - unfold pretty, pretty_positive, pretty, pretty_N. simpl.
    by apply pretty_N_go_free.
  - split; [done|]. unfold pretty, pretty_positive, pretty, pretty_N. simpl.
    by apply pretty_N_go_free.
Qed.

Lemma app_underscore_inj a b x y :
  free_of "_" a → free_of "_" b →
  a +:+ "_" +:+ x = b +:+ "_" +:+ y → a = b ∧ x = y.
Proof.
  revert b. induction a as [|c a IH]; intros [|c' b] Ha Hb Heq.
  - by injection Heq.
  - injection Heq as <- _. by destruct Hb.
  - injection Heq as -> _. by destruct Ha.
  - injection Heq as <- Heq. destruct Ha as [_ Ha], Hb as [_ Hb].
    destruct (IH b Ha Hb Heq) as [-> ->]. done.
Qed.

Lemma upload_fileKey_inj key f f' :
  file_name f = file_name f' →
  upload_fileKey key f = upload_fileKey key f' →
  file_size f = file_size f' ∧ file_lastModified f = file_lastModified f'.
Proof.
  unfold upload_fileKey. intros <- Heq.
  apply (inj (String.app key)) in Heq. apply (inj (String.app "_")) in Heq.
  apply (inj (String.app (file_name f))) in Heq. apply (inj (String.app "_")) in Heq.
  apply app_underscore_inj in Heq as [Hs Hl]; [|apply pretty_Z_free..].
  split; by apply (inj pretty).
Qed.

(** ** Whole uploads *)

Lemma part_requests_part_uploads etag_of file key id b len rest :
  part_requests (part_uploads etag_of file key id b len ++ rest)
  = seqZ b len ++ part_requests rest.
Proof.
  unfold part_requests, part_uploads. rewrite omap_app. f_equal.
  induction (seqZ b len) as [|q l IH]; [done|].
  rewrite fmap_cons. cbn [omap list_omap fst]. f_equal. exact IH.
Qed.

Lemma requests_since_app s s' new :
  s3_log s' = s3_log s ++ new → requests_since s s' = new.
Proof. unfold requests_since. intros ->. by rewrite drop_app_length. Qed.

Section WholeUpload.
Variable etag_of : Blob → ETag.
Variables (file : File) (key : string).

Lemma resumableUpload_fresh env σ :
  s3Service_configured σ = true →
  RESUMABLE_THRESHOLD ≤ file_size file →
  uploads σ !! upload_fileKey key file = None →
  resumableUpload etag_of file key env σ =
  let fileKey := upload_fileKey key file in
  let σr := (register_controller fileKey (set_has_s3 true σ)).2 in
  let '(t, env) := next_tick env in
  let σ1 := run_actions (during t) σr in
  match s3_createMultipartUpload key (net_ok t) (s3 σ1) with
  | (Some id, s) =>
      upload_try_catch etag_of file key fileKey (next_controller σ)
        (fresh_progress file key id) env (set_s3 s σ1)
  | (None, s) => (Threw (S3Failure (CreateMultipartUpload key)), set_s3 s σ1, env)
  end.
Proof.
  intros Hcfg Hsize Hnone. unfold resumableUpload, checkS3Configuration.
  rewrite Hcfg. simpl. rewrite (proj2 (Z.ltb_ge _ _) Hsize).
  unfold loadUploadProgress. simpl. rewrite Hnone. reflexivity.
Qed.

Lemma resumableUpload_resume env σ p :
  s3Service_configured σ = true →
  RESUMABLE_THRESHOLD ≤ file_size file →
  uploads σ !! upload_fileKey key file = Some p →
  cp_totalSize p = file_size file → cp_fileName p = file_name file →
  resumableUpload etag_of file key env σ =
  upload_try_catch etag_of file key (upload_fileKey key file) (next_controller σ) p env
    (register_controller (upload_fileKey key file) (set_has_s3 true σ)).2.
Proof.
  intros Hcfg Hsize Hp Hts Hfn. unfold resumableUpload, checkS3Configuration.
  rewrite Hcfg. simpl. rewrite (proj2 (Z.ltb_ge _ _) Hsize).
  unfold loadUploadProgress. simpl. rewrite Hp.
  rewrite !bool_decide_eq_true_2 by done. reflexivity.
Qed.

Lemma idle_registered fileKey σ :
  idle (next_controller σ) (register_controller fileKey (set_has_s3 true σ)).2.
Proof. unfold idle, ctl_paused, ctl_aborted. simpl. by rewrite lookup_insert_eq. Qed.

Lemma parts_below_fresh id s :
  parts_below etag_of file 1 (fresh_progress file key id)
    {| s3_objects := s3_objects s; s3_sessions := <[id := ∅]> (s3_sessions s);
       s3_next_upload := N.succ id; s3_now := s3_now s;
       s3_log := s3_log s ++ [(CreateMultipartUpload key, true)] |}.
Proof.
  exists ∅. simpl. split; [apply lookup_insert_eq|]. intros q.
  rewrite !lookup_empty. rewrite !decide_False by lia. done.
Qed.

Lemma threshold_chunks :
  RESUMABLE_THRESHOLD ≤ file_size file → 2 ≤ ceil_div (file_size file) CHUNK_SIZE.
Proof.
  pose proof (ceil_div_CHUNK_SIZE (file_size file)).
  change RESUMABLE_THRESHOLD with 10485760. change CHUNK_SIZE with 5242880 in *. lia.
Qed.

(** An upload nobody interferes with, starting without a record. *)
Lemma resumableUpload_single_pass σ :
  s3Service_configured σ = true → real_file file →
  RESUMABLE_THRESHOLD ≤ file_size file →
  uploads σ !! upload_fileKey key file = None →
  ∃ σ',
    resumableUpload etag_of file key [] σ = (Returned tt, σ', []) ∧
    object_body key (s3 σ') = Some (file_content file) ∧
    requests_since (s3 σ) (s3 σ') =
      (CreateMultipartUpload key, true) ::
      part_uploads etag_of file key (s3_next_upload (s3 σ)) 1
        (ceil_div (file_size file) CHUNK_SIZE) ++
      [(CompleteMultipartUpload key (s3_next_upload (s3 σ))
          ((λ q, (etag_of (part_bytes file q), q))
             <$> seqZ 1 (ceil_div (file_size file) CHUNK_SIZE)), true)] ∧
    (∀ k, k ≠ upload_fileKey key file → uploads σ' !! k = uploads σ !! k).
Proof.
  intros Hcfg Hreal Hsize Hnone. pose proof (threshold_chunks Hsize) as Hn.
  rewrite resumableUpload_fresh by done. simpl.
  set (fk := upload_fileKey key file).
  edestruct (upload_try_catch_quiet etag_of file key fk (next_controller σ))
    as (σ' & -> & Hobj & Hlog & Hgone & Hact & Hframe);
    [done|apply idle_registered| |apply parts_below_fresh|]; [lia|].
  exists σ'. split; [done|]. split; [done|]. split; [|done].
  apply requests_since_app. rewrite Hlog. simpl. rewrite <-app_assoc. simpl.
  replace (ceil_div (file_size file) CHUNK_SIZE + 1 - 1)
    with (ceil_div (file_size file) CHUNK_SIZE) by lia. done.
Qed.

(** An upload whose request for part [k+1] fails. *)
Lemma resumableUpload_interrupted σ (k : nat) :
  s3Service_configured σ = true →
  RESUMABLE_THRESHOLD ≤ file_size file →
  uploads σ !! upload_fileKey key file = None →
  Z.of_nat k < ceil_div (file_size file) CHUNK_SIZE →
  ∃ p' σ',
    resumableUpload etag_of file key (replicate (S k) quiet ++ [failing]) σ
    = (Threw (S3Failure (UploadPart key (Z.of_nat k + 1) (s3_next_upload (s3 σ))
                           (part_bytes file (Z.of_nat k + 1)))), σ', []) ∧
    uploads σ' !! upload_fileKey key file = Some p' ∧
    parts_below etag_of file (Z.of_nat k + 1) p' (s3 σ') ∧
    cp_totalSize p' = file_size file ∧ cp_fileName p' = file_name file ∧
    s3Service_configured σ' = true ∧
    ctl_aborted (next_controller σ) σ' = false ∧
    requests_since (s3 σ) (s3 σ') =
      (CreateMultipartUpload key, true) ::
      part_uploads etag_of file key (s3_next_upload (s3 σ)) 1 (Z.of_nat k) ++
      [(UploadPart key (Z.of_nat k + 1) (s3_next_upload (s3 σ))
          (part_bytes file (Z.of_nat k + 1)), false)].
Proof.
  intros Hcfg Hsize Hnone Hk.
  rewrite resumableUpload_fresh by done. simpl.
  set (fk := upload_fileKey key file).
  match goal with
  | |- context [upload_try_catch _ _ _ _ _ ?p0 _ ?σ0] =>
      destruct (upload_try_catch_failing etag_of file key fk (next_controller σ)
                  p0 σ0 1 k [])
        as (p' & σ' & Hrun & Hp' & Hb & Hts & Hfn & Hlog & Hc1 & Hc2 & Hframe);
        [apply idle_registered|lia|apply parts_below_fresh|lia|]
  end.
  replace (1 + Z.of_nat k) with (Z.of_nat k + 1) in * by lia.
  exists p', σ'. split; [exact Hrun|]. do 4 (split; [done|]). split; [by rewrite Hc1|].
  split; [by destruct Hc2|].
  apply requests_since_app. rewrite Hlog. simpl. by rewrite <-app_assoc.
Qed.

(** An upload nobody interferes with, resuming from a record of the parts
    below [b]. *)
Lemma resumableUpload_resumed σ p b :
  s3Service_configured σ = true → real_file file →
  RESUMABLE_THRESHOLD ≤ file_size file →
  uploads σ !! upload_fileKey key file = Some p →
  cp_totalSize p = file_size file → cp_fileName p = file_name file →
  1 ≤ b ≤ ceil_div (file_size file) CHUNK_SIZE + 1 →
  parts_below etag_of file b p (s3 σ) →
  ∃ σ',
    resumableUpload etag_of file key [] σ = (Returned tt, σ', []) ∧
    object_body key (s3 σ') = Some (file_content file) ∧
    requests_since (s3 σ) (s3 σ') =
      part_uploads etag_of file key (uploadId_of p) b
        (ceil_div (file_size file) CHUNK_SIZE + 1 - b) ++
      [(CompleteMultipartUpload key (uploadId_of p)
          ((λ q, (etag_of (part_bytes file q), q))
             <$> seqZ 1 (ceil_div (file_size file) CHUNK_SIZE)), true)] ∧
    uploads σ' !! upload_fileKey key file = None.
Proof.
  intros Hcfg Hreal Hsize Hp Hts Hfn Hb Hbelow.
  rewrite (resumableUpload_resume _ _ p) by done.
  set (fk := upload_fileKey key file).
  match goal with
  | |- context [upload_try_catch _ _ _ _ _ _ _ ?σ0] =>
      destruct (upload_try_catch_quiet etag_of file key fk (next_controller σ) p σ0 b)
        as (σ' & -> & Hobj & Hlog & Hgone & Hact & Hframe);
        [done|apply idle_registered|done|exact Hbelow|]
  end.
  exists σ'. split; [done|]. split; [done|]. split; [|done].
  by apply requests_since_app.
Qed.

End WholeUpload.

Section Resumability.
Variable etag_of : Blob → ETag.

(** C1: an upload of [n] parts that is interrupted after [k] parts - here
    by the failure of the request for part [k+1] - leaves the record of the
    parts [1 .. k]; invoking [resumableUpload] again with the same file and
    key skips them, uploads the parts [k+1 .. n] and no other, and
    completes.  The same holds from any durable state that records the parts
    [1 .. k].  The object left under the key has the bytes of the file, as
    has the object of an uninterrupted upload of the same file. *)
Theorem resumed_upload_equals_single_pass (file : File) (key : string) (σ : Service) :
  s3Service_configured σ = true →
  real_file file →
  RESUMABLE_THRESHOLD ≤ file_size file →
  uploads σ !! upload_fileKey key file = None →
  let n := ceil_div (file_size file) CHUNK_SIZE in
  let single := resumableUpload etag_of file key [] σ in
  single.1.1 = Returned tt ∧
  part_requests (requests_since (s3 σ) (s3 single.1.2)) = seqZ 1 n ∧
  object_body key (s3 single.1.2) = Some (file_content file) ∧
  (∀ k : nat, Z.of_nat k < n →
     let interrupted :=
       resumableUpload etag_of file key (replicate (S k) quiet ++ [failing]) σ in
     let resumed := resumableUpload etag_of file key [] interrupted.1.2 in
     interrupted.1.1
     = Threw (S3Failure (UploadPart key (Z.of_nat k + 1) (s3_next_upload (s3 σ))
                           (part_bytes file (Z.of_nat k + 1)))) ∧
     requests_since (s3 σ) (s3 interrupted.1.2)
     = (CreateMultipartUpload key, true) ::
       part_uploads etag_of file key (s3_next_upload (s3 σ)) 1 (Z.of_nat k) ++
       [(UploadPart key (Z.of_nat k + 1) (s3_next_upload (s3 σ))
           (part_bytes file (Z.of_nat k + 1)), false)] ∧
     resumed.1.1 = Returned tt ∧
     part_requests (requests_since (s3 interrupted.1.2) (s3 resumed.1.2))
     = seqZ (Z.of_nat k + 1) (n - Z.of_nat k) ∧
     acknowledged (requests_since (s3 interrupted.1.2) (s3 resumed.1.2)) ∧
     object_body key (s3 resumed.1.2) = object_body key (s3 single.1.2)) ∧
  (∀ (k : Z) (σ1 : Service) (p : ChunkProgress),
     0 ≤ k ≤ n →
     s3Service_configured σ1 = true →
     uploads σ1 !! upload_fileKey key file = Some p →
     cp_totalSize p = file_size file → cp_fileName p = file_name file →
     parts_below etag_of file (k + 1) p (s3 σ1) →
     let resumed := resumableUpload etag_of file key [] σ1 in
     resumed.1.1 = Returned tt ∧
     part_requests (requests_since (s3 σ1) (s3 resumed.1.2)) = seqZ (k + 1) (n - k) ∧
     acknowledged (requests_since (s3 σ1) (s3 resumed.1.2)) ∧
     object_body key (s3 resumed.1.2) = object_body key (s3 single.1.2)).
Proof.
  intros Hcfg Hreal Hsize Hnone n single.
  destruct (resumableUpload_single_pass etag_of file key σ Hcfg Hreal Hsize Hnone)
    as (σ0 & Hrun0 & Hobj0 & Hlog0 & _).
  assert (Hresume : ∀ (k : Z) σ1 p,
    0 ≤ k ≤ n → s3Service_configured σ1 = true →
    uploads σ1 !! upload_fileKey key file = Some p →
    cp_totalSize p = file_size file → cp_fileName p = file_name file →
    parts_below etag_of file (k + 1) p (s3 σ1) →
    let resumed := resumableUpload etag_of file key [] σ1 in
    resumed.1.1 = Returned tt ∧
    part_requests (requests_since (s3 σ1) (s3 resumed.1.2)) = seqZ (k + 1) (n - k) ∧
    acknowledged (requests_since (s3 σ1) (s3 resumed.1.2)) ∧
    object_body key (s3 resumed.1.2) = object_body key (s3 single.1.2)).
  { intros k σ1 p Hk Hcfg1 Hp Hts Hfn Hbelow resumed.
    destruct (resumableUpload_resumed etag_of file key σ1 p (k + 1)
                Hcfg1 Hreal Hsize Hp Hts Hfn ltac:(fold n; lia) Hbelow)
      as (σ2 & Hrun2 & Hobj2 & Hlog2 & _).
    subst resumed single. rewrite Hrun2, Hrun0. simpl. split; [done|]. split.
    { rewrite Hlog2, part_requests_part_uploads. simpl. rewrite app_nil_r.
      f_equal. fold n. lia. }
    split; [|by rewrite Hobj2, Hobj0].
    rewrite Hlog2. apply Forall_app. split; [|by repeat constructor].
    unfold part_uploads. apply Forall_fmap. by apply Forall_true. }
  split; [by subst single; rewrite Hrun0|]. split.
  { subst single. rewrite Hrun0. simpl. rewrite Hlog0.
    cbn [part_requests omap list_omap fst].
    change (omap ?f ?l) with (part_requests l).
    rewrite part_requests_part_uploads. simpl. by rewrite app_nil_r. }
  split; [by subst single; rewrite Hrun0|]. split; [|exact Hresume].
  intros k Hk interrupted resumed.
  destruct (resumableUpload_interrupted etag_of file key σ k Hcfg Hsize Hnone Hk)
    as (p1 & σ1 & Hrun1 & Hp1 & Hbelow & Hts & Hfn & Hcfg1 & _ & Hlog1).
  destruct (Hresume (Z.of_nat k) σ1 p1 ltac:(lia) Hcfg1 Hp1 Hts Hfn Hbelow)
    as (Hr & Hparts & Hack & Hobj).
  subst interrupted resumed. rewrite Hrun1. simpl. done.
Qed.

(** C5, as the code has it: the size and the modification time are part of
    the key the record is stored under, so a file whose size or modification
    time changed is looked up under another key.  The progress stored for
    the old version is not loaded and stays in the store as it was;
    [resumableUpload] initiates a new multipart session and uploads every
    part [1 .. n] of the new file. *)
Theorem changed_file_restarts_and_keeps_stale_record (file file' : File)
    (key : string) (σ : Service) (p : ChunkProgress) :
  s3Service_configured σ = true →
  real_file file' →
  RESUMABLE_THRESHOLD ≤ file_size file' →
  file_name file' = file_name file →
  file_size file' ≠ file_size file ∨ file_lastModified file' ≠ file_lastModified file →
  uploads σ !! upload_fileKey key file = Some p →
  uploads σ !! upload_fileKey key file' = None →
  let n := ceil_div (file_size file') CHUNK_SIZE in
  let run := resumableUpload etag_of file' key [] σ in
  upload_fileKey key file' ≠ upload_fileKey key file ∧
  run.1.1 = Returned tt ∧
  uploads run.1.2 !! upload_fileKey key file = Some p ∧
  requests_since (s3 σ) (s3 run.1.2)
  = (CreateMultipartUpload key, true) ::
    part_uploads etag_of file' key (s3_next_upload (s3 σ)) 1 n ++
    [(CompleteMultipartUpload key (s3_next_upload (s3 σ))
        ((λ q, (etag_of (part_bytes file' q), q)) <$> seqZ 1 n), true)] ∧
  object_body key (s3 run.1.2) = Some (file_content file').
Proof.
  intros Hcfg Hreal Hsize Hname Hchanged Hold Hnew n run.
  assert (Hne : upload_fileKey key file' ≠ upload_fileKey key file).
  { intros Heq. apply upload_fileKey_inj in Heq as [? ?]; [|done].
    destruct Hchanged; done. }
  destruct (resumableUpload_single_pass etag_of file' key σ Hcfg Hreal Hsize Hnew)
    as (σ' & Hrun & Hobj & Hlog & Hframe).
  subst run. rewrite Hrun. simpl. split; [done|]. split; [done|].
  split; [|done]. rewrite Hframe by done. done.
Qed.

End Resumability.

(** ** The properties on the sample inputs *)

Lemma sample_file_real : real_file sample_file.
Proof.
  unfold real_file, blob_size.
  change (file_content sample_file) with (replicate (Z.to_nat 12582912) x00).
  rewrite length_replicate. change (file_size sample_file) with 12582912. lia.
Qed.

Lemma sample_file_touched_real : real_file sample_file_touched.
Proof.
  unfold real_file, blob_size.
  change (file_content sample_file_touched) with (replicate (Z.to_nat 12582912) x01).
  rewrite length_replicate. change (file_size sample_file_touched) with 12582912. lia.
Qed.

Lemma sample_fileKey_eq : upload_fileKey sample_key sample_file = sample_fileKey.
Proof.
  unfold upload_fileKey.
  change (file_name sample_file) with "video.bin".
  change (file_size sample_file) with 12582912.
  change (file_lastModified sample_file) with 1700000000000.
  vm_compute. reflexivity.
Qed.

Lemma touched_fileKey_eq :
  upload_fileKey sample_key sample_file_touched
  = "docs/video.bin_video.bin_12582912_1700000360000".
Proof.
  unfold upload_fileKey.
  change (file_name sample_file_touched) with "video.bin".
  change (file_size sample_file_touched) with 12582912.
  change (file_lastModified sample_file_touched) with 1700000360000.
  vm_compute. reflexivity.
Qed.

Lemma interrupted_service_uploads k :
  uploads interrupted_service !! k
  = if decide (sample_fileKey = k) then Some sample_progress else None.
Proof.
  change (uploads interrupted_service)
    with ({[ sample_fileKey := sample_progress ]} : gmap string ChunkProgress).
  apply lookup_singleton.
Qed.

Lemma sample_names : file_name sample_file_touched = file_name sample_file.
Proof. by transitivity "video.bin". Qed.

Lemma sample_threshold : RESUMABLE_THRESHOLD ≤ 12582912.
Proof. change RESUMABLE_THRESHOLD with 10485760. lia. Qed.

Lemma sample_chunks : ceil_div 12582912 CHUNK_SIZE = 3.
Proof. vm_compute. reflexivity. Qed.

(** C5 as stated fails: [sample_file] was modified after its first part had
    been uploaded; the upload of the new version completes, and the record
    of the old version is still in the store. *)
Lemma stale_record_survives_restart :
  file_name sample_file_touched = file_name sample_file ∧
  file_lastModified sample_file_touched ≠ file_lastModified sample_file ∧
  uploads interrupted_service !! upload_fileKey sample_key sample_file
  = Some sample_progress ∧
  (resumableUpload sample_etag sample_file_touched sample_key [] interrupted_service).1.1
  = Returned tt ∧
  uploads
    (resumableUpload sample_etag sample_file_touched sample_key [] interrupted_service).1.2
    !! upload_fileKey sample_key sample_file
  = Some sample_progress.
Proof.
  split; [apply sample_names|]. split.
  { change (1700000360000 ≠ 1700000000000). lia. }
  rewrite sample_fileKey_eq. split.
  { rewrite interrupted_service_uploads. by rewrite decide_True. }
  destruct (resumableUpload_single_pass sample_etag sample_file_touched sample_key
              interrupted_service)
    as (σ' & -> & _ & _ & Hframe).
  - reflexivity.
  - apply sample_file_touched_real.
  - apply sample_threshold.
  - rewrite touched_fileKey_eq, interrupted_service_uploads.
    apply decide_False. vm_compute. discriminate.
  - cbn [fst snd]. split; [reflexivity|]. rewrite Hframe.
    + rewrite interrupted_service_uploads. by rewrite decide_True.
    + rewrite touched_fileKey_eq. vm_compute. discriminate.
Qed.

Lemma resumed_upload_witness :
  let single := resumableUpload sample_etag sample_file sample_key [] fresh_service in
  let interrupted :=
    resumableUpload sample_etag sample_file sample_key
      (replicate 2 quiet ++ [failing]) fresh_service in
  let resumed := resumableUpload sample_etag sample_file sample_key [] interrupted.1.2 in
  single.1.1 = Returned tt ∧
  object_body sample_key (s3 single.1.2) = Some (file_content sample_file) ∧
  resumed.1.1 = Returned tt ∧
  part_requests (requests_since (s3 interrupted.1.2) (s3 resumed.1.2)) = [2; 3] ∧
  object_body sample_key (s3 resumed.1.2) = object_body sample_key (s3 single.1.2).
Proof.
  destruct (resumed_upload_equals_single_pass sample_etag sample_file sample_key
              fresh_service)
    as (Hsingle & _ & Hobj & Hinterrupted & _).
  - reflexivity.
  - apply sample_file_real.
  - apply sample_threshold.
  - apply lookup_empty.
  - destruct (Hinterrupted 1%nat) as (_ & _ & Hresumed & Hparts & _ & Hsame).
    { change (file_size sample_file) with 12582912. rewrite sample_chunks. lia. }
    intros single interrupted resumed. split; [exact Hsingle|]. split; [exact Hobj|].
    split; [exact Hresumed|]. split; [|exact Hsame].
    subst interrupted resumed. rewrite Hparts.
    change (file_size sample_file) with 12582912. rewrite sample_chunks.
    vm_compute. reflexivity.
Defined.

Lemma changed_file_witness :
  let n := ceil_div (file_size sample_file_touched) CHUNK_SIZE in
  let run :=
    resumableUpload sample_etag sample_file_touched sample_key [] interrupted_service in
  upload_fileKey sample_key sample_file_touched ≠ upload_fileKey sample_key sample_file ∧
  run.1.1 = Returned tt ∧
  uploads run.1.2 !! upload_fileKey sample_key sample_file = Some sample_progress ∧
  requests_since (s3 interrupted_service) (s3 run.1.2)
  = (CreateMultipartUpload sample_key, true) ::
    part_uploads sample_etag sample_file_touched sample_key
      (s3_next_upload (s3 interrupted_service)) 1 n ++
    [(CompleteMultipartUpload sample_key (s3_next_upload (s3 interrupted_service))
        ((λ q, (sample_etag (part_bytes sample_file_touched q), q)) <$> seqZ 1 n), true)] ∧
  object_body sample_key (s3 run.1.2) = Some (file_content sample_file_touched).
Proof.
  apply (changed_file_restarts_and_keeps_stale_record sample_etag sample_file
           sample_file_touched sample_key interrupted_service sample_progress).
  - reflexivity.
  - apply sample_file_touched_real.
  - apply sample_threshold.
  - apply sample_names.
  - right. change (1700000360000 ≠ 1700000000000). lia.
  - rewrite sample_fileKey_eq, interrupted_service_uploads. by rewrite decide_True.
  - rewrite touched_fileKey_eq, interrupted_service_uploads.
    apply decide_False. vm_compute. discriminate.
Defined.

Lemma threshold_witness :
  RESUMABLE_THRESHOLD = 10 * 1024 * 1024 ∧
  (file_size small_file < RESUMABLE_THRESHOLD →
     resumableUpload sample_etag small_file "docs/notes.txt" [] fresh_service
     = (Threw TooSmall, checkS3Configuration fresh_service, [])) ∧
  (RESUMABLE_THRESHOLD ≤ file_size small_file →
     (resumableUpload sample_etag small_file "docs/notes.txt" [] fresh_service).1.1
     ≠ Threw TooSmall) ∧
  (file_size small_file = RESUMABLE_THRESHOLD - 1 →
     (resumableUpload sample_etag small_file "docs/notes.txt" [] fresh_service).1.1
     = Threw TooSmall) ∧
  (file_size small_file = RESUMABLE_THRESHOLD →
     (resumableUpload sample_etag small_file "docs/notes.txt" [] fresh_service).1.1
     ≠ Threw TooSmall).
Proof.
  apply (resumable_threshold_boundary sample_etag small_file "docs/notes.txt" []
           fresh_service).
  reflexivity.
Defined.

Lemma download_reassembly_witness :
  (∀ b, (resumableDownload sample_key "video.bin" [] download_service).1.1 = Returned b →
        b = obj_body sample_object) ∧
  (all_ok [] →
   (resumableDownload sample_key "video.bin" [] download_service).1.1
   = Returned (obj_body sample_object)) ∧
  concat (chunk_bytes (obj_body sample_object)
            <$> make_chunks (blob_size (obj_body sample_object)))
  = obj_body sample_object.
Proof.
  apply (download_reassembly sample_key "video.bin" sample_object [] download_service).
  - reflexivity.
  - apply lookup_singleton_eq.
  - intros p Hp _.
    assert (p = sample_download) as ->.
    { change (downloads download_service) with
        ({[ "docs/video.bin_video.bin" := sample_download ]} : gmap string DownloadProgress)
        in Hp.
      change (download_fileKey sample_key "video.bin") with "docs/video.bin_video.bin" in Hp.
      rewrite lookup_singleton_eq in Hp. by injection Hp. }
    change (obj_body sample_object) with (replicate (Z.to_nat 12582912) x00).
    unfold blob_size. rewrite length_replicate, Z2Nat.id by lia.
    cbv [tiles sample_download dp_chunks c_start c_end]. lia.
Defined.

Lemma upload_failure_witness :
  let run := resumableUpload sample_etag sample_file sample_key
               (replicate 4 quiet ++ [failing]) fresh_service in
  let rq := CompleteMultipartUpload sample_key 1%N
              [("5242880", 1); ("5242880", 2); ("2097152", 3)] in
  (rq, false) ∈ requests_since (s3 fresh_service) (s3 run.1.2) ∧
  run.1.1 = Threw (S3Failure rq) ∧
  ctl_aborted (next_controller fresh_service) run.1.2 = false ∧
  ∃ p, uploads run.1.2 !! upload_fileKey sample_key sample_file = Some p ∧
       tracks p (s3 run.1.2).
Proof.
  intros run rq.
  assert (Hrun : (let σ' := run.1.2 in
                  (requests_since (s3 fresh_service) (s3 σ') !! 4%nat,
                   ctl_aborted (next_controller fresh_service) σ'))
                 = (Some (rq, false), false)).
  { vm_compute. reflexivity. }
  pose proof (f_equal fst Hrun) as Hlast. pose proof (f_equal snd Hrun) as Hab.
  clear Hrun.
  change (requests_since (s3 fresh_service) (s3 run.1.2) !! 4%nat = Some (rq, false))
    in Hlast.
  change (ctl_aborted (next_controller fresh_service) run.1.2 = false) in Hab.
  assert (Hin : (rq, false) ∈ requests_since (s3 fresh_service) (s3 run.1.2)).
  { apply (list_elem_of_lookup_2 _ 4). exact Hlast. }
  destruct (upload_failure_persists sample_etag sample_file sample_key
              (replicate 4 quiet ++ [failing]) fresh_service) as (Hiff & _ & Hrest).
  split; [done|]. split; [by apply Hiff|]. split; [done|].
  destruct (Hrest rq Hin I) as [_ Hsaved].
  destruct (Hsaved Hab) as (p & Hp & Htr). exists p. split; [done|].
  apply Htr. intros p0 Hp0.
  change (uploads fresh_service) with (∅ : gmap string ChunkProgress) in Hp0.
  by rewrite lookup_empty in Hp0.
Defined.

(** ** Clearing the store *)

Lemma set_uploads_same σ : set_uploads (uploads σ) σ = σ.
Proof. by destruct σ. Qed.

Lemma foldl_delete_uploads keys :
  ∀ σ, foldl (λ σ' key, set_uploads (delete key (uploads σ')) σ') σ keys
       = set_uploads (foldl (λ m key, delete key m) (uploads σ) keys) σ.
Proof.
  induction keys as [|k keys IH]; intros σ; simpl.
  - by rewrite set_uploads_same.
  - by rewrite IH.
Qed.

Lemma foldl_delete_lookup {A} (keys : list string) :
  ∀ (m : gmap string A) k,
    foldl (λ m key, delete key m) m keys !! k
    = if decide (k ∈ keys) then None else m !! k.
Proof.
  induction keys as [|k0 keys IH]; intros m k.
  - cbn [foldl]. case_decide as Hin; [|done]. by apply elem_of_nil in Hin.
  - cbn [foldl]. rewrite IH, lookup_delete.
    repeat case_decide; try done; subst.
    + exfalso. match goal with H : ¬ _ |- _ => apply H end. apply elem_of_cons. by right.
    + exfalso. match goal with H : ¬ _ |- _ => apply H end. apply elem_of_cons. by left.
    + match goal with H : _ ∈ _ :: _ |- _ => apply elem_of_cons in H as [->|?] end; done.
Qed.

Lemma clearAllUploads_eq σ : clearAllUploads σ = set_uploads ∅ σ.
Proof.
  unfold clearAllUploads. rewrite foldl_delete_uploads. f_equal.
  apply map_eq. intros k. rewrite foldl_delete_lookup, lookup_empty.
  case_decide as Hk; [done|].
  destruct (uploads σ !! k) as [p|] eqn:Hp; [|done].
  exfalso. apply Hk. apply list_elem_of_fmap. exists (k, p). split; [done|].
  by apply elem_of_map_to_list.
Qed.

Section ClearAll.
Variable etag_of : Blob → ETag.

(** X1.  [clearAllUploads] and [clearAllUploadProgress] empty the upload part of
    the store and change nothing else: no record is pending afterwards, the
    download records stay, and the next upload of any file starts a new
    multipart session and sends every part. *)
Theorem clearAllUploads_forgets_everything (σ : Service) :
  clearAllUploads σ = set_uploads ∅ σ ∧
  clearAllUploadProgress σ = clearAllUploads σ ∧
  getPendingUploads (clearAllUploads σ) = ∅ ∧
  getPendingDownloads (clearAllUploads σ) = downloads σ ∧
  (∀ file key,
     s3Service_configured σ = true → real_file file →
     RESUMABLE_THRESHOLD ≤ file_size file →
     let run := resumableUpload etag_of file key [] (clearAllUploads σ) in
     run.1.1 = Returned tt ∧
     part_requests (requests_since (s3 σ) (s3 run.1.2))
     = seqZ 1 (ceil_div (file_size file) CHUNK_SIZE)).
Proof.
  split; [apply clearAllUploads_eq|]. split; [done|].
  split; [by rewrite getPendingUploads_eq, clearAllUploads_eq|].
  split; [by rewrite getPendingDownloads_eq, clearAllUploads_eq|].
  intros file key Hcfg Hreal Hsize run. subst run. rewrite clearAllUploads_eq.
  destruct (resumableUpload_single_pass etag_of file key (set_uploads ∅ σ))
    as (σ' & -> & _ & Hlog & _); [done..|apply lookup_empty|].
  split; [done|]. simpl in *. rewrite Hlog.
  cbn [part_requests omap list_omap fst].
  change (omap ?f ?l) with (part_requests l).
  rewrite part_requests_part_uploads. simpl. by rewrite app_nil_r.
Qed.

End ClearAll.

(** ** abortUpload *)

Lemma has_s3_checked σ :
  s3Service_configured σ = true → svc_has_s3 (checkS3Configuration σ) = true.
Proof. unfold checkS3Configuration. by intros ->. Qed.

Lemma uploads_checked σ : uploads (checkS3Configuration σ) = uploads σ.
Proof. unfold checkS3Configuration. by destruct (s3Service_configured σ). Qed.

Lemma s3_checked σ : s3 (checkS3Configuration σ) = s3 σ.
Proof. unfold checkS3Configuration. by destruct (s3Service_configured σ). Qed.

Lemma checked_configured σ :
  s3Service_configured σ = true → checkS3Configuration σ = set_has_s3 true σ.
Proof. unfold checkS3Configuration. by intros ->. Qed.

Lemma abortUpload_no_session (key fileName : string)
    (fileSize lastModified : option Z) (env : Env) (σ : Service) :
  s3Service_configured σ = true →
  uploads σ !! abort_fileKey key fileName fileSize lastModified ≫= cp_uploadId = None →
  abortUpload key fileName fileSize lastModified env σ
  = (Returned tt,
     clearUploadProgress (abort_fileKey key fileName fileSize lastModified)
       (set_has_s3 true σ), env).
Proof.
  intros Hcfg Hid. unfold abortUpload.
  rewrite has_s3_checked by done. simpl.
  unfold loadUploadProgress. rewrite uploads_checked, Hid.
  by rewrite checked_configured.
Qed.

(** X2.  [abortUpload] on a configured client never throws: the failure of the
    abort request is swallowed.  The record under the key it computes is
    removed in every case; the multipart session of the record is gone from
    the store only if the request went through, and when the key holds no
    record with an upload id no request is made at all. *)
Theorem abortUpload_removes_record (key fileName : string)
    (fileSize lastModified : option Z) (env : Env) (σ : Service) :
  s3Service_configured σ = true →
  let fileKey := abort_fileKey key fileName fileSize lastModified in
  let run := abortUpload key fileName fileSize lastModified env σ in
  run.1.1 = Returned tt ∧
  uploads run.1.2 !! fileKey = None ∧
  (∀ p uploadId,
     uploads σ !! fileKey = Some p → cp_uploadId p = Some uploadId →
     run.2 = (next_tick env).2 ∧
     s3_sessions (s3 run.1.2) !! uploadId
     = if net_ok (next_tick env).1 then None else s3_sessions (s3 σ) !! uploadId) ∧
  (uploads σ !! fileKey ≫= cp_uploadId = None →
     run = (Returned tt, clearUploadProgress fileKey (set_has_s3 true σ), env)).
Proof.
  intros Hcfg fileKey run. subst run. unfold abortUpload. fold fileKey.
  rewrite has_s3_checked by done. simpl.
  unfold loadUploadProgress. rewrite uploads_checked.
  destruct (uploads σ !! fileKey ≫= cp_uploadId) as [id|] eqn:Hid.
  - destruct (next_tick env) as [t env1]. simpl.
    split; [done|]. split; [apply lookup_delete_eq|]. split; [|done].
    intros p uploadId Hp Hu. rewrite Hp in Hid. simpl in Hid.
    assert (uploadId = id) as -> by congruence.
    split; [done|]. rewrite s3_run_actions, s3_checked.
    unfold s3_abortMultipartUpload. destruct (net_ok t); [|done].
    destruct (s3_sessions (s3 σ) !! id) eqn:Hs; simpl; [apply lookup_delete_eq|done].
  - simpl. split; [done|]. split; [apply lookup_delete_eq|]. split.
    + intros p uploadId Hp Hu. rewrite Hp in Hid. simpl in Hid. congruence.
    + by rewrite checked_configured.
Qed.

Lemma abortUpload_removes_record_witness :
  let fileKey := abort_fileKey sample_key "video.bin" (Some 12582912) (Some 1700000000000) in
  let run := abortUpload sample_key "video.bin" (Some 12582912) (Some 1700000000000)
               [failing] interrupted_service in
  run.1.1 = Returned tt ∧
  uploads run.1.2 !! fileKey = None ∧
  (∀ p uploadId,
     uploads interrupted_service !! fileKey = Some p → cp_uploadId p = Some uploadId →
     run.2 = (next_tick [failing]).2 ∧
     s3_sessions (s3 run.1.2) !! uploadId
     = if net_ok (next_tick [failing]).1 then None
       else s3_sessions (s3 interrupted_service) !! uploadId) ∧
  (uploads interrupted_service !! fileKey ≫= cp_uploadId = None →
     run = (Returned tt, clearUploadProgress fileKey (set_has_s3 true interrupted_service),
            [failing])).
Proof.
  apply (abortUpload_removes_record sample_key "video.bin" (Some 12582912)
           (Some 1700000000000) [failing] interrupted_service).
  reflexivity.
Defined.


(** ** How a call of the engine can end *)

Section Outcomes.
Variable etag_of : Blob → ETag.

Lemma upload_parts_loop_error file key fileKey h todo :
  ∀ pn progress env σ e,
    (upload_parts etag_of file key fileKey h todo pn progress env σ).1.1.1 = Threw e →
    loop_error e.
Proof.
  induction todo as [|todo IH]; intros pn progress env σ e; simpl; [done|].
  destruct (ctl_aborted h σ); [by intros [= <-]|].
  destruct (wait_if_paused _ _ _ _ _) as [[σ' env']|[[r σ'] env']] eqn:Hwait.
  - destruct (cp_parts progress !! pn); [apply IH|].
    destruct (next_tick env') as [t env''].
    destruct (s3_uploadPart _ _ _ _ _ _ _) as [[tag|] s]; [apply IH|by intros [= <-]].
  - simpl. unfold wait_if_paused in Hwait.
    destruct (ctl_paused h σ); [|done].
    destruct (pause_wait _ _ _) as [σ1 [env1|]]; [|by injection Hwait as <- _ _].
    destruct (ctl_aborted h σ1); [|done]. injection Hwait as <- _ _. by intros [= <-].
Qed.

Lemma upload_try_catch_loop_error file key fileKey h progress env σ e :
  (upload_try_catch etag_of file key fileKey h progress env σ).1.1 = Threw e →
  loop_error e.
Proof.
  unfold upload_try_catch, upload_try.
  pose proof (upload_parts_loop_error file key fileKey h
                (Z.to_nat (ceil_div (file_size file) CHUNK_SIZE)) 1 progress env σ) as Hp.
  destruct (upload_parts _ _ _ _ _ _ _ _ _ _) as [[[r p] σ'] env'].
  simpl in Hp. destruct r as [[]|e'|]; simpl; try done.
  - destruct (next_tick env') as [t env''].
    destruct (s3_completeMultipartUpload _ _ _ _ _) as [[] s]; [done|].
    simpl. by intros [= <-].
  - intros [= <-]. by apply Hp.
Qed.

Lemma download_chunks_loop_error key fileKey es :
  ∀ progress dl env σ e,
    (download_chunks key fileKey es progress dl env σ).1.1.1.1 = Threw e → loop_error e.
Proof.
  induction es as [|[index c] es IH]; intros progress dl env σ e; simpl; [done|].
  destruct (c_downloaded c); [apply IH|].
  destruct (next_tick env) as [t env'].
  destruct (s3_getObject _ _ _ _ _) as [[body|] s]; [apply IH|]. by intros [= <-].
Qed.

Lemma assemble_loop_error key chunks :
  ∀ i dl allChunks env σ e,
    (assemble key chunks i dl allChunks env σ).1.1 = Threw e → loop_error e.
Proof.
  induction chunks as [|c chunks IH]; intros i dl allChunks env σ e; simpl; [done|].
  destruct (dl !! i); [apply IH|].
  destruct (next_tick env) as [t env'].
  destruct (s3_getObject _ _ _ _ _) as [[body|] s]; [apply IH|]. by intros [= <-].
Qed.

Lemma resumableUpload_NotConfigured file key env σ :
  (resumableUpload etag_of file key env σ).1.1 = Threw NotConfigured →
  svc_has_s3 (checkS3Configuration σ) = false.
Proof.
  unfold resumableUpload.
  destruct (svc_has_s3 (checkS3Configuration σ)); [|done]. simpl.
  destruct (file_size file <? RESUMABLE_THRESHOLD); [done|].
  intros H. exfalso. revert H.
  destruct (loadUploadProgress _ _) as [p|].
  - destruct (negb _ || negb _).
    + destruct (next_tick env) as [t env'].
      destruct (s3_createMultipartUpload _ _ _) as [[id|] s]; [|done].
      intros H. by apply upload_try_catch_loop_error in H.
    + intros H. by apply upload_try_catch_loop_error in H.
  - destruct (next_tick env) as [t env'].
    destruct (s3_createMultipartUpload _ _ _) as [[id|] s]; [|done].
    intros H. by apply upload_try_catch_loop_error in H.
Qed.

Lemma resumableDownload_NotConfigured key fileName env σ :
  (resumableDownload key fileName env σ).1.1 = Threw NotConfigured →
  svc_has_s3 (checkS3Configuration σ) = false.
Proof.
  unfold resumableDownload.
  destruct (svc_has_s3 (checkS3Configuration σ)); [|done]. simpl.
  intros H. exfalso. revert H.
  destruct (next_tick env) as [t env'].
  destruct (s3_headObject _ _ _) as [[[totalSize lastModified]|] s]; [|done].
  destruct (match loadDownloadProgress _ _ with Some _ => _ | None => _ end)
    as [progress σ0].
  match goal with
  | |- context [download_chunks ?k ?fk ?es ?p ?dl ?e ?s0] =>
      pose proof (download_chunks_loop_error k fk es p dl e s0) as Hd;
      destruct (download_chunks k fk es p dl e s0) as [[[[r1 p1] dl1] σ3] env2]
  end.
  simpl in Hd. destruct r1 as [[]|e1|]; [| |done].
  - match goal with
    | |- context [assemble ?k ?cs ?i ?dl ?a ?e ?s0] =>
        pose proof (assemble_loop_error k cs i dl a e s0) as Ha;
        destruct (assemble k cs i dl a e s0) as [[r2 σ4] env3]
    end.
    simpl in Ha. destruct r2 as [b|e2|]; [done| |done].
    intros [= ->]. by apply (Ha NotConfigured).
  - intros [= ->]. by apply (Hd NotConfigured).
Qed.

Lemma unconfigured_iff σ :
  svc_has_s3 (checkS3Configuration σ) = false ↔
  s3Service_configured σ = false ∧ svc_has_s3 σ = false.
Proof.
  unfold checkS3Configuration. destruct (s3Service_configured σ); simpl; [|tauto].
  split; [done|]. by intros [? _].
Qed.

Lemma unconfigured_checked σ :
  s3Service_configured σ = false → checkS3Configuration σ = σ.
Proof. unfold checkS3Configuration. by intros ->. Qed.

(** X3.  The three asynchronous entry points throw 'S3 not configured' exactly
    when neither the shared client nor the copy the service took of it is
    set; they do so before anything is awaited and leave the state as it
    was. *)
Theorem not_configured_exactly (file : File) (key fileName : string)
    (fileSize lastModified : option Z) (env : Env) (σ : Service) :
  ((resumableUpload etag_of file key env σ).1.1 = Threw NotConfigured ↔
     s3Service_configured σ = false ∧ svc_has_s3 σ = false) ∧
  ((resumableDownload key fileName env σ).1.1 = Threw NotConfigured ↔
     s3Service_configured σ = false ∧ svc_has_s3 σ = false) ∧
  ((abortUpload key fileName fileSize lastModified env σ).1.1 = Threw NotConfigured ↔
     s3Service_configured σ = false ∧ svc_has_s3 σ = false) ∧
  (s3Service_configured σ = false ∧ svc_has_s3 σ = false →
     resumableUpload etag_of file key env σ = (Threw NotConfigured, σ, env) ∧
     resumableDownload key fileName env σ = (Threw NotConfigured, σ, env) ∧
     abortUpload key fileName fileSize lastModified env σ = (Threw NotConfigured, σ, env)).
Proof.
  assert (Hearly : s3Service_configured σ = false ∧ svc_has_s3 σ = false →
     resumableUpload etag_of file key env σ = (Threw NotConfigured, σ, env) ∧
     resumableDownload key fileName env σ = (Threw NotConfigured, σ, env) ∧
     abortUpload key fileName fileSize lastModified env σ = (Threw NotConfigured, σ, env)).
  { intros [Hc Hs]. unfold resumableUpload, resumableDownload, abortUpload.
    rewrite !unconfigured_checked by done. by rewrite Hs. }
  split; [|split; [|split]]; [| | |exact Hearly].
  - split.
    + intros H. by apply unconfigured_iff, (resumableUpload_NotConfigured file key env).
    + intros H. destruct (Hearly H) as (-> & _). done.
  - split.
    + intros H. by apply unconfigured_iff, (resumableDownload_NotConfigured key fileName env).
    + intros H. destruct (Hearly H) as (_ & -> & _). done.
  - split.
    + intros H. apply unconfigured_iff. revert H. unfold abortUpload.
      destruct (svc_has_s3 (checkS3Configuration σ)); [|done]. simpl.
      destruct (_ ≫= _); [destruct (next_tick env)|]; done.
    + intros H. destruct (Hearly H) as (_ & _ & ->). done.
Qed.

(** ** A successful upload *)

(** X4.  Whatever happened while it ran, once [resumableUpload] returns neither
    the progress record nor the handle of the upload is left, the last
    request it sent is the completion, which the store acknowledged, and the
    object is in the store while the multipart session is closed. *)
Theorem upload_success_leaves_nothing (file : File) (key : string) (env : Env)
    (σ : Service) :
  (resumableUpload etag_of file key env σ).1.1 = Returned tt →
  let σ' := (resumableUpload etag_of file key env σ).1.2 in
  uploads σ' !! upload_fileKey key file = None ∧
  activeUploads σ' !! upload_fileKey key file = None ∧
  ∃ uploadId manifest,
    last (s3_log (s3 σ')) = Some (CompleteMultipartUpload key uploadId manifest, true) ∧
    is_Some (s3_objects (s3 σ') !! key) ∧
    s3_sessions (s3 σ') !! uploadId = None.
Proof.
  assert (Htry : ∀ fileKey h progress env σ,
    (upload_try_catch etag_of file key fileKey h progress env σ).1.1 = Returned tt →
    let σ' := (upload_try_catch etag_of file key fileKey h progress env σ).1.2 in
    uploads σ' !! fileKey = None ∧ activeUploads σ' !! fileKey = None ∧
    ∃ uploadId manifest,
      last (s3_log (s3 σ')) = Some (CompleteMultipartUpload key uploadId manifest, true) ∧
      is_Some (s3_objects (s3 σ') !! key) ∧
      s3_sessions (s3 σ') !! uploadId = None).
  { clear env σ. intros fileKey h progress env σ.
    unfold upload_try_catch, upload_try.
    destruct (upload_parts _ _ _ _ _ _ _ _ _ _) as [[[r p] σ1] env1].
    destruct r as [[]|e|]; simpl; [|done..].
    destruct (next_tick env1) as [t env2].
    unfold s3_completeMultipartUpload.
    destruct (if net_ok t then _ else None) as [bodies|]; simpl; [|done].
    intros _. split; [apply lookup_delete_eq|]. split; [apply lookup_delete_eq|].
    eexists _, _. split; [apply last_snoc|]. split; [|apply lookup_delete_eq].
    rewrite lookup_insert_eq. by eexists. }
  unfold resumableUpload, register_controller.
  destruct (negb (svc_has_s3 (checkS3Configuration σ))); [done|].
  destruct (file_size file <? RESUMABLE_THRESHOLD); [done|].
  cbn beta iota zeta.
  destruct (loadUploadProgress _ _) as [p|].
  - match goal with |- context [if ?b then (None, _) else _] => destruct b end.
    + destruct (next_tick env) as [t env'].
      destruct (s3_createMultipartUpload _ _ _) as [[id|] s]; [|done]. apply Htry.
    + apply Htry.
  - destruct (next_tick env) as [t env'].
    destruct (s3_createMultipartUpload _ _ _) as [[id|] s]; [|done]. apply Htry.
Qed.

(** ** A failing start *)

(** X5.  When the request that opens the multipart session fails, the call
    throws with the handle of the upload still registered: the upload
    counts as active although nothing runs.  The queue then skips every item
    of that file it is asked to process, so a retry does nothing;
    [cancelUpload] releases the handle. *)
Theorem create_failure_keeps_handle (file : File) (key : string) (rest : Env)
    (σ : Service) :
  s3Service_configured σ = true →
  RESUMABLE_THRESHOLD ≤ file_size file →
  uploads σ !! upload_fileKey key file = None →
  let fileKey := upload_fileKey key file in
  let run := resumableUpload etag_of file key (failing :: rest) σ in
  run.1.1 = Threw (S3Failure (CreateMultipartUpload key)) ∧
  run.2 = rest ∧
  isUploadActive fileKey run.1.2 = true ∧
  uploads run.1.2 = uploads σ ∧
  (∀ u item, service u = run.1.2 → item_fileKey item = fileKey →
             processUploadItem_begin item u = None) ∧
  (∀ u item others,
     service u = run.1.2 → item_fileKey item = fileKey →
     filter (λ q, item_status q = Queued) (queue u) = item :: others →
     processQueue u = u) ∧
  isUploadActive fileKey (cancelUpload fileKey run.1.2) = false.
Proof.
  intros Hcfg Hsize Hnone fileKey run. subst run.
  rewrite resumableUpload_fresh by done. fold fileKey. simpl.
  assert (Hact : isUploadActive fileKey
    (set_s3 (s3_logged (CreateMultipartUpload key) false (s3 σ))
       (register_controller fileKey (set_has_s3 true σ)).2) = true).
  { unfold isUploadActive. simpl. rewrite lookup_insert_eq.
    apply bool_decide_eq_true. by eexists. }
  assert (Hbegin : ∀ u item,
    service u = set_s3 (s3_logged (CreateMultipartUpload key) false (s3 σ))
                  (register_controller fileKey (set_has_s3 true σ)).2 →
    item_fileKey item = fileKey → processUploadItem_begin item u = None).
  { intros u item Hu Hitem. unfold processUploadItem_begin.
    destruct (find_item _ _); [|done].
    destruct (_ || _); [done|]. by rewrite Hitem, Hu, Hact. }
  split; [done|]. split; [done|]. split; [exact Hact|]. split; [done|].
  split; [exact Hbegin|]. split.
  - intros u item others Hu Hitem Hq. unfold processQueue.
    destruct (_ || _); [done|]. rewrite Hq. by rewrite (Hbegin u item).
  - unfold isUploadActive, cancelUpload. simpl. rewrite lookup_insert_eq. simpl.
    apply bool_decide_eq_false. rewrite lookup_delete_eq. by intros [? ?].
Qed.

End Outcomes.

Lemma upload_success_witness :
  let σ' := (resumableUpload sample_etag sample_file sample_key [] fresh_service).1.2 in
  uploads σ' !! upload_fileKey sample_key sample_file = None ∧
  activeUploads σ' !! upload_fileKey sample_key sample_file = None ∧
  ∃ uploadId manifest,
    last (s3_log (s3 σ')) = Some (CompleteMultipartUpload sample_key uploadId manifest, true) ∧
    is_Some (s3_objects (s3 σ') !! sample_key) ∧
    s3_sessions (s3 σ') !! uploadId = None.
Proof.
  apply (upload_success_leaves_nothing sample_etag sample_file sample_key [] fresh_service).
  destruct (resumableUpload_single_pass sample_etag sample_file sample_key fresh_service)
    as (σ' & -> & _); [reflexivity|apply sample_file_real|apply sample_threshold
                       |apply lookup_empty|reflexivity].
Defined.

Lemma create_failure_witness :
  let fileKey := upload_fileKey sample_key sample_file in
  let run := resumableUpload sample_etag sample_file sample_key [failing] fresh_service in
  run.1.1 = Threw (S3Failure (CreateMultipartUpload sample_key)) ∧
  run.2 = [] ∧
  isUploadActive fileKey run.1.2 = true ∧
  uploads run.1.2 = uploads fresh_service ∧
  (∀ u item, service u = run.1.2 → item_fileKey item = fileKey →
             processUploadItem_begin item u = None) ∧
  (∀ u item others,
     service u = run.1.2 → item_fileKey item = fileKey →
     filter (λ q, item_status q = Queued) (queue u) = item :: others →
     processQueue u = u) ∧
  isUploadActive fileKey (cancelUpload fileKey run.1.2) = false.
Proof.
  apply (create_failure_keeps_handle sample_etag sample_file sample_key [] fresh_service).
  - reflexivity.
  - apply sample_threshold.
  - apply lookup_empty.
Defined.


(** ** Pause and cancel while a part is in flight *)

Section InFlight.
Variable etag_of : Blob → ETag.
Variables (file : File) (key fileKey : string) (h : nat).

(** [j] parts go through undisturbed. *)
Lemma upload_parts_quiet_prefix todo :
  ∀ pn b progress σ (j : nat) env,
    idle h σ → 1 ≤ pn ≤ b → parts_below etag_of file b progress (s3 σ) →
    b + Z.of_nat j ≤ pn + Z.of_nat todo →
    ∃ p' σ',
      upload_parts etag_of file key fileKey h todo pn progress (replicate j quiet ++ env) σ
      = upload_parts etag_of file key fileKey h
          (Z.to_nat (pn + Z.of_nat todo - (b + Z.of_nat j))) (b + Z.of_nat j) p' env σ' ∧
      parts_below etag_of file (b + Z.of_nat j) p' (s3 σ') ∧
      uploadId_of p' = uploadId_of progress ∧
      s3_log (s3 σ') = s3_log (s3 σ) ++
        part_uploads etag_of file key (uploadId_of progress) b (Z.of_nat j) ∧
      idle h σ' ∧ activeUploads σ' = activeUploads σ ∧ controllers σ' = controllers σ ∧
      s3_objects (s3 σ') = s3_objects (s3 σ) ∧
      (∀ k, k ≠ fileKey → uploads σ' !! k = uploads σ !! k).
Proof.
  unfold part_uploads.
  induction todo as [|todo IH]; intros pn b progress σ j env Hidle Hpn Hbelow Hj.
  { assert (j = 0%nat) as -> by lia. assert (b = pn) as -> by lia.
    exists progress, σ. rewrite Z.add_0_r.
    replace (Z.to_nat _) with 0%nat by lia.
    simpl. rewrite app_nil_r. done. }
  destruct (decide (pn < b)) as [Hlt|Hge].
  - rewrite upload_parts_idle_S by done.
    assert (is_Some (cp_parts progress !! pn)) as [info ->]
      by (apply (parts_below_present etag_of file b progress (s3 σ) pn); [done|lia]).
    destruct (IH (pn + 1) b progress σ j env) as (p' & σ' & Hrun & Hrest);
      [done|lia|done|lia|].
    exists p', σ'. split; [|done]. rewrite Hrun. do 2 f_equal. lia.
  - assert (pn = b) as -> by lia. destruct j as [|j].
    { exists progress, σ. rewrite Z.add_0_r.
      replace (Z.to_nat _) with (S todo) by lia.
      cbn [replicate app Z.of_nat seqZ]. rewrite seqZ_nil by lia.
      rewrite fmap_nil, app_nil_r. done. }
    rewrite upload_parts_idle_S by done.
    assert (cp_parts progress !! b = None) as ->.
    { destruct (cp_parts progress !! b) eqn:Hpart; [|done].
      assert (1 ≤ b < b); [|lia].
      apply (parts_below_present etag_of file b progress (s3 σ) b); eauto. }
    simpl.
    destruct (parts_below_uploadPart etag_of file key b progress (s3 σ) ltac:(lia) Hbelow)
      as (s' & -> & Hb' & Hlog' & Hobj').
    set (p1 := add_part b _ _ progress).
    destruct (IH (b + 1) (b + 1) p1 (saveUploadProgress fileKey p1 (set_s3 s' σ)) j env)
      as (p' & σ' & Hrun & Hb & Hid & Hlog & Hidle' & Hact & Hctl & Hobj & Hframe);
      [done|lia|done|lia|].
    replace (b + 1 + Z.of_nat j) with (b + Z.of_nat (S j)) in * by lia.
    exists p', σ'. split.
    { rewrite Hrun. do 2 f_equal. lia. }
    split; [done|]. split; [done|]. split.
    { rewrite Hlog. simpl. rewrite Hlog', <-app_assoc. f_equal.
      rewrite (seqZ_cons b) by lia. rewrite fmap_cons. simpl. f_equal.
      f_equal. f_equal; lia. }
    split; [done|]. split; [done|]. split; [done|]. split; [by rewrite Hobj|].
    intros k Hk. rewrite Hframe by done. simpl. by rewrite lookup_insert_ne.
Qed.

(** The part [b] goes through while the page acts on the service. *)
Lemma upload_parts_step todo b progress t env σ :
  idle h σ → 1 ≤ b → parts_below etag_of file b progress (s3 σ) → net_ok t = true →
  let p1 := add_part b (etag_of (part_bytes file b)) (blob_size (part_bytes file b))
              progress in
  ∃ s',
    upload_parts etag_of file key fileKey h (S todo) b progress (t :: env) σ
    = upload_parts etag_of file key fileKey h todo (b + 1) p1 env
        (saveUploadProgress fileKey p1 (set_s3 s' (run_actions (during t) σ))) ∧
    parts_below etag_of file (b + 1) p1 s' ∧
    s3_log s' = s3_log (s3 σ) ++
      [(UploadPart key b (uploadId_of progress) (part_bytes file b), true)] ∧
    s3_objects s' = s3_objects (s3 σ).
Proof.
  intros Hidle Hb Hbelow Hnet p1.
  rewrite upload_parts_idle_S by done.
  assert (cp_parts progress !! b = None) as ->.
  { destruct (cp_parts progress !! b) eqn:Hpart; [|done].
    assert (1 ≤ b < b); [|lia].
    apply (parts_below_present etag_of file b progress (s3 σ) b); eauto. }
  simpl. rewrite Hnet, s3_run_actions.
  destruct (parts_below_uploadPart etag_of file key b progress (s3 σ) Hb Hbelow)
    as (s' & -> & Hb' & Hlog' & Hobj').
  by exists s'.
Qed.

(** The completion of an upload whose parts are all there. *)
Lemma complete_all_parts p s :
  real_file file →
  RESUMABLE_THRESHOLD ≤ file_size file →
  parts_below etag_of file (ceil_div (file_size file) CHUNK_SIZE + 1) p s →
  ∃ s',
    s3_completeMultipartUpload key (uploadId_of p) (manifest_of p) true s = (true, s') ∧
    object_body key s' = Some (file_content file) ∧
    s3_log s' = s3_log s ++ [(CompleteMultipartUpload key (uploadId_of p) (manifest_of p), true)].
Proof.
  set (n := ceil_div (file_size file) CHUNK_SIZE).
  intros Hreal Hsize Hbelow.
  assert (2 ≤ n) by by apply threshold_chunks.
  rewrite (manifest_of_parts_below etag_of file n p s) by (done || lia).
  unfold s3_completeMultipartUpload.
  destruct Hbelow as (sess & Hsess & Hparts).
  rewrite Hsess. simpl.
  rewrite (manifest_bodies_parts_below etag_of file n p s sess); [|by exists sess|done].
  eexists. split; [done|]. simpl. split; [|done].
  unfold object_body. simpl. rewrite lookup_insert_eq. simpl. unfold n.
  by rewrite concat_part_bytes.
Qed.

Lemma parts_below_frame b p s s' :
  parts_below etag_of file b p s → s3_sessions s' = s3_sessions s →
  parts_below etag_of file b p s'.
Proof. intros (sess & ? & ?) Hs. exists sess. by rewrite Hs. Qed.

End InFlight.

Lemma cancelUpload_active fileKey h c σ :
  activeUploads σ !! fileKey = Some h → controllers σ !! h = Some c →
  ctl_aborted h (cancelUpload fileKey σ) = true ∧
  ctl_paused h (cancelUpload fileKey σ) = isPaused c ∧
  activeUploads (cancelUpload fileKey σ) = delete fileKey (activeUploads σ) ∧
  s3 (cancelUpload fileKey σ) = s3 σ.
Proof.
  intros Ha Hc. unfold cancelUpload, ctl_aborted, ctl_paused. rewrite Ha. simpl.
  by rewrite lookup_alter_eq, Hc.
Qed.

Lemma pauseUpload_active fileKey h c σ :
  activeUploads σ !! fileKey = Some h → controllers σ !! h = Some c →
  ctl_paused h (pauseUpload fileKey σ) = true ∧
  ctl_aborted h (pauseUpload fileKey σ) = isAborted c ∧
  activeUploads (pauseUpload fileKey σ) = activeUploads σ ∧
  uploads (pauseUpload fileKey σ) = uploads σ ∧
  s3 (pauseUpload fileKey σ) = s3 σ.
Proof.
  intros Ha Hc. unfold pauseUpload, ctl_aborted, ctl_paused. rewrite Ha. simpl.
  by rewrite lookup_alter_eq, Hc.
Qed.

Lemma resumeUpload_active fileKey h c σ :
  activeUploads σ !! fileKey = Some h → controllers σ !! h = Some c →
  ctl_paused h (resumeUpload fileKey σ) = false ∧
  ctl_aborted h (resumeUpload fileKey σ) = isAborted c ∧
  activeUploads (resumeUpload fileKey σ) = activeUploads σ ∧
  uploads (resumeUpload fileKey σ) = uploads σ ∧
  s3 (resumeUpload fileKey σ) = s3 σ.
Proof.
  intros Ha Hc. unfold resumeUpload, ctl_aborted, ctl_paused. rewrite Ha. simpl.
  by rewrite lookup_alter_eq, Hc.
Qed.

Lemma idle_controller h σ :
  idle h σ → is_Some (controllers σ !! h) →
  controllers σ !! h = Some {| isPaused := false; isAborted := false |}.
Proof.
  intros [Hp Ha] [c Hc]. unfold ctl_paused, ctl_aborted in *. rewrite Hc in *.
  destruct c as [[] []]; simpl in *; congruence.
Qed.


Lemma part_uploads_snoc etag_of file key id b (j : nat) :
  part_uploads etag_of file key id b (Z.of_nat j) ++
    [(UploadPart key (b + Z.of_nat j) id (part_bytes file (b + Z.of_nat j)), true)]
  = part_uploads etag_of file key id b (Z.of_nat j + 1).
Proof.
  unfold part_uploads. rewrite seqZ_app by lia. rewrite fmap_app. f_equal.
Qed.

Section Started.
Variable etag_of : Blob → ETag.
Variables (file : File) (key : string).

(** The state in which the part loop starts once the session is open. *)
Lemma resumableUpload_started env σ :
  s3Service_configured σ = true →
  RESUMABLE_THRESHOLD ≤ file_size file →
  uploads σ !! upload_fileKey key file = None →
  let fileKey := upload_fileKey key file in
  let h := next_controller σ in
  let progress := fresh_progress file key (s3_next_upload (s3 σ)) in
  ∃ σ0,
    resumableUpload etag_of file key (quiet :: env) σ
    = upload_try_catch etag_of file key fileKey h progress env σ0 ∧
    idle h σ0 ∧ parts_below etag_of file 1 progress (s3 σ0) ∧
    activeUploads σ0 !! fileKey = Some h ∧
    controllers σ0 !! h = Some {| isPaused := false; isAborted := false |} ∧
    s3_log (s3 σ0) = s3_log (s3 σ) ++ [(CreateMultipartUpload key, true)] ∧
    s3_objects (s3 σ0) = s3_objects (s3 σ) ∧
    (∀ k, uploads σ0 !! k = uploads σ !! k).
Proof.
  intros Hcfg Hsize Hnone fileKey h progress.
  rewrite resumableUpload_fresh by done. simpl. eexists. split; [reflexivity|].
  split; [apply idle_registered|]. split; [apply parts_below_fresh|]. simpl.
  rewrite !lookup_insert_eq. done.
Qed.

End Started.

Section Interference.
Variable etag_of : Blob → ETag.

(** X6.  [cancelUpload] arrives while the part [k+1] is being sent, and that part
    is not the last one: the request goes through, its part is recorded and
    the record is written to the store - after [cancelUpload] had removed
    it - and only then the loop notices the flag and throws.  The cancelled
    upload leaves a record of the parts [1 .. k+1] behind, and its session
    open in the store. *)
Theorem cancel_in_flight_leaves_record (file : File) (key : string) (σ : Service)
    (k : nat) :
  s3Service_configured σ = true →
  RESUMABLE_THRESHOLD ≤ file_size file →
  uploads σ !! upload_fileKey key file = None →
  Z.of_nat k + 1 < ceil_div (file_size file) CHUNK_SIZE →
  let fileKey := upload_fileKey key file in
  let run := resumableUpload etag_of file key
               (replicate (S k) quiet ++ [cancelling fileKey]) σ in
  run.1.1 = Threw Cancelled ∧
  requests_since (s3 σ) (s3 run.1.2)
  = (CreateMultipartUpload key, true) ::
    part_uploads etag_of file key (s3_next_upload (s3 σ)) 1 (Z.of_nat k + 1) ∧
  activeUploads run.1.2 !! fileKey = None ∧
  ∃ p, uploads run.1.2 !! fileKey = Some p ∧
       parts_below etag_of file (Z.of_nat k + 2) p (s3 run.1.2) ∧
       is_Some (s3_sessions (s3 run.1.2) !! s3_next_upload (s3 σ)).
Proof.
  intros Hcfg Hsize Hnone Hk fileKey run. subst run.
  set (n := ceil_div (file_size file) CHUNK_SIZE) in *.
  cbn [replicate app].
  destruct (resumableUpload_started etag_of file key
              (replicate k quiet ++ [cancelling fileKey]) σ Hcfg Hsize Hnone)
    as (σ0 & -> & Hidle0 & Hbelow0 & Hact0 & Hctl0 & Hlog0 & Hobj0 & Hup0).
  fold fileKey.
  set (h := next_controller σ). set (id := s3_next_upload (s3 σ)) in *.
  set (p0 := fresh_progress file key id) in *.
  unfold upload_try_catch, upload_try. fold n.
  destruct (upload_parts_quiet_prefix etag_of file key fileKey h (Z.to_nat n) 1 1 p0 σ0 k
              [cancelling fileKey] Hidle0 ltac:(lia) Hbelow0 ltac:(lia))
    as (p' & σ1 & -> & Hbelow1 & Hid1 & Hlog1 & Hidle1 & Hact1 & Hctl1 & Hobj1 & Hframe1).
  replace (Z.to_nat (1 + Z.of_nat (Z.to_nat n) - (1 + Z.of_nat k)))
    with (S (S (Z.to_nat (n - Z.of_nat k - 2)))) by lia.
  destruct (upload_parts_step etag_of file key fileKey h (S (Z.to_nat (n - Z.of_nat k - 2)))
              (1 + Z.of_nat k) p' (cancelling fileKey) [] σ1 Hidle1 ltac:(lia) Hbelow1 eq_refl)
    as (s2 & -> & Hbelow2 & Hlog2 & Hobj2).
  set (p2 := add_part _ _ _ p') in *.
  change (run_actions (during (cancelling fileKey)) σ1) with (cancelUpload fileKey σ1).
  destruct (cancelUpload_active fileKey h {| isPaused := false; isAborted := false |} σ1)
    as (Hab & _ & Hact2 & _);
    [by rewrite Hact1|by rewrite Hctl1|].
  set (σ2 := saveUploadProgress fileKey p2 (set_s3 s2 (cancelUpload fileKey σ1))).
  assert (Hab2 : ctl_aborted h σ2 = true) by exact Hab.
  cbn [upload_parts]. rewrite Hab2. cbn beta iota. rewrite Hab2. cbn [fst snd].
  change (s3 (set_activeUploads (delete fileKey (activeUploads σ2)) σ2)) with s2.
  split; [done|]. split.
  { apply requests_since_app. rewrite Hlog2, Hlog1, Hlog0, Hid1.
    rewrite <-!app_assoc. cbn [app]. f_equal.
    change (uploadId_of p0) with id. rewrite part_uploads_snoc. done. }
  split; [apply lookup_delete_eq|].
  exists p2. split; [apply lookup_insert_eq|]. split.
  { by replace (Z.of_nat k + 2) with (1 + Z.of_nat k + 1) by lia. }
  assert (Hu : uploadId_of p2 = id) by (exact Hid1).
  destruct Hbelow2 as (sess & Hsess & _). rewrite Hu in Hsess. by eexists.
Qed.

(** X7.  [cancelUpload] arrives while the last part is being sent: the loop ends
    without looking at the flag again, the completion is sent, and the call
    returns.  The upload that was cancelled is in the store, whole. *)
Theorem cancel_during_last_part_is_ignored (file : File) (key : string) (σ : Service) :
  s3Service_configured σ = true →
  real_file file →
  RESUMABLE_THRESHOLD ≤ file_size file →
  uploads σ !! upload_fileKey key file = None →
  let n := ceil_div (file_size file) CHUNK_SIZE in
  let fileKey := upload_fileKey key file in
  let run := resumableUpload etag_of file key
               (replicate (Z.to_nat n) quiet ++ [cancelling fileKey]) σ in
  run.1.1 = Returned tt ∧
  object_body key (s3 run.1.2) = Some (file_content file) ∧
  part_requests (requests_since (s3 σ) (s3 run.1.2)) = seqZ 1 n ∧
  acknowledged (requests_since (s3 σ) (s3 run.1.2)) ∧
  uploads run.1.2 !! fileKey = None.
Proof.
  intros Hcfg Hreal Hsize Hnone n fileKey run.
  pose proof (threshold_chunks file Hsize) as Hn. fold n in Hn.
  set (id := s3_next_upload (s3 σ)).
  assert (Hrun : ∃ σ' manifest,
    run = (Returned tt, σ', []) ∧
    object_body key (s3 σ') = Some (file_content file) ∧
    requests_since (s3 σ) (s3 σ') =
      (CreateMultipartUpload key, true) :: part_uploads etag_of file key id 1 n ++
      [(CompleteMultipartUpload key id manifest, true)] ∧
    uploads σ' !! fileKey = None).
  { subst run. replace (Z.to_nat n) with (S (Z.to_nat (n - 1))) by lia.
    cbn [replicate app].
    destruct (resumableUpload_started etag_of file key
                (replicate (Z.to_nat (n - 1)) quiet ++ [cancelling fileKey]) σ Hcfg Hsize Hnone)
      as (σ0 & -> & Hidle0 & Hbelow0 & Hact0 & Hctl0 & Hlog0 & Hobj0 & Hup0).
    fold fileKey. fold id in Hbelow0 |- *.
    set (h := next_controller σ) in *.
    set (p0 := fresh_progress file key id) in *.
    unfold upload_try_catch, upload_try. fold n.
    destruct (upload_parts_quiet_prefix etag_of file key fileKey h (Z.to_nat n) 1 1 p0 σ0
                (Z.to_nat (n - 1)) [cancelling fileKey] Hidle0 ltac:(lia) Hbelow0 ltac:(lia))
      as (p' & σ1 & -> & Hbelow1 & Hid1 & Hlog1 & Hidle1 & Hact1 & Hctl1 & Hobj1 & Hframe1).
    replace (Z.to_nat (1 + Z.of_nat (Z.to_nat n) - (1 + Z.of_nat (Z.to_nat (n - 1)))))
      with 1%nat by lia.
    rewrite Z2Nat.id in * by lia.
    destruct (upload_parts_step etag_of file key fileKey h 0
                (1 + (n - 1)) p' (cancelling fileKey) [] σ1 Hidle1 ltac:(lia) Hbelow1 eq_refl)
      as (s2 & -> & Hbelow2 & Hlog2 & Hobj2).
    set (p2 := add_part _ _ _ p') in *.
    change (run_actions (during (cancelling fileKey)) σ1) with (cancelUpload fileKey σ1).
    set (σ2 := saveUploadProgress fileKey p2 (set_s3 s2 (cancelUpload fileKey σ1))).
    cbn [upload_parts next_tick]. cbn beta iota.
    change (run_actions (during quiet) σ2) with σ2. change (s3 σ2) with s2.
    change (net_ok quiet) with true.
    replace (1 + (n - 1) + 1) with (n + 1) in Hbelow2 by lia.
    destruct (complete_all_parts etag_of file key p2 s2 Hreal Hsize Hbelow2)
      as (s3' & -> & Hobj3 & Hlog3).
    cbn beta iota. eexists _, _. split; [reflexivity|].
    match goal with
    | |- context [s3 (set_activeUploads ?m (clearUploadProgress ?k (set_s3 s3' σ2)))] =>
        change (s3 (set_activeUploads m (clearUploadProgress k (set_s3 s3' σ2)))) with s3'
    end.
    split; [done|]. split; [|apply lookup_delete_eq].
    apply requests_since_app. rewrite Hlog3, Hlog2, Hlog1, Hlog0, Hid1.
    rewrite <-!app_assoc. cbn [app]. do 2 f_equal.
    change (uploadId_of p0) with id.
    match goal with |- _ ++ [?a; ?b] = _ => change [a; b] with ([a] ++ [b]) end.
    rewrite app_assoc. f_equal.
    - pose proof (part_uploads_snoc etag_of file key id 1 (Z.to_nat (n - 1))) as Hs.
      rewrite Z2Nat.id in Hs by lia. rewrite Hs. f_equal. lia.
    - do 3 f_equal. exact Hid1. }
  destruct Hrun as (σ' & manifest & -> & Hobj & Hreq & Hgone). cbn [fst snd].
  split; [done|]. split; [done|]. rewrite Hreq. split.
  { cbn [part_requests omap list_omap fst].
    change (omap ?f ?l) with (part_requests l).
    rewrite part_requests_part_uploads. simpl. by rewrite app_nil_r. }
  split; [|done].
  constructor; [done|]. apply Forall_app. split; [|by repeat constructor].
  unfold part_uploads. apply Forall_fmap. by apply Forall_true.
Qed.

(** X8.  [pauseUpload] arrives while the part [k+1] is being sent, and that part
    is not the last one.  The request goes through; at the head of the next
    round the loop writes the record of the parts [1 .. k+1] to the store
    and waits.  If nothing resumes it the promise stays pending, with the
    handle registered and paused.  If [resumeUpload] arrives during the wait
    the upload goes on and ends as an undisturbed upload does: the same
    requests in the same order, the same object. *)
Theorem pause_then_resume_is_transparent (file : File) (key : string) (σ : Service)
    (k : nat) :
  s3Service_configured σ = true →
  real_file file →
  RESUMABLE_THRESHOLD ≤ file_size file →
  uploads σ !! upload_fileKey key file = None →
  Z.of_nat k + 1 < ceil_div (file_size file) CHUNK_SIZE →
  let fileKey := upload_fileKey key file in
  let paused := resumableUpload etag_of file key
                  (replicate (S k) quiet ++ [pausing fileKey]) σ in
  let resumed := resumableUpload etag_of file key
                   (replicate (S k) quiet ++ [pausing fileKey; resuming fileKey]) σ in
  let single := resumableUpload etag_of file key [] σ in
  (paused.1.1 = Pending ∧
   isUploadActive fileKey paused.1.2 = true ∧
   isUploadPaused fileKey paused.1.2 = true ∧
   requests_since (s3 σ) (s3 paused.1.2)
   = (CreateMultipartUpload key, true) ::
     part_uploads etag_of file key (s3_next_upload (s3 σ)) 1 (Z.of_nat k + 1) ∧
   ∃ p, uploads paused.1.2 !! fileKey = Some p ∧
        parts_below etag_of file (Z.of_nat k + 2) p (s3 paused.1.2)) ∧
  (resumed.1.1 = Returned tt ∧
   requests_since (s3 σ) (s3 resumed.1.2) = requests_since (s3 σ) (s3 single.1.2) ∧
   object_body key (s3 resumed.1.2) = Some (file_content file) ∧
   uploads resumed.1.2 !! fileKey = None ∧
   isUploadActive fileKey resumed.1.2 = false).
Proof.
  intros Hcfg Hreal Hsize Hnone Hk fileKey paused resumed single.
  set (n := ceil_div (file_size file) CHUNK_SIZE) in *.
  set (h := next_controller σ). set (id := s3_next_upload (s3 σ)) in *.
  set (p0 := fresh_progress file key id) in *.
  (* the state when the pause has arrived and the part [k+1] is stored *)
  assert (Hcommon : ∀ rest, ∃ p2 s2 σ1,
    resumableUpload etag_of file key (replicate (S k) quiet ++ pausing fileKey :: rest) σ
    = (let '(r, p, σ', env') :=
         match upload_parts etag_of file key fileKey h (S (Z.to_nat (n - Z.of_nat k - 2)))
                 (Z.of_nat k + 2) p2 rest
                 (saveUploadProgress fileKey p2 (set_s3 s2 (pauseUpload fileKey σ1))) with
         | (Returned _, progress, σ, env) =>
             let parts := manifest_of progress in
             let '(t, env) := next_tick env in
             let σ := run_actions (during t) σ in
             match s3_completeMultipartUpload key (uploadId_of progress) parts
                     (net_ok t) (s3 σ) with
             | (true, s) =>
                 let σ := clearUploadProgress fileKey (set_s3 s σ) in
                 (Returned tt, progress,
                  set_activeUploads (delete fileKey (activeUploads σ)) σ, env)
             | (false, s) =>
                 (Threw (S3Failure (CompleteMultipartUpload key (uploadId_of progress) parts)),
                  progress, set_s3 s σ, env)
             end
         | r => r
         end in
       match r with
       | Threw e =>
           let σ := if ctl_aborted h σ' then σ'
                    else saveUploadProgress fileKey p σ' in
           (Threw e, set_activeUploads (delete fileKey (activeUploads σ)) σ, env')
       | _ => (r, σ', env')
       end) ∧
    parts_below etag_of file (Z.of_nat k + 2) p2 s2 ∧
    uploadId_of p2 = id ∧
    s3_log s2 = s3_log (s3 σ) ++ (CreateMultipartUpload key, true) ::
                part_uploads etag_of file key id 1 (Z.of_nat k + 1) ∧
    s3_objects s2 = s3_objects (s3 σ) ∧
    activeUploads σ1 !! fileKey = Some h ∧
    controllers σ1 !! h = Some {| isPaused := false; isAborted := false |}).
  { intros rest. cbn [replicate app].
    destruct (resumableUpload_started etag_of file key
                (replicate k quiet ++ pausing fileKey :: rest) σ Hcfg Hsize Hnone)
      as (σ0 & -> & Hidle0 & Hbelow0 & Hact0 & Hctl0 & Hlog0 & Hobj0 & Hup0).
    fold fileKey. fold h id in Hidle0, Hbelow0, Hact0, Hctl0 |- *.
    fold p0 in Hbelow0 |- *.
    unfold upload_try_catch, upload_try. fold n.
    destruct (upload_parts_quiet_prefix etag_of file key fileKey h (Z.to_nat n) 1 1 p0 σ0 k
                (pausing fileKey :: rest) Hidle0 ltac:(lia) Hbelow0 ltac:(lia))
      as (p' & σ1 & -> & Hbelow1 & Hid1 & Hlog1 & Hidle1 & Hact1 & Hctl1 & Hobj1 & Hframe1).
    replace (Z.to_nat (1 + Z.of_nat (Z.to_nat n) - (1 + Z.of_nat k)))
      with (S (S (Z.to_nat (n - Z.of_nat k - 2)))) by lia.
    destruct (upload_parts_step etag_of file key fileKey h (S (Z.to_nat (n - Z.of_nat k - 2)))
                (1 + Z.of_nat k) p' (pausing fileKey) rest σ1 Hidle1 ltac:(lia) Hbelow1
                eq_refl)
      as (s2 & -> & Hbelow2 & Hlog2 & Hobj2).
    set (p2 := add_part _ _ _ p') in *.
    change (run_actions (during (pausing fileKey)) σ1) with (pauseUpload fileKey σ1).
    replace (1 + Z.of_nat k + 1) with (Z.of_nat k + 2) in * by lia.
    exists p2, s2, σ1. split.
    { destruct (upload_parts _ _ _ _ _ _ _ _ _ _) as [[[r p] σ'] env']. done. }
    split; [done|]. split; [exact Hid1|]. split.
    { rewrite Hlog2, Hlog1, Hlog0, Hid1. rewrite <-!app_assoc. cbn [app]. do 2 f_equal.
      change (uploadId_of p0) with id. by rewrite part_uploads_snoc. }
    split; [by rewrite Hobj2, Hobj1|]. split; [by rewrite Hact1|by rewrite Hctl1]. }
  split.
  - (* nothing resumes the upload *)
    subst paused. destruct (Hcommon []) as (p2 & s2 & σ1 & -> & Hbelow2 & Hid2 & Hlog2 & Hobj2
                                            & Hact1 & Hctl1).
    destruct (pauseUpload_active fileKey h _ σ1 Hact1 Hctl1) as (Hp & Ha & Hact & _).
    set (σ2 := saveUploadProgress fileKey p2 (set_s3 s2 (pauseUpload fileKey σ1))).
    assert (Hp2 : ctl_paused h σ2 = true) by exact Hp.
    assert (Ha2 : ctl_aborted h σ2 = false) by exact Ha.
    assert (Hp3 : ctl_paused h (saveUploadProgress fileKey p2 σ2) = true) by exact Hp.
    assert (Ha3 : ctl_aborted h (saveUploadProgress fileKey p2 σ2) = false) by exact Ha.
    cbn [upload_parts]. rewrite Ha2. unfold wait_if_paused. rewrite Hp2.
    cbn [pause_wait]. rewrite Hp3, Ha3. cbn beta iota. cbn [andb negb fst snd].
    split; [done|]. split.
    { unfold isUploadActive. apply bool_decide_eq_true.
      change (activeUploads (saveUploadProgress fileKey p2 σ2))
        with (activeUploads (pauseUpload fileKey σ1)).
      rewrite Hact, Hact1. by eexists. }
    split.
    { unfold isUploadPaused.
      change (activeUploads (saveUploadProgress fileKey p2 σ2))
        with (activeUploads (pauseUpload fileKey σ1)).
      rewrite Hact, Hact1. simpl. unfold ctl_paused in Hp3.
      by destruct (controllers (saveUploadProgress fileKey p2 σ2) !! h). }
    split.
    { apply requests_since_app. exact Hlog2. }
    exists p2. split; [apply lookup_insert_eq|exact Hbelow2].
  - (* [resumeUpload] arrives during the wait *)
    subst resumed single.
    destruct (Hcommon [resuming fileKey])
      as (p2 & s2 & σ1 & -> & Hbelow2 & Hid2 & Hlog2 & Hobj2 & Hact1 & Hctl1).
    destruct (pauseUpload_active fileKey h _ σ1 Hact1 Hctl1) as (Hp & Ha & Hact & _).
    set (σ2 := saveUploadProgress fileKey p2 (set_s3 s2 (pauseUpload fileKey σ1))).
    assert (Hp2 : ctl_paused h σ2 = true) by exact Hp.
    assert (Ha2 : ctl_aborted h σ2 = false) by exact Ha.
    set (σ3 := saveUploadProgress fileKey p2 σ2).
    assert (Hp3 : ctl_paused h σ3 = true) by exact Hp.
    assert (Ha3 : ctl_aborted h σ3 = false) by exact Ha.
    assert (Hact3 : activeUploads σ3 !! fileKey = Some h).
    { change (activeUploads σ3) with (activeUploads (pauseUpload fileKey σ1)).
      by rewrite Hact. }
    assert (∃ c, controllers σ3 !! h = Some c ∧ isAborted c = false) as (c & Hc & Hcab).
    { unfold ctl_aborted in Ha3. unfold ctl_paused in Hp3.
      destruct (controllers σ3 !! h) as [c|]; [|done]. by exists c. }
    destruct (resumeUpload_active fileKey h c σ3 Hact3 Hc) as (Hp4 & Ha4 & Hact4 & Hup4 & Hs4).
    rewrite Hcab in Ha4.
    set (σ4 := resumeUpload fileKey σ3) in *.
    assert (Hidle4 : idle h σ4) by done.
    assert (Hloop : upload_parts etag_of file key fileKey h (S (Z.to_nat (n - Z.of_nat k - 2)))
                      (Z.of_nat k + 2) p2 [resuming fileKey] σ2
                    = upload_parts etag_of file key fileKey h
                        (S (Z.to_nat (n - Z.of_nat k - 2))) (Z.of_nat k + 2) p2 [] σ4).
    { rewrite (upload_parts_idle_S etag_of file key fileKey h _ _ _ [] σ4) by done.
      cbn [upload_parts]. rewrite Ha2. unfold wait_if_paused. rewrite Hp2.
      fold σ3. cbn [pause_wait]. rewrite Hp3, Ha3. cbn [andb negb].
      change (run_actions (during (resuming fileKey)) σ3) with σ4.
      destruct Hidle4 as [Hp4' Ha4']. unfold pause_wait. rewrite Hp4'. cbn [andb].
      rewrite Ha4'. reflexivity. }
    rewrite Hloop.
    assert (Hbelow4 : parts_below etag_of file (Z.of_nat k + 2) p2 (s3 σ4)).
    { rewrite Hs4. exact Hbelow2. }
    destruct (upload_parts_quiet etag_of file key fileKey h
                (S (Z.to_nat (n - Z.of_nat k - 2))) (Z.of_nat k + 2) (Z.of_nat k + 2) p2 σ4
                Hidle4 ltac:(lia) Hbelow4)
      as (p5 & σ5 & -> & Hbelow5 & Hid5 & Hlog5 & Hidle5 & Hact5 & Hobj5 & Hframe5).
    replace (Z.max (Z.of_nat k + 2)
               (Z.of_nat k + 2 + Z.of_nat (S (Z.to_nat (n - Z.of_nat k - 2)))))
      with (n + 1) in Hbelow5 by lia.
    replace (Z.of_nat k + 2 + Z.of_nat (S (Z.to_nat (n - Z.of_nat k - 2))) - (Z.of_nat k + 2))
      with (n - Z.of_nat k - 1) in Hlog5 by lia.
    cbn [next_tick]. cbn beta iota.
    change (run_actions (during quiet) σ5) with σ5. change (net_ok quiet) with true.
    destruct (complete_all_parts etag_of file key p5 (s3 σ5) Hreal Hsize Hbelow5)
      as (s6 & Hcomplete & Hobj6 & Hlog6).
    rewrite Hcomplete. cbn beta iota. cbn [fst snd].
    match goal with
    | |- context [s3 (set_activeUploads ?m (clearUploadProgress ?k (set_s3 s6 σ5)))] =>
        change (s3 (set_activeUploads m (clearUploadProgress k (set_s3 s6 σ5)))) with s6
    end.
    destruct (resumableUpload_single_pass etag_of file key σ Hcfg Hreal Hsize Hnone)
      as (σs & -> & _ & Hlogs & _).
    cbn [fst snd]. rewrite Hlogs.
    split; [done|]. split.
    { apply requests_since_app. rewrite Hlog6, Hlog5, Hs4.
      change (s3 σ3) with s2. rewrite Hlog2, Hid5, Hid2.
      rewrite <-!app_assoc. cbn [app]. do 2 f_equal.
      rewrite (manifest_of_parts_below etag_of file n p5 (s3 σ5)) by (done || lia).
      rewrite app_assoc. f_equal.
      unfold part_uploads. rewrite <-fmap_app. f_equal.
      fold n.
      replace (seqZ 1 n) with (seqZ 1 ((Z.of_nat k + 1) + (n - Z.of_nat k - 1)))
        by (f_equal; lia).
      rewrite (seqZ_app 1 (Z.of_nat k + 1) (n - Z.of_nat k - 1)) by lia.
      by replace (1 + (Z.of_nat k + 1)) with (Z.of_nat k + 2) by lia. }
    split; [done|]. split; [apply lookup_delete_eq|].
    unfold isUploadActive. apply bool_decide_eq_false.
    cbn [activeUploads set_activeUploads]. rewrite lookup_delete_eq. by intros [? ?].
Qed.

End Interference.

Lemma cancel_in_flight_witness :
  let fileKey := upload_fileKey sample_key sample_file in
  let run := resumableUpload sample_etag sample_file sample_key
               (replicate 1 quiet ++ [cancelling fileKey]) fresh_service in
  run.1.1 = Threw Cancelled ∧
  requests_since (s3 fresh_service) (s3 run.1.2)
  = (CreateMultipartUpload sample_key, true) ::
    part_uploads sample_etag sample_file sample_key (s3_next_upload (s3 fresh_service)) 1
      (Z.of_nat 0 + 1) ∧
  activeUploads run.1.2 !! fileKey = None ∧
  ∃ p, uploads run.1.2 !! fileKey = Some p ∧
       parts_below sample_etag sample_file (Z.of_nat 0 + 2) p (s3 run.1.2) ∧
       is_Some (s3_sessions (s3 run.1.2) !! s3_next_upload (s3 fresh_service)).
Proof.
  apply (cancel_in_flight_leaves_record sample_etag sample_file sample_key fresh_service 0).
  - reflexivity.
  - apply sample_threshold.
  - apply lookup_empty.
  - change (file_size sample_file) with 12582912. rewrite sample_chunks. lia.
Defined.

Lemma cancel_during_last_part_witness :
  let n := ceil_div (file_size sample_file) CHUNK_SIZE in
  let fileKey := upload_fileKey sample_key sample_file in
  let run := resumableUpload sample_etag sample_file sample_key
               (replicate (Z.to_nat n) quiet ++ [cancelling fileKey]) fresh_service in
  run.1.1 = Returned tt ∧
  object_body sample_key (s3 run.1.2) = Some (file_content sample_file) ∧
  part_requests (requests_since (s3 fresh_service) (s3 run.1.2)) = seqZ 1 n ∧
  acknowledged (requests_since (s3 fresh_service) (s3 run.1.2)) ∧
  uploads run.1.2 !! fileKey = None.
Proof.
  apply (cancel_during_last_part_is_ignored sample_etag sample_file sample_key fresh_service).
  - reflexivity.
  - apply sample_file_real.
  - apply sample_threshold.
  - apply lookup_empty.
Defined.

Lemma pause_then_resume_witness :
  let fileKey := upload_fileKey sample_key sample_file in
  let paused := resumableUpload sample_etag sample_file sample_key
                  (replicate 1 quiet ++ [pausing fileKey]) fresh_service in
  let resumed := resumableUpload sample_etag sample_file sample_key
                   (replicate 1 quiet ++ [pausing fileKey; resuming fileKey])
                   fresh_service in
  let single := resumableUpload sample_etag sample_file sample_key [] fresh_service in
  (paused.1.1 = Pending ∧
   isUploadActive fileKey paused.1.2 = true ∧
   isUploadPaused fileKey paused.1.2 = true ∧
   requests_since (s3 fresh_service) (s3 paused.1.2)
   = (CreateMultipartUpload sample_key, true) ::
     part_uploads sample_etag sample_file sample_key (s3_next_upload (s3 fresh_service)) 1
       (Z.of_nat 0 + 1) ∧
   ∃ p, uploads paused.1.2 !! fileKey = Some p ∧
        parts_below sample_etag sample_file (Z.of_nat 0 + 2) p (s3 paused.1.2)) ∧
  (resumed.1.1 = Returned tt ∧
   requests_since (s3 fresh_service) (s3 resumed.1.2)
   = requests_since (s3 fresh_service) (s3 single.1.2) ∧
   object_body sample_key (s3 resumed.1.2) = Some (file_content sample_file) ∧
   uploads resumed.1.2 !! fileKey = None ∧
   isUploadActive fileKey resumed.1.2 = false).
Proof.
  apply (pause_then_resume_is_transparent sample_etag sample_file sample_key
           fresh_service 0).
  - reflexivity.
  - apply sample_file_real.
  - apply sample_threshold.
  - apply lookup_empty.
  - change (file_size sample_file) with 12582912. rewrite sample_chunks. lia.
Defined.


(** ** The requests of a download *)

Lemma range_requests_app l1 l2 :
  range_requests (l1 ++ l2) = range_requests l1 ++ range_requests l2.
Proof. unfold range_requests. by rewrite omap_app. Qed.

Lemma range_requests_chunks key chunks :
  range_requests (chunk_request key <$> chunks) = chunk_range <$> chunks.
Proof.
  induction chunks as [|c chunks IH]; [done|].
  unfold range_requests in *. simpl. f_equal. exact IH.
Qed.

Lemma filter_entries (P : Chunk → Prop) `{!∀ c, Decision (P c)} (chunks : list Chunk) :
  ∀ g : nat → nat,
    (filter (λ e, P e.2) (imap (λ i c, (g i, c)) chunks)).*2 = filter P chunks.
Proof.
  induction chunks as [|c chunks IH]; intros g; [done|].
  rewrite imap_cons, !filter_cons. cbn [snd].
  specialize (IH (g ∘ S)).
  destruct (decide (P c)); [rewrite fmap_cons; cbn [snd]; f_equal|]; exact IH.
Qed.

Section DownloadRequests.
Variables (key fileKey : string) (obj : S3Object).

Lemma download_chunks_log es :
  ∀ progress dl env σ r p' dl' σ' env',
    s3_objects (s3 σ) !! key = Some obj →
    all_ok env → Forall (λ e, c_start e.2 < blob_size (obj_body obj)) es →
    download_chunks key fileKey es progress dl env σ = (r, p', dl', σ', env') →
    r = Returned tt ∧ all_ok env' ∧
    s3_objects (s3 σ') !! key = Some obj ∧
    s3_log (s3 σ') = s3_log (s3 σ) ++
      (chunk_request key <$> (filter (λ e, c_downloaded e.2 = false) es).*2) ∧
    chunk_range <$> dp_chunks p' = chunk_range <$> dp_chunks progress ∧
    (∀ i, is_Some (dl' !! i) ↔
          is_Some (dl !! i) ∨ ∃ c, (i, c) ∈ es ∧ c_downloaded c = false).
Proof.
  induction es as [|[index c] es IH];
    intros progress dl env σ r p' dl' σ' env' Hobj Henv Hrange Hrun.
  { simpl in Hrun. injection Hrun as <- <- <- <- <-. simpl. rewrite app_nil_r.
    do 5 (split; [done|]). intros i. split; [by left|].
    intros [?|(c & Hc & _)]; [done|]. by apply elem_of_nil in Hc. }
  simpl in Hrun. apply Forall_cons in Hrange as [Hlt Hrange]. simpl in Hlt.
  rewrite filter_cons. simpl.
  destruct (c_downloaded c) eqn:Hdone.
  { rewrite decide_False by done.
    destruct (IH _ _ _ _ _ _ _ _ _ Hobj Henv Hrange Hrun) as (?&?&?&?&?&Hdom).
    do 5 (split; [done|]). intros i. rewrite Hdom. split.
    - intros [?|(c' & Hc' & ?)]; [by left|]. right. exists c'. split; [|done].
      apply elem_of_cons. by right.
    - intros [?|(c' & Hc' & ?)]; [by left|]. right. exists c'. split; [|done].
      apply elem_of_cons in Hc' as [[= -> ->]|?]; [congruence|done]. }
  rewrite decide_True by done.
  destruct (next_tick env) as [t env1] eqn:Htick.
  destruct (next_tick_all_ok _ _ _ Henv Htick) as [Hnet Henv1].
  destruct (s3_getObject_spec key (c_start c) (c_end c) (net_ok t)
              (s3 (run_actions (during t) σ)) obj) as (s' & Hobjs & Hget).
  { by rewrite s3_run_actions. }
  assert (Hlog : s3_log s' = s3_log (s3 σ) ++ [chunk_request key c]).
  { unfold s3_getObject in Hget. rewrite s3_run_actions, Hnet, Hobj in Hget.
    rewrite (proj2 (Z.ltb_lt _ _) Hlt) in Hget. simpl in Hget. by injection Hget as <-. }
  rewrite Hget in Hrun. clear Hget.
  rewrite Hnet, (proj2 (Z.ltb_lt _ _) Hlt) in Hrun. simpl in Hrun.
  eapply IH in Hrun as (?&?&?&Hlog'&Hr&Hdom); [|simpl; by rewrite Hobjs, s3_run_actions|done..].
  split; [done|]. split; [done|]. split; [done|]. split.
  { rewrite Hlog'. simpl. rewrite Hlog, <-app_assoc. done. }
  split.
  { rewrite Hr. simpl. apply ranges_alter_mark. }
  intros i. rewrite Hdom, lookup_insert. split.
  - intros [Hi|(c' & Hc' & ?)].
    + case_decide; [subst|by left]. right. exists c. split; [|done].
      apply elem_of_cons. by left.
    + right. exists c'. split; [|done]. apply elem_of_cons. by right.
  - intros [Hi|(c' & Hc' & ?)].
    + left. by case_decide.
    + apply elem_of_cons in Hc' as [[= -> ->]|?].
      * left. by rewrite decide_True.
      * right. by exists c'.
Qed.

Lemma assemble_log chunks :
  ∀ i dl allChunks env σ r σ' env',
    s3_objects (s3 σ) !! key = Some obj →
    all_ok env → Forall (λ c, c_start c < blob_size (obj_body obj)) chunks →
    assemble key chunks i dl allChunks env σ = (r, σ', env') →
    (∃ result, r = Returned result) ∧
    s3_log (s3 σ') = s3_log (s3 σ) ++ (chunk_request key <$> unbuffered dl i chunks).
Proof.
  induction chunks as [|c chunks IH];
    intros i dl allChunks env σ r σ' env' Hobj Henv Hrange Hrun; simpl in Hrun.
  { injection Hrun as <- <- <-. simpl. rewrite app_nil_r. eauto. }
  apply Forall_cons in Hrange as [Hlt Hrange]. simpl.
  destruct (dl !! i) as [b|] eqn:Hb; [by eapply IH|].
  destruct (next_tick env) as [t env1] eqn:Htick.
  destruct (next_tick_all_ok _ _ _ Henv Htick) as [Hnet Henv1].
  destruct (s3_getObject_spec key (c_start c) (c_end c) (net_ok t)
              (s3 (run_actions (during t) σ)) obj) as (s' & Hobjs & Hget).
  { by rewrite s3_run_actions. }
  assert (Hlog : s3_log s' = s3_log (s3 σ) ++ [chunk_request key c]).
  { unfold s3_getObject in Hget. rewrite s3_run_actions, Hnet, Hobj in Hget.
    rewrite (proj2 (Z.ltb_lt _ _) Hlt) in Hget. simpl in Hget. by injection Hget as <-. }
  rewrite Hget in Hrun. clear Hget.
  rewrite Hnet, (proj2 (Z.ltb_lt _ _) Hlt) in Hrun. simpl in Hrun.
  eapply IH in Hrun as (? & Hlog'); [|simpl; by rewrite Hobjs, s3_run_actions|done..].
  split; [done|]. rewrite Hlog'. simpl. by rewrite Hlog, <-app_assoc.
Qed.

End DownloadRequests.

Lemma unbuffered_ranges (dl : gmap nat Blob) (orig : list Chunk) :
  ∀ (chunks : list Chunk) (i0 : nat),
    chunk_range <$> chunks = chunk_range <$> orig →
    (∀ (j : nat) c, orig !! j = Some c →
       (is_Some (dl !! (i0 + j)%nat) ↔ c_downloaded c = false)) →
    chunk_range <$> unbuffered dl i0 chunks
    = chunk_range <$> filter (λ c, c_downloaded c = true) orig.
Proof.
  induction orig as [|c orig IH]; intros chunks i0 Hr Hdl.
  { destruct chunks; [done|]. by rewrite fmap_cons in Hr. }
  destruct chunks as [|c' chunks]; [by rewrite fmap_cons in Hr|].
  rewrite !fmap_cons in Hr. injection Hr as Hs He Hr.
  simpl. rewrite filter_cons.
  pose proof (Hdl 0%nat c eq_refl) as H0. rewrite Nat.add_0_r in H0.
  assert (Hrest : chunk_range <$> unbuffered dl (S i0) chunks
                  = chunk_range <$> filter (λ c, c_downloaded c = true) orig).
  { apply IH; [done|]. intros j c0 Hj.
    replace (S i0 + j)%nat with (i0 + S j)%nat by lia. by apply (Hdl (S j)). }
  destruct (dl !! i0) as [b|] eqn:Hb.
  - rewrite decide_False; [done|]. destruct H0 as [H0 _]. rewrite H0 by eauto. done.
  - rewrite decide_True.
    + rewrite !fmap_cons, Hrest. unfold chunk_range at 1 3. by rewrite Hs, He.
    + destruct (c_downloaded c); [done|]. destruct H0 as [_ H0].
      destruct H0 as [? ?]; done.
Qed.

Lemma chunk_request_ranges key (l1 l2 : list Chunk) :
  chunk_range <$> l1 = chunk_range <$> l2 →
  chunk_request key <$> l1 = chunk_request key <$> l2.
Proof.
  intros H.
  apply (f_equal (fmap (λ r : Z * Z, (GetObject key r.1 r.2, true)))) in H.
  by rewrite <-!list_fmap_compose in H.
Qed.

Lemma filter_downloaded_length (chunks : list Chunk) :
  (length (filter (λ c, c_downloaded c = false) chunks)
   + length (filter (λ c, c_downloaded c = true) chunks))%nat = length chunks.
Proof.
  induction chunks as [|c chunks IH]; [done|].
  rewrite !filter_cons. destruct (c_downloaded c) eqn:Hc.
  - rewrite decide_False, decide_True by done. simpl. lia.
  - rewrite decide_True, decide_False by done. simpl. lia.
Qed.

Lemma filter_fresh_chunks totalSize :
  filter (λ c, c_downloaded c = false) (make_chunks totalSize) = make_chunks totalSize ∧
  filter (λ c, c_downloaded c = true) (make_chunks totalSize) = [].
Proof.
  unfold make_chunks. induction (seqZ 0 (ceil_div totalSize CHUNK_SIZE)) as [|i l [IH1 IH2]];
    [done|].
  rewrite fmap_cons, !filter_cons.
  destruct (decide (c_downloaded (chunk_at totalSize i) = false)) as [_|Hn];
    [|by destruct Hn].
  destruct (decide (c_downloaded (chunk_at totalSize i) = true)) as [Ht|_]; [done|].
  by rewrite IH1, IH2.
Qed.

Section DownloadTraffic.
Variables (key fileName : string) (obj : S3Object).

(** The requests of a download no request of which fails: the head request,
    the ranges of the chunks the record does not mark as downloaded, then the
    ranges of the chunks it does. *)
Lemma resumableDownload_requests env σ :
  s3Service_configured σ = true →
  s3_objects (s3 σ) !! key = Some obj →
  all_ok env →
  (∀ p, downloads σ !! download_fileKey key fileName = Some p →
        dp_lastModified p = obj_lastModified obj →
        tiles 0 (blob_size (obj_body obj)) (dp_chunks p)) →
  let used :=
    match downloads σ !! download_fileKey key fileName with
    | Some p => if bool_decide (dp_lastModified p = obj_lastModified obj)
                then dp_chunks p else make_chunks (blob_size (obj_body obj))
    | None => make_chunks (blob_size (obj_body obj))
    end in
  ∃ result σ' env',
    resumableDownload key fileName env σ = (Returned result, σ', env') ∧
    requests_since (s3 σ) (s3 σ') =
      (HeadObject key, true) ::
      (chunk_request key <$> filter (λ c, c_downloaded c = false) used) ++
      (chunk_request key <$> filter (λ c, c_downloaded c = true) used) ∧
    downloads σ' !! download_fileKey key fileName = None.
Proof.
  intros Hcfg Hobj Henv Hstored used.
  unfold resumableDownload, checkS3Configuration.
  rewrite Hcfg. simpl. unfold loadDownloadProgress. simpl.
  destruct (next_tick env) as [t env1] eqn:Htick. unfold s3_headObject.
  rewrite s3_run_actions.
  destruct (next_tick_all_ok _ _ _ Henv Htick) as [Hnet Henv1].
  rewrite Hnet. change (s3 (set_has_s3 true σ)) with (s3 σ). rewrite Hobj. simpl.
  set (fk := download_fileKey key fileName) in *.
  set (σ1 := set_s3 _ _).
  assert (Hobj1 : s3_objects (s3 σ1) !! key = Some obj) by done.
  assert (Hlog1 : s3_log (s3 σ1) = s3_log (s3 σ) ++ [(HeadObject key, true)]) by done.
  assert (Hpick : ∃ progress σ2,
    (let '(progress, σ) :=
        match downloads σ !! fk with
        | Some p =>
            if negb (bool_decide (dp_lastModified p = obj_lastModified obj))
            then (None, clearDownloadProgress fk σ1) else (Some p, σ1)
        | None => (None, σ1)
        end in
      (match progress with
       | Some p => p
       | None => fresh_download key fileName (blob_size (obj_body obj)) (obj_lastModified obj)
       end, σ)) = (progress, σ2) ∧
    dp_chunks progress = used ∧
    tiles 0 (blob_size (obj_body obj)) (dp_chunks progress) ∧
    s3 σ2 = s3 σ1).
  { subst used. destruct (downloads σ !! fk) as [p|] eqn:Hp.
    - destruct (bool_decide (dp_lastModified p = obj_lastModified obj)) eqn:Hlm; simpl.
      + apply bool_decide_eq_true in Hlm.
        exists p, σ1. split; [done|]. split; [done|]. split; [by apply Hstored|done].
      + eexists _, _. split; [done|]. split; [done|]. split; [|done].
        apply tiles_make_chunks. unfold blob_size. lia.
    - eexists _, _. split; [done|]. split; [done|]. split; [|done].
      apply tiles_make_chunks. unfold blob_size. lia. }
  destruct Hpick as (progress & σ2 & Hpick & Hused & Htiles & Hs2). clearbody used.
  destruct (match downloads σ !! fk with Some _ => _ | None => _ end) as [po σ2'].
  injection Hpick as Hprog ->. rewrite Hprog. clear Hprog po.
  assert (Hstarts : Forall (λ e : nat * Chunk, c_start e.2 < blob_size (obj_body obj))
                      (imap (λ i c, (i, c)) (dp_chunks progress))).
  { apply Forall_forall. intros e He.
    apply elem_of_lookup_imap_1 in He as (i & c & -> & Hi). simpl.
    pose proof (tiles_starts _ _ _ Htiles) as Hall. rewrite Forall_forall in Hall.
    apply Hall. by eapply list_elem_of_lookup_2. }
  destruct (download_chunks _ _ _ _ _ _ _) as [[[[r1 p1] dl1] σ3] env2] eqn:Hloop.
  eapply (download_chunks_log key fk obj) in Hloop; [|by rewrite Hs2|done..].
  destruct Hloop as (-> & Henv2 & Hobj3 & Hlog3 & Hranges & Hdom).
  pose proof (filter_entries (λ c, c_downloaded c = false) (dp_chunks progress) id) as Hf.
  unfold id in Hf. rewrite Hf in Hlog3. clear Hf.
  destruct (assemble _ _ _ _ _ _ _) as [[r2 σ4] env3] eqn:Hasm.
  eapply (assemble_log key obj) in Hasm; [|done..|].
  2:{ eapply Forall_impl; [apply (tiles_starts 0 (blob_size (obj_body obj)))|done].
      by eapply tiles_ranges. }
  destruct Hasm as ([result ->] & Hlog4).
  eexists _, _, _. split; [reflexivity|]. split; [|apply lookup_delete_eq].
  apply requests_since_app. simpl. rewrite Hlog4, Hlog3, Hs2, Hlog1, Hused.
  rewrite <-!app_assoc. simpl. do 3 f_equal.
  apply chunk_request_ranges. subst used.
  apply unbuffered_ranges; [done|]. intros j c Hj. simpl. rewrite Hdom. split.
  - intros [[? Hempty]|(c' & Hc' & Hundone)]; [by rewrite lookup_empty in Hempty|].
    apply elem_of_lookup_imap_1 in Hc' as (i & c0 & [= -> ->] & Hi). congruence.
  - intros Hundone. right. exists c. split; [|done].
    by apply (elem_of_lookup_imap_2 (λ i c, (i, c))).
Qed.

(** X9.  A download resumed from a record of the engine - one with the chunk
    table of the object - sends a range request for every chunk: first for
    the chunks the record does not mark, then again for the ones it marks,
    whose bytes were not kept.  These are the range requests of a download
    that starts without a record, in another order: the record saves no
    transfer. *)
Theorem resumed_download_fetches_every_chunk (env : Env) (σ : Service)
    (p : DownloadProgress) :
  s3Service_configured σ = true →
  s3_objects (s3 σ) !! key = Some obj →
  all_ok env →
  downloads σ !! download_fileKey key fileName = Some p →
  dp_lastModified p = obj_lastModified obj →
  chunk_range <$> dp_chunks p = chunk_range <$> make_chunks (blob_size (obj_body obj)) →
  let resumed := resumableDownload key fileName env σ in
  let fresh :=
    resumableDownload key fileName env
      (clearDownloadProgress (download_fileKey key fileName) σ) in
  resumed.1.1 = Returned (obj_body obj) ∧
  fresh.1.1 = Returned (obj_body obj) ∧
  range_requests (requests_since (s3 σ) (s3 resumed.1.2))
  = (chunk_range <$> filter (λ c, c_downloaded c = false) (dp_chunks p)) ++
    (chunk_range <$> filter (λ c, c_downloaded c = true) (dp_chunks p)) ∧
  range_requests (requests_since (s3 σ) (s3 fresh.1.2))
  = chunk_range <$> make_chunks (blob_size (obj_body obj)) ∧
  range_requests (requests_since (s3 σ) (s3 resumed.1.2))
  ≡ₚ range_requests (requests_since (s3 σ) (s3 fresh.1.2)) ∧
  downloads resumed.1.2 !! download_fileKey key fileName = None.
Proof.
  intros Hcfg Hobj Henv Hp Hlm Hranges resumed fresh.
  set (fk := download_fileKey key fileName) in *.
  assert (Htiles : tiles 0 (blob_size (obj_body obj)) (dp_chunks p)).
  { apply (tiles_ranges _ _ (make_chunks (blob_size (obj_body obj)))); [done|].
    apply tiles_make_chunks. unfold blob_size. lia. }
  assert (Hstored : ∀ p', downloads σ !! fk = Some p' →
            dp_lastModified p' = obj_lastModified obj →
            tiles 0 (blob_size (obj_body obj)) (dp_chunks p')).
  { intros p' Hp' _. by replace p' with p by congruence. }
  destruct (resumableDownload_requests env σ Hcfg Hobj Henv Hstored)
    as (r1 & σ1 & env1 & Hrun1 & Hlog1 & Hgone1).
  destruct (resumableDownload_spec key fileName obj env σ _ _ _ Hcfg Hobj Hstored Hrun1)
    as (_ & _ & Hr1).
  fold fk in Hlog1. rewrite Hp, bool_decide_eq_true_2 in Hlog1 by done.
  assert (Hstored2 : ∀ p', downloads (clearDownloadProgress fk σ) !! fk = Some p' →
            dp_lastModified p' = obj_lastModified obj →
            tiles 0 (blob_size (obj_body obj)) (dp_chunks p')).
  { intros p'. simpl. by rewrite lookup_delete_eq. }
  destruct (resumableDownload_requests env (clearDownloadProgress fk σ) Hcfg Hobj Henv
              Hstored2) as (r2 & σ2 & env2 & Hrun2 & Hlog2 & Hgone2).
  destruct (resumableDownload_spec key fileName obj env (clearDownloadProgress fk σ) _ _ _
              Hcfg Hobj Hstored2 Hrun2)
    as (_ & _ & Hr2).
  fold fk in Hlog2. simpl in Hlog2. rewrite lookup_delete_eq in Hlog2.
  destruct (filter_fresh_chunks (blob_size (obj_body obj))) as [Hf1 Hf2].
  rewrite Hf1, Hf2, app_nil_r in Hlog2.
  subst resumed fresh. fold fk. rewrite Hrun1, Hrun2. cbn [fst snd].
  assert (Hreq1 : range_requests (requests_since (s3 σ) (s3 σ1))
    = (chunk_range <$> filter (λ c, c_downloaded c = false) (dp_chunks p)) ++
      (chunk_range <$> filter (λ c, c_downloaded c = true) (dp_chunks p))).
  { rewrite Hlog1. change (range_requests (?a :: ?l)) with (range_requests l).
    by rewrite range_requests_app, !range_requests_chunks. }
  assert (Hreq2 : range_requests (requests_since (s3 σ) (s3 σ2))
    = chunk_range <$> make_chunks (blob_size (obj_body obj))).
  { change (s3 (clearDownloadProgress fk σ)) with (s3 σ) in Hlog2. rewrite Hlog2.
    change (range_requests (?a :: ?l)) with (range_requests l).
    by rewrite range_requests_chunks. }
  split; [by apply Hr1|]. split; [by apply Hr2|]. split; [done|]. split; [done|].
  split; [|done].
  rewrite Hreq1, Hreq2, <-Hranges, <-fmap_app. apply fmap_Permutation.
  clear. induction (dp_chunks p) as [|c l IH]; [done|].
  rewrite !filter_cons. destruct (c_downloaded c) eqn:Hc.
  - rewrite decide_False, decide_True by done.
    rewrite <-Permutation_middle. by constructor.
  - rewrite decide_True, decide_False by done. simpl. by constructor.
Qed.

End DownloadTraffic.

(** ** A record of another version of the object *)

Lemma run_action_set_downloads a m σ :
  run_action a (set_downloads m σ) = set_downloads m (run_action a σ).
Proof.
  destruct a as [k|k|k]; simpl.
  - unfold pauseUpload. simpl. by destruct (activeUploads σ !! k).
  - unfold resumeUpload. simpl. by destruct (activeUploads σ !! k).
  - unfold cancelUpload, abort. simpl. by destruct (activeUploads σ !! k).
Qed.

Lemma run_actions_set_downloads acts m σ :
  run_actions acts (set_downloads m σ) = set_downloads m (run_actions acts σ).
Proof.
  revert σ. induction acts as [|a acts IH]; intros σ; [done|].
  unfold run_actions in *. simpl. by rewrite run_action_set_downloads, IH.
Qed.

(** X10.  A stored record whose modification time is not the one the head request
    reports is dropped before the first chunk is requested: the call runs as
    it does from a store without the record, to the same result, state and
    requests. *)
Theorem stale_download_record_is_dropped (key fileName : string) (obj : S3Object)
    (env : Env) (σ : Service) (p : DownloadProgress) :
  s3Service_configured σ = true →
  s3_objects (s3 σ) !! key = Some obj →
  net_ok (next_tick env).1 = true →
  downloads σ !! download_fileKey key fileName = Some p →
  dp_lastModified p ≠ obj_lastModified obj →
  resumableDownload key fileName env σ
  = resumableDownload key fileName env
      (clearDownloadProgress (download_fileKey key fileName) σ).
Proof.
  intros Hcfg Hobj Hnet Hp Hlm.
  unfold resumableDownload, checkS3Configuration. simpl.
  rewrite Hcfg. simpl. unfold loadDownloadProgress. simpl.
  destruct (next_tick env) as [t env1]. simpl in Hnet. unfold s3_headObject.
  rewrite !s3_run_actions. simpl. rewrite Hnet, Hobj, Hp, lookup_delete_eq.
  rewrite bool_decide_eq_false_2 by done. simpl.
  set (fk := download_fileKey key fileName).
  replace (clearDownloadProgress fk
             (set_s3 (s3_logged (HeadObject key) true (s3 σ))
                (run_actions (during t) (set_has_s3 true σ))))
    with (set_s3 (s3_logged (HeadObject key) true (s3 σ))
            (run_actions (during t)
               (set_has_s3 true (set_downloads (delete fk (downloads σ)) σ)))); [done|].
  change (set_has_s3 true (set_downloads (delete fk (downloads σ)) σ))
    with (set_downloads (delete fk (downloads σ)) (set_has_s3 true σ)).
  rewrite run_actions_set_downloads. unfold clearDownloadProgress. simpl.
  by rewrite downloads_run_actions.
Qed.

Lemma sample_object_size : blob_size (obj_body sample_object) = 12582912.
Proof.
  change (obj_body sample_object) with (replicate (Z.to_nat 12582912) x00).
  unfold blob_size. rewrite length_replicate. lia.
Qed.

Lemma resumed_download_witness :
  let resumed := resumableDownload sample_key "video.bin" [] download_service in
  let fresh :=
    resumableDownload sample_key "video.bin" []
      (clearDownloadProgress (download_fileKey sample_key "video.bin") download_service) in
  resumed.1.1 = Returned (obj_body sample_object) ∧
  fresh.1.1 = Returned (obj_body sample_object) ∧
  range_requests (requests_since (s3 download_service) (s3 resumed.1.2))
  = (chunk_range <$> filter (λ c, c_downloaded c = false) (dp_chunks sample_download)) ++
    (chunk_range <$> filter (λ c, c_downloaded c = true) (dp_chunks sample_download)) ∧
  range_requests (requests_since (s3 download_service) (s3 fresh.1.2))
  = chunk_range <$> make_chunks (blob_size (obj_body sample_object)) ∧
  range_requests (requests_since (s3 download_service) (s3 resumed.1.2))
  ≡ₚ range_requests (requests_since (s3 download_service) (s3 fresh.1.2)) ∧
  downloads resumed.1.2 !! download_fileKey sample_key "video.bin" = None.
Proof.
  apply (resumed_download_fetches_every_chunk sample_key "video.bin" sample_object []
           download_service sample_download).
  - reflexivity.
  - apply lookup_singleton_eq.
  - constructor.
  - apply lookup_singleton_eq.
  - reflexivity.
  - rewrite sample_object_size. vm_compute. reflexivity.
Defined.

Lemma stale_download_witness :
  resumableDownload sample_key "video.bin" [] stale_download_service
  = resumableDownload sample_key "video.bin" []
      (clearDownloadProgress (download_fileKey sample_key "video.bin")
         stale_download_service).
Proof.
  apply (stale_download_record_is_dropped sample_key "video.bin" sample_object []
           stale_download_service stale_download).
  - reflexivity.
  - apply lookup_singleton_eq.
  - reflexivity.
  - apply lookup_singleton_eq.
  - change (1690000000000 ≠ 1700000000000). lia.
Defined.


(** ** The key variations of [cancelUpload] on the keys of files *)

Lemma pretty_N_go_numeral x :
  ∀ s, numeral s → numeral (pretty_N_go x s).
Proof.
  induction (N.lt_wf_0 x) as [x _ IH]. intros s Hs.
  destruct (decide (0 < x)%N) as [Hx|Hx].
  - rewrite pretty_N_go_step by done. apply IH; [by apply N.div_lt|].
    split; [done|]. simpl. constructor; [|apply Hs].
    unfold pretty_N_char. by repeat case_match.
  - replace x with 0%N by lia. by rewrite pretty_N_go_0.
Qed.

Lemma pretty_N_numeral (x : N) : numeral (pretty x).
Proof.
  unfold pretty, pretty_N. case_decide; [by split; [|repeat constructor]|].
  rewrite pretty_N_go_step by lia. apply pretty_N_go_numeral.
  split; [done|]. simpl. constructor; [|constructor].
  unfold pretty_N_char. by repeat case_match.
Qed.

Lemma pretty_Z_numeral (z : Z) : 0 ≤ z → numeral (pretty z).
Proof.
  destruct z as [|x|x]; [| |lia]; intros _.
  - by split; [|repeat constructor].
  - apply (pretty_N_numeral (N.pos x)).
Qed.

(** The two regular expressions of [cancelUpload] take the key of a file
    apart as it was put together: [/_\d+$/] removes the modification time,
    [/_\d+_\d+$/] the size as well. *)
Lemma key_variations (key : string) (file : File) :
  0 ≤ file_size file → 0 ≤ file_lastModified file →
  strip_num_suffix (upload_fileKey key file)
  = key +:+ "_" +:+ file_name file +:+ "_" +:+ pretty (file_size file) ∧
  strip_two_num_suffixes (upload_fileKey key file)
  = key +:+ "_" +:+ file_name file.
Proof.
  intros Hs Hl. unfold strip_num_suffix, strip_two_num_suffixes, upload_fileKey.
  assert (H1 : match_num_suffix
                 (key +:+ "_" +:+ file_name file +:+ "_" +:+ pretty (file_size file)
                      +:+ "_" +:+ pretty (file_lastModified file))
               = Some (key +:+ "_" +:+ file_name file +:+ "_" +:+ pretty (file_size file))).
  { rewrite <-(match_num_suffix_app _ (pretty (file_lastModified file)))
      by by apply pretty_Z_numeral.
    by rewrite !string_app_assoc. }
  assert (H2 : match_num_suffix
                 (key +:+ "_" +:+ file_name file +:+ "_" +:+ pretty (file_size file))
               = Some (key +:+ "_" +:+ file_name file)).
  { rewrite <-(match_num_suffix_app _ (pretty (file_size file)))
      by by apply pretty_Z_numeral.
    by rewrite !string_app_assoc. }
  rewrite H1. simpl. by rewrite H2.
Qed.

(** X11.  [cancelUpload] on the key of a file removes, besides the record of the
    file, whatever is stored under the key without the modification time
    and under the key of path and name alone - the key [abortUpload] falls
    back to; every other record stays. *)
Theorem cancelUpload_clears_shorter_keys (key : string) (file : File) (σ : Service) :
  0 ≤ file_size file → 0 ≤ file_lastModified file →
  let fileKey := upload_fileKey key file in
  let sized := key +:+ "_" +:+ file_name file +:+ "_" +:+ pretty (file_size file) in
  let named := key +:+ "_" +:+ file_name file in
  strip_num_suffix fileKey = sized ∧
  strip_two_num_suffixes fileKey = named ∧
  uploads (cancelUpload fileKey σ)
  = delete named (delete sized (delete fileKey (uploads σ))) ∧
  (∀ fileSize lastModified,
     fileSize = None ∨ fileSize = Some (file_size file) →
     lastModified = None ∨ lastModified = Some (file_lastModified file) →
     uploads (cancelUpload fileKey σ)
       !! abort_fileKey key (file_name file) fileSize lastModified = None).
Proof.
  intros Hs Hl fileKey sized named.
  destruct (key_variations key file Hs Hl) as [H1 H2].
  split; [done|]. split; [done|].
  assert (Hup : uploads (cancelUpload fileKey σ)
                = delete named (delete sized (delete fileKey (uploads σ)))).
  { subst fileKey. by rewrite cancelUpload_uploads, H1, H2. }
  split; [done|]. intros fileSize lastModified Hfs Hlm. rewrite Hup.
  unfold abort_fileKey.
  destruct (truthy fileSize && truthy lastModified) eqn:Ht.
  - apply andb_prop in Ht as [Ht1 Ht2].
    destruct Hfs as [->| ->]; [done|]. destruct Hlm as [->| ->]; [done|]. simpl.
    rewrite lookup_delete. case_decide; [done|].
    rewrite lookup_delete. case_decide; [done|]. apply lookup_delete_eq.
  - apply lookup_delete_eq.
Qed.

Lemma cancelUpload_clears_shorter_keys_witness :
  let fileKey := upload_fileKey sample_key sample_file in
  let sized := sample_key +:+ "_" +:+ file_name sample_file +:+ "_"
                 +:+ pretty (file_size sample_file) in
  let named := sample_key +:+ "_" +:+ file_name sample_file in
  strip_num_suffix fileKey = sized ∧
  strip_two_num_suffixes fileKey = named ∧
  uploads (cancelUpload fileKey interrupted_service)
  = delete named (delete sized (delete fileKey (uploads interrupted_service))) ∧
  (∀ fileSize lastModified,
     fileSize = None ∨ fileSize = Some (file_size sample_file) →
     lastModified = None ∨ lastModified = Some (file_lastModified sample_file) →
     uploads (cancelUpload fileKey interrupted_service)
       !! abort_fileKey sample_key (file_name sample_file) fileSize lastModified = None).
Proof.
  apply (cancelUpload_clears_shorter_keys sample_key sample_file interrupted_service).
  - change (file_size sample_file) with 12582912. lia.
  - change (file_lastModified sample_file) with 1700000000000. lia.
Defined.


(** ** Removing items from the queue *)

Lemma abortUpload_after_cancel (key : string) (file : File) (env : Env) (σ : Service) :
  0 ≤ file_size file → 0 ≤ file_lastModified file →
  let σc := cancelUpload (upload_fileKey key file) σ in
  let run := abortUpload key (file_name file) (Some (file_size file))
               (Some (file_lastModified file)) env σc in
  run.2 = env ∧ run.1.1 ≠ Pending ∧
  s3 run.1.2 = s3 σ ∧
  activeUploads run.1.2 = activeUploads σc ∧
  (∀ k p, uploads run.1.2 !! k = Some p → uploads σ !! k = Some p) ∧
  uploads run.1.2 !! upload_fileKey key file = None.
Proof.
  intros Hs Hl σc run.
  destruct (key_variations key file Hs Hl) as [H1 H2].
  assert (Hup : uploads σc
                = delete (key +:+ "_" +:+ file_name file)
                    (delete (key +:+ "_" +:+ file_name file +:+ "_"
                               +:+ pretty (file_size file))
                       (delete (upload_fileKey key file) (uploads σ)))).
  { subst σc. by rewrite cancelUpload_uploads, H1, H2. }
  assert (Hgone : uploads σc
                    !! abort_fileKey key (file_name file) (Some (file_size file))
                         (Some (file_lastModified file)) = None).
  { rewrite Hup. unfold abort_fileKey.
    destruct (truthy (Some (file_size file)) && truthy (Some (file_lastModified file))).
    - simpl. rewrite lookup_delete. case_decide; [done|].
      rewrite lookup_delete. case_decide; [done|]. apply lookup_delete_eq.
    - apply lookup_delete_eq. }
  assert (Hsub : ∀ k p, uploads σc !! k = Some p → uploads σ !! k = Some p).
  { intros k p. rewrite Hup. rewrite !lookup_delete_Some. tauto. }
  assert (Hfk : uploads σc !! upload_fileKey key file = None).
  { rewrite Hup. rewrite !lookup_delete. repeat case_decide; try done. }
  subst run. unfold abortUpload.
  assert (Hchk : activeUploads (checkS3Configuration σc) = activeUploads σc).
  { unfold checkS3Configuration. by destruct (s3Service_configured σc). }
  assert (Hs3 : s3 σc = s3 σ) by apply s3_cancelUpload.
  clearbody σc.
  destruct (svc_has_s3 (checkS3Configuration σc)) eqn:Hhas; simpl.
  - unfold loadUploadProgress. rewrite uploads_checked, Hgone. simpl.
    rewrite s3_checked, Hs3.
    split; [done|]. split; [done|]. split; [done|]. split; [done|].
    split.
    + intros k p. rewrite lookup_delete_Some, uploads_checked. intros [_ ?]. by apply Hsub.
    + rewrite lookup_delete. case_decide; [done|]. by rewrite uploads_checked.
  - rewrite s3_checked, Hs3, uploads_checked. done.
Qed.

Lemma removeAlternativeKeys_spec item σ :
  s3 (removeAlternativeKeys item σ) = s3 σ ∧
  activeUploads (removeAlternativeKeys item σ) = activeUploads σ ∧
  uploads (removeAlternativeKeys item σ)
  = delete (item_key item)
      (delete (item_key item +:+ "_" +:+ file_name (item_file item))
         (delete (item_fileKey item) (uploads σ))).
Proof. done. Qed.

(** X12.  [removeFromQueue] never reaches the store: for a resumable item that is
    being uploaded it calls [abortUpload], but only after [cancelUpload] has
    deleted the record [abortUpload] takes the upload id from, so no abort
    request is sent and nothing is awaited; the multipart session stays open.
    What it does remove are the items with the id, the records under the
    three keys derived from the item, and the handle of the upload. *)
Theorem removeFromQueue_sends_no_abort (id : string) (env : Env) (u : UploadQueue) :
  (∀ item, find_item id (queue u) = Some item → plain_item item) →
  let after := removeFromQueue id env u in
  after.2 = env ∧
  s3 (service after.1) = s3 (service u) ∧
  queue after.1 = filter (λ q, item_id q ≠ id) (queue u) ∧
  (∀ item, find_item id (queue u) = Some item →
     uploads (service after.1) !! item_fileKey item = None ∧
     uploads (service after.1)
       !! (item_key item +:+ "_" +:+ file_name (item_file item)) = None ∧
     uploads (service after.1) !! item_key item = None ∧
     (isResumable item = true →
        activeUploads (service after.1) !! item_fileKey item = None)) ∧
  (∀ k p, uploads (service after.1) !! k = Some p → uploads (service u) !! k = Some p).
Proof.
  intros Hplain after. subst after. unfold removeFromQueue.
  destruct (find_item id (queue u)) as [item|] eqn:Hfind; [|done].
  destruct (Hplain item eq_refl) as [Hs Hl].
  set (σ := service u).
  assert (Hinner : ∃ σ1,
    (if isResumable item
     then if bool_decide (item_status item = Uploading)
          then abortUpload_of item env (cancelUpload (item_fileKey item) σ)
          else (cancelUpload (item_fileKey item) σ, env)
     else (σ, env)) = (σ1, env) ∧
    s3 σ1 = s3 σ ∧
    (∀ k p, uploads σ1 !! k = Some p → uploads σ !! k = Some p) ∧
    (isResumable item = true → activeUploads σ1 !! item_fileKey item = None)).
  { destruct (isResumable item); [|by exists σ].
    assert (Hact : activeUploads (cancelUpload (item_fileKey item) σ)
                     !! item_fileKey item = None).
    { unfold cancelUpload, abort.
      destruct (activeUploads σ !! item_fileKey item) eqn:Ha; simpl;
        [apply lookup_delete_eq|done]. }
    destruct (bool_decide (item_status item = Uploading)).
    - unfold abortUpload_of.
      destruct (abortUpload_after_cancel (item_key item) (item_file item) env σ Hs Hl)
        as (Henv & _ & Hs3 & Hact' & Hsub & _).
      fold (item_fileKey item) in *.
      destruct (abortUpload _ _ _ _ _ _) as [[r σ1] env1]. simpl in *. subst env1.
      exists σ1. split; [done|]. split; [done|]. split; [done|].
      intros _. by rewrite Hact'.
    - eexists. split; [done|]. split; [apply s3_cancelUpload|]. split; [|done].
      intros k p. rewrite cancelUpload_uploads, !lookup_delete_Some. tauto. }
  destruct Hinner as (σ1 & -> & Hs3 & Hsub & Hact). cbn [fst snd].
  change (service (set_queue ?l (set_service ?s ?u0))) with s.
  destruct (removeAlternativeKeys_spec item σ1) as (Hr1 & Hr2 & Hr3).
  split; [done|]. split; [by rewrite Hr1|]. split; [done|]. split.
  - intros item' [= <-]. rewrite Hr3, Hr2.
    split; [|split; [|split]]; [| | |done];
      rewrite !lookup_delete; repeat case_decide; done.
  - intros k p. rewrite Hr3, !lookup_delete_Some. intros (_ & _ & _ & ?). by apply Hsub.
Qed.

Lemma clearAll_step_spec (acc : Service * Env) (item : UploadQueueItem) :
  plain_item item →
  (clearAll_step acc item).2 = acc.2 ∧
  s3 (clearAll_step acc item).1 = s3 acc.1 ∧
  (∀ k p, uploads (clearAll_step acc item).1 !! k = Some p → uploads acc.1 !! k = Some p) ∧
  (isResumable item = true → item_status item ≠ Completed →
     uploads (clearAll_step acc item).1 !! item_fileKey item = None).
Proof.
  intros [Hs Hl]. destruct acc as [σ env]. unfold clearAll_step.
  destruct (isResumable item); simpl; [|done].
  destruct (bool_decide (item_status item = Completed)) eqn:Hst; simpl.
  { apply bool_decide_eq_true in Hst. done. }
  destruct (abortUpload_after_cancel (item_key item) (item_file item) env σ Hs Hl)
    as (Henv & Hnp & Hs3 & Hact' & Hsub & Hgone).
  fold (item_fileKey item) in *.
  destruct (abortUpload _ _ _ _ _ _) as [[r σ1] env1]. cbn [fst snd] in *. subst env1.
  destruct r as [[]|e|]; [|done..].
  destruct (removeAlternativeKeys_spec item σ1) as (Hr1 & Hr2 & Hr3). cbn [fst snd].
  split; [done|]. split; [by rewrite Hr1|]. split.
  - intros k p. rewrite Hr3, !lookup_delete_Some. intros (_ & _ & _ & ?). by apply Hsub.
  - intros _ _. rewrite Hr3, !lookup_delete. repeat case_decide; done.
Qed.

(** X13.  [clearAll] empties the queue and, like [removeFromQueue], sends no
    abort request for any of the uploads it cancels: nothing is awaited and
    the store is as it was, every session still open.  The records of the
    resumable items that were not completed are deleted. *)
Theorem clearAll_sends_no_abort (env : Env) (u : UploadQueue) :
  Forall plain_item (queue u) →
  let after := clearAll env u in
  after.2 = env ∧
  s3 (service after.1) = s3 (service u) ∧
  queue after.1 = [] ∧
  (∀ k p, uploads (service after.1) !! k = Some p → uploads (service u) !! k = Some p) ∧
  (∀ item, item ∈ queue u → isResumable item = true → item_status item ≠ Completed →
           uploads (service after.1) !! item_fileKey item = None).
Proof.
  intros Hplain after. subst after. unfold clearAll.
  assert (Hfold : ∀ l acc, Forall plain_item l →
    (foldl clearAll_step acc l).2 = acc.2 ∧
    s3 (foldl clearAll_step acc l).1 = s3 acc.1 ∧
    (∀ k p, uploads (foldl clearAll_step acc l).1 !! k = Some p →
            uploads acc.1 !! k = Some p) ∧
    (∀ item, item ∈ l → isResumable item = true → item_status item ≠ Completed →
             uploads (foldl clearAll_step acc l).1 !! item_fileKey item = None)).
  { clear. induction l as [|item l IH]; intros acc Hl.
    { simpl. do 3 (split; [done|]). intros item Hin. by apply elem_of_nil in Hin. }
    apply Forall_cons in Hl as [Hitem Hl]. simpl.
    destruct (IH (clearAll_step acc item) Hl) as (He & Hs & Hsub & Hgone).
    destruct (clearAll_step_spec acc item Hitem) as (He1 & Hs1 & Hsub1 & Hgone1).
    split; [by rewrite He|]. split; [by rewrite Hs|]. split.
    { intros k p Hk. by apply Hsub1, Hsub. }
    intros item' Hin Hres Hst. apply elem_of_cons in Hin as [->|Hin]; [|by apply Hgone].
    destruct (uploads (foldl clearAll_step (clearAll_step acc item) l).1
                !! item_fileKey item) as [p|] eqn:Hp; [|done].
    apply Hsub in Hp. by rewrite Hgone1 in Hp. }
  destruct (Hfold (queue u) (service u, env) Hplain) as (He & Hs & Hsub & Hgone).
  destruct (foldl clearAll_step (service u, env) (queue u)) as [σ1 env1].
  simpl in *. done.
Qed.

Lemma uploading_item_plain : plain_item uploading_item.
Proof.
  split; [change (0 ≤ 12582912)|change (0 ≤ 1700000000000)]; lia.
Qed.

Lemma removeFromQueue_witness :
  let after := removeFromQueue "a" [failing] uploading_queue in
  after.2 = [failing] ∧
  s3 (service after.1) = s3 (service uploading_queue) ∧
  queue after.1 = filter (λ q, item_id q ≠ "a") (queue uploading_queue) ∧
  (∀ item, find_item "a" (queue uploading_queue) = Some item →
     uploads (service after.1) !! item_fileKey item = None ∧
     uploads (service after.1)
       !! (item_key item +:+ "_" +:+ file_name (item_file item)) = None ∧
     uploads (service after.1) !! item_key item = None ∧
     (isResumable item = true →
        activeUploads (service after.1) !! item_fileKey item = None)) ∧
  (∀ k p, uploads (service after.1) !! k = Some p →
          uploads (service uploading_queue) !! k = Some p).
Proof.
  apply (removeFromQueue_sends_no_abort "a" [failing] uploading_queue).
  intros item H. vm_compute in H. injection H as <-. apply uploading_item_plain.
Defined.

Lemma clearAll_witness :
  let after := clearAll [failing] uploading_queue in
  after.2 = [failing] ∧
  s3 (service after.1) = s3 (service uploading_queue) ∧
  queue after.1 = [] ∧
  (∀ k p, uploads (service after.1) !! k = Some p →
          uploads (service uploading_queue) !! k = Some p) ∧
  (∀ item, item ∈ queue uploading_queue → isResumable item = true →
           item_status item ≠ Completed →
           uploads (service after.1) !! item_fileKey item = None).
Proof.
  apply (clearAll_sends_no_abort [failing] uploading_queue).
  repeat constructor; [change (0 ≤ 12582912)|change (0 ≤ 1700000000000)]; lia.
Defined.


(** ** Which items the queue starts *)

Lemma elem_of_update_item id f l q :
  q ∈ update_item id f l →
  ∃ q0, q0 ∈ l ∧ q = (if bool_decide (item_id q0 = id) then f q0 else q0).
Proof.
  unfold update_item. intros (q0 & -> & Hq0)%list_elem_of_fmap. by exists q0.
Qed.

Lemma find_item_Some id l item :
  find_item id l = Some item → item ∈ l ∧ item_id item = id.
Proof.
  unfold find_item. induction l as [|q l IH]; [done|]. simpl.
  case_bool_decide as Hq.
  - intros [= <-]. split; [|done]. apply elem_of_cons. by left.
  - intros H. destruct (IH H). split; [|done]. apply elem_of_cons. by right.
Qed.

Lemma find_item_None id l :
  find_item id l = None → ∀ q, q ∈ l → item_id q ≠ id.
Proof.
  unfold find_item. induction l as [|q l IH]; intros H q' Hq'.
  { by apply elem_of_nil in Hq'. }
  simpl in H. case_bool_decide as Hq; [done|].
  apply elem_of_cons in Hq' as [->|?]; [done|]. by apply IH.
Qed.

Section Parked.
Variable percent_ge_99_9 : Z → Z → bool.

Lemma addFilesToQueue_items currentPath files u q :
  q ∈ queue (addFilesToQueue currentPath files u) →
  q ∈ queue u ∨
  ∃ id file,
    (id, file) ∈ files ∧
    q = {| item_id := id; item_file := file; item_key := currentPath +:+ file_name file;
           item_status :=
             match loadUploadProgress (upload_fileKey (currentPath +:+ file_name file) file)
                     (service u) with
             | Some _ => Paused
             | None => Queued
             end;
           item_error := None;
           isResumable := bool_decide (RESUMABLE_THRESHOLD ≤ file_size file) |}.
Proof.
  unfold addFilesToQueue.
  match goal with |- context [omap ?f files] => set (mk := f) end.
  assert (Hnew : ∀ q, q ∈ omap mk files →
                 ∃ id file, (id, file) ∈ files ∧ mk (id, file) = Some q).
  { intros q' Hq'. apply list_elem_of_omap in Hq' as ([id file] & Hin & Hmk). eauto. }
  destruct (omap mk files) as [|q0 l] eqn:Hl; [by left|].
  simpl. intros [?|Hq]%elem_of_app; [by left|]. right.
  destruct (Hnew q Hq) as (id & file & Hin & Hmk). exists id, file. split; [done|].
  subst mk. simpl in Hmk. destruct (find _ _); [done|]. by injection Hmk as <-.
Qed.

Lemma queue_step_parked id u ev :
  parked id u → ¬ requeues id ev → parked id (queue_step u ev).
Proof.
  intros [Hitems Hrun] Hev. destruct ev as [path files| |outcome|id'|id'|id'|id'|]; simpl.
  - (* addFilesToQueue *)
    split.
    + intros q Hq Hid. apply addFilesToQueue_items in Hq as [Hq|(i & f & Hin & ->)];
        [by apply Hitems|].
      exfalso. apply Hev. simpl in *. subst i.
      apply list_elem_of_fmap. by exists (id, f).
    + intros item. unfold addFilesToQueue. destruct (omap _ _); apply Hrun.
  - (* processQueue *)
    unfold processQueue. destruct (_ || _); [done|].
    destruct (filter _ _) as [|nextItem rest] eqn:Hf; [done|].
    assert (Hnext : nextItem ∈ queue u ∧ item_status nextItem = Queued).
    { assert (nextItem ∈ filter (λ item, item_status item = Queued) (queue u)) as Hin
        by (rewrite Hf; apply elem_of_cons; by left).
      by apply list_elem_of_filter in Hin as [? ?]. }
    assert (Hne : item_id nextItem ≠ id).
    { intros Hid. destruct Hnext as [Hin Hst].
      destruct (Hitems _ Hin Hid) as [_ [?|?]]; congruence. }
    unfold processUploadItem_begin.
    destruct (find_item _ _); [|done].
    destruct (_ || _); [done|]. destruct (isUploadActive _ _); [done|]. simpl.
    split.
    + intros q Hq Hid. apply elem_of_update_item in Hq as (q0 & Hq0 & ->).
      case_bool_decide as Hq0id.
      * exfalso. apply Hne. simpl in Hid. congruence.
      * by apply Hitems.
    + by intros item [= <-].
  - (* the transfer has settled *)
    unfold processQueue_settled. destruct (running u) as [item|] eqn:Hr.
    2:{ split; [done|]. by rewrite Hr. }
    assert (Hne : item_id item ≠ id) by by apply Hrun.
    destruct outcome as [message|]; simpl.
    + split; [|done]. case_bool_decide; intros q Hq Hid.
      * apply elem_of_update_item in Hq as (q0 & Hq0 & ->).
        case_bool_decide as Hq0id; [|by apply Hitems]. simpl in Hid. congruence.
      * apply elem_of_update_item in Hq as (q0 & Hq0 & ->).
        case_bool_decide as Hq0id; [|by apply Hitems]. simpl in Hid. congruence.
    + split; [|done]. intros q Hq Hid.
      apply elem_of_update_item in Hq as (q0 & Hq0 & ->).
      case_bool_decide as Hq0id; [|by apply Hitems]. simpl in Hid. congruence.
  - (* a completed item is dropped *)
    split; [|done]. intros q Hq. apply list_elem_of_filter in Hq as [_ Hq].
    by apply Hitems.
  - (* pauseUpload *)
    split; [|done]. intros q Hq Hid.
    apply elem_of_update_item in Hq as (q0 & Hq0 & ->).
    case_bool_decide as Hq0id; [|by apply Hitems]. simpl in *.
    destruct (Hitems q0 Hq0 Hid) as [? _]. split; [done|by left].
  - (* resumeUpload *)
    split; [|done]. intros q Hq Hid.
    apply elem_of_update_item in Hq as (q0 & Hq0 & ->).
    case_bool_decide as Hq0id; [|by apply Hitems]. simpl in *.
    destruct (Hitems q0 Hq0 Hid) as [Hres _]. split; [done|].
    destruct (find_item id' (queue u)) as [item|] eqn:Hfind.
    + apply find_item_Some in Hfind as [Hin Hitem].
      destruct (Hitems item Hin ltac:(congruence)) as [-> _]. by right.
    + exfalso. by apply (find_item_None _ _ Hfind q0).
  - (* retryUpload *)
    split; [|done]. intros q Hq Hid.
    apply elem_of_update_item in Hq as (q0 & Hq0 & ->).
    case_bool_decide as Hq0id; [|by apply Hitems]. simpl in *.
    exfalso. apply Hev. congruence.
  - (* clearCompleted *)
    split; [|done]. intros q Hq. apply list_elem_of_filter in Hq as [_ Hq].
    by apply Hitems.
Qed.

Lemma loadPending_fold_items inQ l :
  ∀ acc q,
    q ∈ (foldl (loadPending_step percent_ge_99_9 inQ) acc l).1 →
    q ∈ acc.1 ∨ (isResumable q = true ∧ item_status q = Paused).
Proof.
  induction l as [|[k p] l IH]; intros acc q Hq; [by left|].
  simpl in Hq. apply IH in Hq as [Hq|?]; [|by right].
  destruct acc as [items σ]. unfold loadPending_step in Hq.
  destruct (existsb _ _); [by left|].
  destruct (percent_ge_99_9 _ _); [by left|].
  destruct (_ <=? _); [by left|].
  simpl in Hq. apply elem_of_app in Hq as [?|Hq]; [by left|].
  apply list_elem_of_singleton in Hq as ->. by right.
Qed.

Lemma mount_parked id σ : parked id (mount percent_ge_99_9 σ).
Proof.
  unfold mount, loadPendingUploads. simpl.
  match goal with
  | |- context [foldl ?f ?a ?l] =>
      pose proof (loadPending_fold_items [] l a) as Hitems;
      destruct (foldl f a l) as [items σ']
  end.
  simpl in Hitems. destruct items as [|q0 items]; (split; [|done]).
  - intros q Hq. by apply elem_of_nil in Hq.
  - intros q Hq _. simpl in Hq.
    destruct (Hitems q Hq) as [Hnil|[? ?]]; [by apply elem_of_nil in Hnil|].
    split; [done|by left].
Qed.

(** X14.  The items the queue shows for stored progress - the uploads it restores
    when it is mounted, and files added again while their record is there -
    are paused and resumable.  No step of the queue ever hands such an item
    to the engine: [processQueue] takes queued items only, pausing and
    resuming relabel the item as paused or uploading, and only a retry or
    adding the file anew makes an item queued.  Every item of a queue that
    has just been mounted is in that position. *)
Theorem restored_uploads_are_never_started (id : string) (evs : list QueueEvent)
    (u : UploadQueue) :
  parked id u →
  Forall (λ ev, ¬ requeues id ev) evs →
  parked id (foldl queue_step u evs) ∧
  (∀ σ, parked id (mount percent_ge_99_9 σ)).
Proof.
  intros Hu Hevs. split; [|intros σ; apply mount_parked].
  revert u Hu. induction Hevs as [|ev evs Hev _ IH]; intros u Hu; [done|].
  simpl. apply IH. by apply queue_step_parked.
Qed.

End Parked.

Lemma restored_uploads_witness :
  let id := "pending_docs/video.bin_video.bin_12582912_1700000000000" in
  let evs := [EvResume id; EvProcessQueue; EvPause id; EvSettled None] in
  parked id (foldl queue_step (mount sample_percent interrupted_service) evs) ∧
  (∀ σ, parked id (mount sample_percent σ)).
Proof.
  apply (restored_uploads_are_never_started sample_percent).
  - apply mount_parked.
  - repeat constructor; simpl; tauto.
Defined.


(** ** The resumable flag of the queue and the threshold of the engine *)

Section Flag.
Variable etag_of : Blob → ETag.

Lemma resumableUpload_TooSmall_iff file key env σ :
  s3Service_configured σ = true →
  (resumableUpload etag_of file key env σ).1.1 = Threw TooSmall ↔
  file_size file < RESUMABLE_THRESHOLD.
Proof.
  intros Hcfg. unfold resumableUpload, register_controller.
  rewrite has_s3_checked by done. simpl.
  destruct (file_size file <? RESUMABLE_THRESHOLD) eqn:Hlt.
  { apply Z.ltb_lt in Hlt. done. }
  apply Z.ltb_ge in Hlt. split; [|lia]. intros H. exfalso. revert H.
  destruct (loadUploadProgress _ _) as [p|].
  - match goal with |- context [if ?b then (None, _) else _] => destruct b end.
    + destruct (next_tick env) as [t env'].
      destruct (s3_createMultipartUpload _ _ _) as [[id|] s]; [|done].
      apply upload_try_catch_not_TooSmall.
    + apply upload_try_catch_not_TooSmall.
  - destruct (next_tick env) as [t env'].
    destruct (s3_createMultipartUpload _ _ _) as [[id|] s]; [|done].
    apply upload_try_catch_not_TooSmall.
Qed.

(** X15.  The queue marks a file it adds as resumable exactly when the engine
    accepts it: the items it hands to [resumableUpload] are never rejected
    as too small, and the others would be.  The upload panel draws the line
    one byte higher: without stored progress it does not mark a file of
    exactly 10 MiB, which the engine would take. *)
Theorem resumable_flag_matches_threshold (currentPath : string)
    (files : list (string * File)) (u : UploadQueue) (q : UploadQueueItem)
    (env : Env) (σ : Service) :
  q ∈ queue (addFilesToQueue currentPath files u) →
  q ∉ queue u →
  s3Service_configured σ = true →
  (isResumable q = true ↔
   (resumableUpload etag_of (item_file q) (item_key q) env σ).1.1 ≠ Threw TooSmall) ∧
  (fileUpload_isResumable None (item_file q) = true → isResumable q = true) ∧
  (file_size (item_file q) = 10 * 1024 * 1024 →
   isResumable q = true ∧ fileUpload_isResumable None (item_file q) = false).
Proof.
  intros Hq Hnew Hcfg.
  apply addFilesToQueue_items in Hq as [?|(id & file & Hin & ->)]; [done|]. simpl.
  rewrite resumableUpload_TooSmall_iff by done.
  change RESUMABLE_THRESHOLD with 10485760. change (10 * 1024 * 1024) with 10485760.
  split; [|split].
  - rewrite bool_decide_eq_true. lia.
  - rewrite bool_decide_eq_true. intros ?%Z.ltb_lt. lia.
  - intros ->. split; [by apply bool_decide_eq_true|by apply Z.ltb_ge].
Qed.

End Flag.

Lemma resumable_flag_witness :
  let u := addFilesToQueue "docs/" [("b", small_file)] (empty_queue fresh_service) in
  let q := {| item_id := "b"; item_file := small_file; item_key := "docs/notes.txt";
              item_status := Queued; item_error := None; isResumable := false |} in
  (isResumable q = true ↔
   (resumableUpload sample_etag (item_file q) (item_key q) [] fresh_service).1.1
   ≠ Threw TooSmall) ∧
  (fileUpload_isResumable None (item_file q) = true → isResumable q = true) ∧
  (file_size (item_file q) = 10 * 1024 * 1024 →
   isResumable q = true ∧ fileUpload_isResumable None (item_file q) = false).
Proof.
  apply (resumable_flag_matches_threshold sample_etag "docs/" [("b", small_file)]
           (empty_queue fresh_service)).
  - vm_compute. apply elem_of_cons. by left.
  - apply not_elem_of_nil.
  - reflexivity.
Defined.

(** ** Adding files twice *)

Lemma omap_nil_all {A B} (f : A → option B) (l : list A) :
  Forall (λ x, f x = None) l → omap f l = [].
Proof. induction 1 as [|x l Hx _ IH]; [done|]. simpl. by rewrite Hx. Qed.

Lemma find_app_Some {A} (P : A → bool) (l1 l2 : list A) x :
  find P l1 = Some x → is_Some (find P (l1 ++ l2)).
Proof.
  induction l1 as [|y l1 IH]; [done|]. simpl. destruct (P y); [by eauto|]. exact IH.
Qed.

Lemma find_elem {A} (P : A → bool) (l : list A) x :
  x ∈ l → P x = true → is_Some (find P l).
Proof.
  induction l as [|y l IH]; intros Hx HP; [by apply elem_of_nil in Hx|]. simpl.
  destruct (P y) eqn:HPy; [by eauto|].
  apply elem_of_cons in Hx as [->|Hx]; [congruence|by apply IH].
Qed.

(** X16.  [addFilesToQueue] keeps the items of the queue, in place, and appends
    new ones after them.  A file that is in the queue with the same path,
    name, size and modification time is skipped, so adding the same files a
    second time changes nothing; files that are new come with the status
    'paused' when progress is stored for them and 'queued' otherwise. *)
Theorem addFilesToQueue_skips_known_files (currentPath : string)
    (files : list (string * File)) (u : UploadQueue) :
  let u' := addFilesToQueue currentPath files u in
  (∃ newItems, queue u' = queue u ++ newItems ∧
     ∀ q, q ∈ newItems →
       ∃ id file, (id, file) ∈ files ∧ item_id q = id ∧ item_file q = file ∧
         item_key q = currentPath +:+ file_name file ∧
         item_status q =
           match loadUploadProgress (upload_fileKey (item_key q) file) (service u) with
           | Some _ => Paused
           | None => Queued
           end) ∧
  service u' = service u ∧
  addFilesToQueue currentPath files u' = u'.
Proof.
  intros u'. subst u'.
  assert (Hu' : ∃ mk, addFilesToQueue currentPath files u
                      = match omap mk files with
                        | [] => u
                        | _ => set_queue (queue u ++ omap mk files) u
                        end ∧
                      mk = (λ '(id, file),
      let key := currentPath +:+ file_name file in
      match find (λ q, bool_decide (item_key q = key)
                       && bool_decide (file_name (item_file q) = file_name file)
                       && bool_decide (file_size (item_file q) = file_size file)
                       && bool_decide (file_lastModified (item_file q)
                                       = file_lastModified file))
                 (queue u) with
      | Some _ => None
      | None =>
          Some {| item_id := id; item_file := file; item_key := key;
                  item_status :=
                    match loadUploadProgress (upload_fileKey key file) (service u) with
                    | Some _ => Paused
                    | None => Queued
                    end;
                  item_error := None;
                  isResumable := bool_decide (RESUMABLE_THRESHOLD ≤ file_size file) |}
      end)).
  { eexists. split; [|reflexivity]. reflexivity. }
  destruct Hu' as (mk & -> & Hdef).
  assert (Hnew : ∀ q, q ∈ omap mk files →
    ∃ id file, (id, file) ∈ files ∧ mk (id, file) = Some q).
  { intros q' Hq'. apply list_elem_of_omap in Hq' as ([id file] & Hin & Hmk). eauto. }
  assert (Hshape : ∀ q, q ∈ omap mk files →
    ∃ id file, (id, file) ∈ files ∧ item_id q = id ∧ item_file q = file ∧
      item_key q = currentPath +:+ file_name file ∧
      item_status q =
        match loadUploadProgress (upload_fileKey (item_key q) file) (service u) with
        | Some _ => Paused
        | None => Queued
        end).
  { intros q Hq. destruct (Hnew q Hq) as (id & file & Hin & Hmk'). exists id, file.
    split; [done|]. rewrite Hdef in Hmk'. simpl in Hmk'. destruct (find _ _); [done|].
    injection Hmk' as <-. simpl. done. }
  assert (Hagain : ∀ l, (∀ q, q ∈ omap mk files → q ∈ l) →
    addFilesToQueue currentPath files (set_queue (queue u ++ l) u)
    = set_queue (queue u ++ l) u).
  { intros l Hl. unfold addFilesToQueue. rewrite omap_nil_all; [done|].
    apply Forall_forall. intros [id file] Hin. simpl.
    match goal with |- match find ?P _ with _ => _ end = None => set (known := P) end.
    assert (is_Some (find known (queue u ++ l))) as [? ->]; [|done].
    destruct (find known (queue u)) as [q0|] eqn:Hfind; [by eapply find_app_Some|].
    assert (Hmk' : ∃ q, mk (id, file) = Some q ∧ known q = true).
    { rewrite Hdef. subst known. simpl. rewrite Hfind. eexists. split; [done|]. simpl.
      by rewrite !bool_decide_eq_true_2. }
    destruct Hmk' as (q & Hmk' & Hknown).
    apply (find_elem known _ q); [|done]. apply elem_of_app. right. apply Hl.
    apply list_elem_of_omap. by exists (id, file). }
  destruct (omap mk files) as [|q0 l] eqn:Hl.
  - split; [exists []; split; [by rewrite app_nil_r|]; intros q Hq;
            by apply elem_of_nil in Hq|].
    split; [done|]. specialize (Hagain [] ltac:(done)).
    rewrite app_nil_r in Hagain. by destruct u.
  - split; [by exists (q0 :: l)|]. split; [done|]. by apply Hagain.
Qed.


(** ** Cancelling in the upload panel *)

Lemma string_app_ne (s t : string) : t ≠ "" → s +:+ t ≠ s.
Proof.
  intros Ht. induction s as [|c s IH]; [done|].
  change (String c (s +:+ t) ≠ String c s). by intros [= ?].
Qed.

Lemma short_key_ne (key : string) (file : File) :
  upload_fileKey key file ≠ key +:+ "_" +:+ file_name file.
Proof.
  unfold upload_fileKey.
  rewrite <-(string_app_assoc key "_"), <-(string_app_assoc (key +:+ "_")).
  rewrite <-(string_app_assoc key "_" (file_name file)).
  by apply string_app_ne.
Qed.

(** X17.  The upload panel cancels with [abortUpload(key, fileName)], without size
    and modification time, so [abortUpload] looks under the key of path and
    name, where the engine stores nothing: unless a record lies there, no
    abort request is sent, nothing is awaited, and the record of the upload
    - stored under the key with size and modification time - stays where it
    is, as does its session. *)
Theorem panel_cancel_misses_the_record (currentPath : string) (file : File)
    (env : Env) (σ : Service) :
  s3Service_configured σ = true →
  uploads σ !! ((currentPath +:+ file_name file) +:+ "_" +:+ file_name file) = None →
  let key := currentPath +:+ file_name file in
  let after := fileUpload_cancelUpload currentPath (file_name file) true env σ in
  after.2 = env ∧
  s3 after.1 = s3 σ ∧
  uploads after.1 = uploads σ ∧
  uploads after.1 !! upload_fileKey key file = uploads σ !! upload_fileKey key file ∧
  abort_fileKey key (file_name file) None None ≠ upload_fileKey key file.
Proof.
  intros Hcfg Hnone key after. subst after. unfold fileUpload_cancelUpload. fold key.
  assert (Hfk : abort_fileKey key (file_name file) None None
                = key +:+ "_" +:+ file_name file) by done.
  rewrite abortUpload_no_session by (try done; rewrite Hfk; subst key; by rewrite Hnone).
  rewrite Hfk. cbn [fst snd]. unfold clearUploadProgress.
  change (uploads (set_uploads ?m ?s)) with m.
  change (s3 (set_uploads ?m ?s)) with (s3 s).
  change (uploads (set_has_s3 ?b ?s)) with (uploads s).
  change (s3 (set_has_s3 ?b ?s)) with (s3 s).
  rewrite delete_id by done.
  split; [done|]. split; [done|]. split; [done|]. split; [done|].
  intros Heq. by apply (short_key_ne key file).
Qed.

Lemma panel_cancel_witness :
  let key := "docs/" +:+ file_name sample_file in
  let after := fileUpload_cancelUpload "docs/" (file_name sample_file) true [failing]
                 interrupted_service in
  after.2 = [failing] ∧
  s3 after.1 = s3 interrupted_service ∧
  uploads after.1 = uploads interrupted_service ∧
  uploads after.1 !! upload_fileKey key sample_file
  = uploads interrupted_service !! upload_fileKey key sample_file ∧
  abort_fileKey key (file_name sample_file) None None ≠ upload_fileKey key sample_file.
Proof.
  apply (panel_cancel_misses_the_record "docs/" sample_file [failing] interrupted_service).
  - reflexivity.
  - change (file_name sample_file) with "video.bin".
    rewrite interrupted_service_uploads. apply decide_False. vm_compute. discriminate.
Defined.

(** ** Cancelling in the download manager *)

Lemma download_chunks_saved key fileKey es :
  ∀ progress dl env σ r p' dl' σ' env',
    download_chunks key fileKey es progress dl env σ = (r, p', dl', σ', env') →
    ∀ k p, downloads σ' !! k = Some p →
           downloads σ !! k = Some p ∨
           (k = fileKey ∧ dp_key p = dp_key progress ∧ dp_fileName p = dp_fileName progress).
Proof.
  induction es as [|[index c] es IH]; intros progress dl env σ r p' dl' σ' env' Hrun k p Hk.
  { simpl in Hrun. injection Hrun as <- <- <- <- <-. by left. }
  simpl in Hrun. destruct (c_downloaded c); [by eapply IH|].
  destruct (next_tick env) as [t env1].
  destruct (s3_getObject _ _ _ _ _) as [[body|] s].
  - destruct (IH _ _ _ _ _ _ _ _ _ Hrun k p Hk) as [Hold|(-> & Hk1 & Hk2)].
    + simpl in Hold. rewrite lookup_insert in Hold. case_decide as Hfk.
      * injection Hold as <-. subst. by right.
      * left. by rewrite downloads_run_actions in Hold.
    + by right.
  - injection Hrun as <- <- <- <- <-. left. simpl in Hk.
    by rewrite downloads_run_actions in Hk.
Qed.

Lemma resumableDownload_keyed key fileName env σ :
  keyed σ → keyed (resumableDownload key fileName env σ).1.2.
Proof.
  intros Hkeyed. unfold resumableDownload.
  assert (Hchk : downloads (checkS3Configuration σ) = downloads σ).
  { unfold checkS3Configuration. by destruct (s3Service_configured σ). }
  unfold loadDownloadProgress. rewrite Hchk.
  assert (Hσ0 : keyed (checkS3Configuration σ)) by (unfold keyed; by rewrite Hchk).
  generalize dependent (checkS3Configuration σ). intros σ0 Hchk Hσ0.
  destruct (negb (svc_has_s3 σ0)); [done|].
  set (fk := download_fileKey key fileName).
  destruct (next_tick env) as [t env1].
  destruct (s3_headObject _ _ _) as [[[totalSize lastModified]|] s]; simpl.
  2:{ unfold keyed. simpl. by rewrite downloads_run_actions. }
  set (σ1 := set_s3 s (run_actions (during t) σ0)).
  assert (Hσ1 : downloads σ1 = downloads σ).
  { subst σ1. simpl. by rewrite downloads_run_actions. }
  assert (Hpick : ∃ progress σ2,
    (let '(progress, σ) :=
        match downloads σ !! fk with
        | Some p =>
            if negb (bool_decide (dp_lastModified p = lastModified))
            then (None, clearDownloadProgress fk σ1) else (Some p, σ1)
        | None => (None, σ1)
        end in
      (match progress with
       | Some p => p
       | None => fresh_download key fileName totalSize lastModified
       end, σ)) = (progress, σ2) ∧
    fk = download_fileKey (dp_key progress) (dp_fileName progress) ∧
    keyed σ2).
  { destruct (downloads σ !! fk) as [p|] eqn:Hp.
    - destruct (bool_decide (dp_lastModified p = lastModified)); simpl.
      + exists p, σ1. split; [done|]. split; [by apply Hkeyed|].
        unfold keyed. by rewrite Hσ1.
      + eexists _, _. split; [done|]. split; [done|].
        intros k p'.
        change (downloads (clearDownloadProgress fk σ1)) with (delete fk (downloads σ1)).
        rewrite Hσ1, lookup_delete_Some. intros [_ ?]. by apply Hkeyed.
    - eexists _, _. split; [done|]. split; [done|]. unfold keyed. by rewrite Hσ1. }
  destruct Hpick as (progress & σ2 & Hpick & Hfk & Hσ2).
  destruct (match downloads σ !! fk with Some _ => _ | None => _ end) as [po σ2'].
  injection Hpick as Hprog ->. rewrite Hprog. clear Hprog po.
  destruct (download_chunks _ _ _ _ _ _ _) as [[[[r1 p1] dl1] σ3] env2] eqn:Hloop.
  assert (Hσ3 : keyed σ3).
  { intros k p Hk.
    destruct (download_chunks_saved _ _ _ _ _ _ _ _ _ _ _ _ Hloop k p Hk)
      as [?|(-> & -> & ->)]; [by apply Hσ2|done]. }
  destruct r1 as [[]|e|]; [|done..].
  destruct (assemble _ _ _ _ _ _ _) as [[r2 σ4] env3] eqn:Hasm.
  apply assemble_store in Hasm.
  destruct r2; simpl; [|unfold keyed; by rewrite Hasm..].
  intros k p.
  change (downloads (clearDownloadProgress fk σ4)) with (delete fk (downloads σ4)).
  rewrite lookup_delete_Some, Hasm. intros [_ ?]. by apply Hσ3.
Qed.

(** X18.  The download manager deletes a cancelled download from the store under
    the key it rebuilds from the [key] and [fileName] fields of the record.
    The engine keeps every record under just that key - a store without
    records has the property and [resumableDownload] preserves it - so for
    such a store cancelling a listed download removes its record, from the
    list and from the store, and no other. *)
Theorem cancelDownload_removes_the_record (σ : Service) (k : string) :
  keyed σ →
  let d := cancelDownload k (dm_mount σ) in
  pendingDownloads d !! k = None ∧
  downloads (dm_service d) !! k = None ∧
  (∀ k', k' ≠ k →
         pendingDownloads d !! k' = downloads σ !! k' ∧
         downloads (dm_service d) !! k' = downloads σ !! k') ∧
  keyed (dm_service d) ∧
  (∀ key fileName env, keyed (resumableDownload key fileName env σ).1.2).
Proof.
  intros Hkeyed d. subst d. unfold cancelDownload, dm_mount.
  cbn [pendingDownloads dm_service]. rewrite getPendingDownloads_eq.
  assert (Hσ : ∃ σ',
    match downloads σ !! k with
    | Some download =>
        set_downloads (delete (dp_key download +:+ "_" +:+ dp_fileName download)
                         (downloads σ)) σ
    | None => σ
    end = σ' ∧ downloads σ' = delete k (downloads σ)).
  { destruct (downloads σ !! k) as [p|] eqn:Hp.
    - eexists. split; [done|].
      change (dp_key p +:+ "_" +:+ dp_fileName p)
        with (download_fileKey (dp_key p) (dp_fileName p)).
      by rewrite <-(Hkeyed k p Hp).
    - exists σ. split; [done|]. by rewrite delete_id. }
  destruct Hσ as (σ' & -> & Hσ'). rewrite Hσ'.
  split; [apply lookup_delete_eq|]. split; [apply lookup_delete_eq|].
  split; [|split].
  - intros k' Hk'. by rewrite lookup_delete_ne.
  - intros k' p'. rewrite Hσ', lookup_delete_Some. intros [_ ?]. by apply Hkeyed.
  - intros key fileName env. by apply resumableDownload_keyed.
Qed.

Lemma cancelDownload_witness :
  let d := cancelDownload "docs/video.bin_video.bin" (dm_mount download_service) in
  pendingDownloads d !! "docs/video.bin_video.bin" = None ∧
  downloads (dm_service d) !! "docs/video.bin_video.bin" = None ∧
  (∀ k', k' ≠ "docs/video.bin_video.bin" →
         pendingDownloads d !! k' = downloads download_service !! k' ∧
         downloads (dm_service d) !! k' = downloads download_service !! k') ∧
  keyed (dm_service d) ∧
  (∀ key fileName env, keyed (resumableDownload key fileName env download_service).1.2).
Proof.
  apply (cancelDownload_removes_the_record download_service "docs/video.bin_video.bin").
  intros k p.
  change (downloads download_service)
    with ({[ "docs/video.bin_video.bin" := sample_download ]} : gmap string DownloadProgress).
  intros [<- <-]%lookup_singleton_Some. reflexivity.
Defined.


(** ** What the mounted queue shows *)

Section Mounted.
Variable percent_ge_99_9 : Z → Z → bool.

Lemma loadPending_step_fresh items σ k p :
  loadPending_step percent_ge_99_9 [] (items, σ) (k, p)
  = if percent_ge_99_9 (cp_uploadedSize p) (cp_totalSize p)
       || (cp_totalSize p <=? cp_uploadedSize p)
    then (items, clearUploadProgress k σ)
    else (items ++ [pending_item k p], σ).
Proof.
  unfold loadPending_step. simpl.
  destruct (percent_ge_99_9 _ _); [done|]. by destruct (_ <=? _).
Qed.

Lemma loadPending_fold_frame l :
  ∀ acc k, k ∉ l.*1 →
    uploads (foldl (loadPending_step percent_ge_99_9 []) acc l).2 !! k = uploads acc.2 !! k.
Proof.
  induction l as [|[k' p'] l IH]; intros [items σ] k Hk; [done|].
  simpl in Hk. apply not_elem_of_cons in Hk as [Hne Hk].
  cbn [foldl]. rewrite IH by done. rewrite loadPending_step_fresh.
  destruct (_ || _); [|done]. cbn [snd].
  rewrite uploads_clearUploadProgress. by case_decide.
Qed.

Lemma loadPending_fold_shown l :
  NoDup l.*1 →
  ∀ acc, (∀ k p, (k, p) ∈ l → uploads acc.2 !! k = Some p) →
    ∀ q, q ∈ (foldl (loadPending_step percent_ge_99_9 []) acc l).1 ↔
         q ∈ acc.1 ∨
         ∃ k p, (k, p) ∈ l ∧
                uploads (foldl (loadPending_step percent_ge_99_9 []) acc l).2 !! k = Some p ∧
                q = pending_item k p.
Proof.
  induction l as [|[k p] l IH]; intros Hnd [items σ] Hacc q.
  { simpl. split; [by left|]. intros [?|(k & p & Hin & _)]; [done|].
    by apply elem_of_nil in Hin. }
  simpl in Hnd. apply NoDup_cons in Hnd as [Hk Hnd].
  cbn [foldl]. rewrite loadPending_step_fresh.
  assert (Hkp : uploads σ !! k = Some p).
  { apply (Hacc k p). apply elem_of_cons. by left. }
  assert (Htail : ∀ k' p', (k', p') ∈ l → k' ≠ k).
  { intros k' p' Hin ->. apply Hk. apply list_elem_of_fmap. by exists (k, p'). }
  destruct (_ || _) eqn:Hpurge.
  - rewrite IH; [|done|].
    2:{ intros k' p' Hin. cbn [snd]. rewrite uploads_clearUploadProgress.
        case_decide as Hd; [by destruct (Htail k' p' Hin)|].
        apply (Hacc k' p'). apply elem_of_cons. by right. }
    cbn [fst snd]. split.
    + intros [?|(k' & p' & Hin & Hst & ->)]; [by left|]. right.
      exists k', p'. split; [apply elem_of_cons; by right|done].
    + intros [?|(k' & p' & Hin & Hst & ->)]; [by left|]. right.
      apply elem_of_cons in Hin as [[= -> ->]|Hin].
      * rewrite loadPending_fold_frame in Hst by done. cbn [snd] in Hst.
        by rewrite clearUploadProgress_same in Hst.
      * by exists k', p'.
  - rewrite IH; [|done|].
    2:{ intros k' p' Hin. apply (Hacc k' p'). apply elem_of_cons. by right. }
    cbn [fst snd]. split.
    + intros [[?|Hq%list_elem_of_singleton]%elem_of_app|(k' & p' & Hin & Hst & ->)].
      * by left.
      * right. exists k, p. split; [apply elem_of_cons; by left|]. split; [|done].
        by rewrite loadPending_fold_frame.
      * right. exists k', p'. split; [apply elem_of_cons; by right|done].
    + intros [?|(k' & p' & Hin & Hst & ->)].
      * left. apply elem_of_app. by left.
      * apply elem_of_cons in Hin as [[= -> ->]|Hin].
        -- left. apply elem_of_app. right. by apply list_elem_of_singleton.
        -- right. by exists k', p'.
Qed.

Lemma mount_queue σ :
  queue (mount percent_ge_99_9 σ)
  = (foldl (loadPending_step percent_ge_99_9 [])
       ([], clearCompletedUploads percent_ge_99_9 σ)
       (map_to_list (getPendingUploads (clearCompletedUploads percent_ge_99_9 σ)))).1.
Proof.
  unfold mount, loadPendingUploads. cbn [queue service].
  destruct (foldl _ _ _) as [items σ']. by destruct items.
Qed.

(** X19.  Once the queue has mounted, it shows exactly the upload records that
    are left in the store: one paused, resumable item for each, with the
    stand-in file of the record.  The item takes the storage key of the
    record as its object key, so the key under which the queue addresses
    the engine for the item - object key, name, size and modification time
    - is never the key the record lies under. *)
Theorem mount_shows_the_stored_records (σ : Service) :
  let u := mount percent_ge_99_9 σ in
  (∀ q, q ∈ queue u ↔
        ∃ k p, uploads (service u) !! k = Some p ∧ q = pending_item k p) ∧
  (∀ q, q ∈ queue u →
        item_status q = Paused ∧ isResumable q = true ∧
        is_Some (uploads (service u) !! item_key q) ∧
        item_fileKey q ≠ item_key q).
Proof.
  intros u.
  assert (Hshown : ∀ q, q ∈ queue u ↔
            ∃ k p, uploads (service u) !! k = Some p ∧ q = pending_item k p).
  { intros q. subst u. rewrite mount_queue.
    unfold mount. rewrite loadPendingUploads_service. cbn [queue service].
    set (σc := clearCompletedUploads percent_ge_99_9 σ).
    rewrite loadPending_fold_shown.
    - cbn [fst]. split.
      + intros [Hnil|(k & p & _ & Hst & ->)]; [by apply elem_of_nil in Hnil|].
        by exists k, p.
      + intros (k & p & Hst & ->). right. exists k, p. split; [|done].
        apply elem_of_map_to_list. rewrite getPendingUploads_eq.
        by apply loadPending_fold_only_deletes in Hst.
    - apply NoDup_fst_map_to_list.
    - intros k p Hin%elem_of_map_to_list. by rewrite getPendingUploads_eq in Hin. }
  split; [done|]. intros q (k & p & Hst & ->)%Hshown.
  split; [done|]. split; [done|]. split; [by exists p|].
  unfold item_fileKey, upload_fileKey. cbn [item_key item_file pending_item].
  by apply string_app_ne.
Qed.

(** ** The counters of the queue *)

Lemma counters_partition (l : list UploadQueueItem) :
  Forall (λ q, item_status q ≠ Resuming) l →
  length l
  = (count_status Completed l + count_status Uploading l + count_status Queued l
     + count_status Paused l + count_status Errored l)%nat.
Proof.
  unfold count_status. induction 1 as [|q l Hq _ IH]; [done|].
  rewrite !filter_cons. cbn [length]. rewrite IH.
  destruct (item_status q) eqn:Hst; try done;
    repeat (case_decide; try done); cbn [length]; lia.
Qed.

Lemma update_item_none_resuming id st (err : UploadQueueItem → option string) l :
  st ≠ Resuming →
  Forall (λ q, item_status q ≠ Resuming) l →
  Forall (λ q, item_status q ≠ Resuming)
         (update_item id (λ q, with_status st (err q) q) l).
Proof.
  intros Hst Hl. unfold update_item. apply Forall_fmap.
  eapply Forall_impl; [exact Hl|]. intros q Hq. simpl. by case_bool_decide.
Qed.

Lemma filter_none_resuming (P : UploadQueueItem → Prop) `{∀ q, Decision (P q)} l :
  Forall (λ q, item_status q ≠ Resuming) l →
  Forall (λ q, item_status q ≠ Resuming) (filter P l).
Proof.
  intros Hl. apply Forall_forall. intros q [_ Hq]%list_elem_of_filter.
  by eapply Forall_forall in Hl.
Qed.

Lemma queue_step_none_resuming u ev :
  none_resuming u → none_resuming (queue_step u ev).
Proof.
  unfold none_resuming. intros Hu.
  destruct ev as [path files| |outcome|id|id|id|id|]; simpl.
  - apply Forall_forall. intros q Hq.
    apply addFilesToQueue_items in Hq as [Hq|(i & f & _ & ->)].
    + by eapply Forall_forall in Hu.
    + simpl. by destruct (loadUploadProgress _ _).
  - unfold processQueue. destruct (_ || _); [done|].
    destruct (filter _ _) as [|nextItem rest]; [done|].
    unfold processUploadItem_begin. destruct (find_item _ _); [|done].
    destruct (_ || _); [done|]. destruct (isUploadActive _ _); [done|]. simpl.
    by apply (update_item_none_resuming _ Uploading (λ _, None)).
  - unfold processQueue_settled. destruct (running u) as [item|]; [|done].
    destruct outcome as [message|]; simpl.
    + case_bool_decide.
      * by apply (update_item_none_resuming _ Paused item_error).
      * by apply (update_item_none_resuming _ Errored (λ _, Some message)).
    + by apply (update_item_none_resuming _ Completed item_error).
  - by apply filter_none_resuming.
  - by apply (update_item_none_resuming _ Paused item_error).
  - apply (update_item_none_resuming _ _ item_error); [|done].
    destruct (find_item id (queue u)) as [item|]; [|done]. by destruct (isResumable item).
  - by apply (update_item_none_resuming _ Queued (λ _, None)).
  - by apply filter_none_resuming.
Qed.

(** X20.  The status [resuming], which the type of the items allows, is never
    given to an item: the queue as mounted has none, and no operation of
    the queue produces one.  So the five counters of [getQueueStats] always
    add up to its total. *)
Theorem queue_counters_add_up :
  (∀ σ, none_resuming (mount percent_ge_99_9 σ)) ∧
  (∀ u ev, none_resuming u → none_resuming (queue_step u ev)) ∧
  (∀ u id env, none_resuming u → none_resuming (removeFromQueue id env u).1) ∧
  (∀ u env, none_resuming (clearAll env u).1) ∧
  (∀ u, none_resuming u →
        let s := getQueueStats u in
        total s = (completed s + uploading s + queued s + paused s + errors s)%nat).
Proof.
  split; [|split; [|split; [|split]]].
  - intros σ. apply Forall_forall. intros q Hq.
    destruct (mount_parked percent_ge_99_9 (item_id q) σ) as [Hitems _].
    destruct (Hitems q Hq eq_refl) as [_ [-> | ->]]; done.
  - apply queue_step_none_resuming.
  - intros u id env Hu. unfold removeFromQueue.
    destruct (match find_item id (queue u) with Some _ => _ | None => _ end) as [σ env'].
    cbn [fst queue set_queue]. by apply filter_none_resuming.
  - intros u env. unfold clearAll. destruct (foldl _ _ _) as [σ env']. constructor.
  - intros u Hu. by apply counters_partition.
Qed.

End Mounted.

